(** * Othello engine and negamax worker of [srl/envs/othello.py]

    A shallow embedding of the [Othello] environment (board, movable
    direction maps, [call_reset], [call_step], [render_terminal]), of the
    rule based [Cpu] worker ([_negamax], [call_policy]) and of the
    [LayerProcessor] that turns a board into two planes, followed by the
    properties proved about them.

    Python integers are [Z].  Python lists and one dimensional numpy
    arrays are [list]; an index is resolved the way Python does it
    (a negative index counts from the end, anything else outside the
    sequence raises [IndexError]).  The board is a numpy array of 64 bit
    integers: storing a value that the type cannot hold raises
    [OverflowError], and its text, the key of the search cache, is
    abbreviated beyond 1000 cells.  A computation that may raise, or that
    contains a [while] loop, lives in the [res] monad: [Ok v], [Raise e],
    or [OutOfFuel] when the loop budget handed to the model ran out. *)

From stdpp Require Import base list strings pretty.
From Stdlib Require Import ZArith Lia Ascii.

Open Scope Z_scope.

(** ** Outcomes of a computation *)

Inductive exn : Type :=
  | IndexError
  | KeyError
  | ValueError
  | ZeroDivisionError
  | OverflowError.

Inductive res (A : Type) : Type :=
  | Ok (a : A)
  | Raise (e : exn)
  | OutOfFuel.

Arguments Ok {A} a.
Arguments Raise {A} e.
Arguments OutOfFuel {A}.

Definition res_bind {A B : Type} (m : res A) (k : A → res B) : res B :=
  match m with
  | Ok a => k a
  | Raise e => Raise e
  | OutOfFuel => OutOfFuel
  end.

#[global] Instance res_mbind : MBind res := fun A B k m => res_bind m k.
#[global] Instance res_mret : MRet res := fun A a => Ok a.

(** [for a in l: st = body st a], stopping at the first failure. *)
Fixpoint for_each {A S : Type} (l : list A) (body : S → A → res S) (st : S) : res S :=
  match l with
  | [] => Ok st
  | a :: l' => st' ← body st a; for_each l' body st'
  end.

(** [[a for a in l if keep a]] where the test itself may raise. *)
Fixpoint filter_res {A : Type} (keep : A → res bool) (l : list A) : res (list A) :=
  match l with
  | [] => Ok []
  | a :: l' =>
      b ← keep a;
      r ← filter_res keep l';
      Ok (if b : bool then a :: r else r)
  end.

(** ** Python sequences *)

(** [range(n)]: empty when [n <= 0]. *)
Definition range (n : Z) : list Z := Z.of_nat <$> seq 0 (Z.to_nat n).

(** Resolution of a subscript against a sequence of length [len]. *)
Definition py_index (len : nat) (i : Z) : res nat :=
  if bool_decide (0 ≤ i < Z.of_nat len) then Ok (Z.to_nat i)
  else if bool_decide (- Z.of_nat len ≤ i < 0) then Ok (Z.to_nat (i + Z.of_nat len))
  else Raise IndexError.

(** [l[i]] *)
Definition py_get {A : Type} (l : list A) (i : Z) : res A :=
  k ← py_index (length l) i;
  match l !! k with
  | Some a => Ok a
  | None => Raise IndexError
  end.

(** [l[i] = v] *)
Definition py_set {A : Type} (l : list A) (i : Z) (v : A) : res (list A) :=
  k ← py_index (length l) i;
  Ok (<[k:=v]> l).

(** [a[i] = v] on a numpy array of 64 bit integers ([dtype=int]): the
    subscript is resolved as for a list, then the value is converted,
    and a value that the type cannot hold raises [OverflowError]. *)
Definition np_set (a : list Z) (i v : Z) : res (list Z) :=
  k ← py_index (length a) i;
  if bool_decide (- 2 ^ 63 ≤ v < 2 ^ 63) then Ok (<[k:=v]> a)
  else Raise OverflowError.

(** [str(a)] for a one dimensional numpy array of integers.  numpy
    prints every entry of an array of at most 1000 entries; of a longer
    one it prints the three leading and the three trailing entries around
    an ellipsis.  The text is determined by the entries that are printed,
    and they can be read back from it, so they stand for it: two arrays
    have the same text exactly when they have the same [array_str]. *)
Inductive array_str : Type :=
  | Full (entries : list Z)
  | Summary (leading trailing : list Z).

#[global] Instance array_str_eq_dec : EqDecision array_str.
Proof. solve_decision. Defined.

Definition np_str (a : list Z) : array_str :=
  if bool_decide (Z.of_nat (length a) > 1000)
  then Summary (take 3 a) (drop (length a - 3) a)
  else Full a.

(** [len([f for f in l if f == v])] *)
Definition count_eq (v : Z) (l : list Z) : Z :=
  Z.of_nat (length (filter (λ f, f = v) l)).

(** ** Python strings *)

(** [s * n]: the string repeated, empty when [n <= 0]. *)
Definition str_repeat (s : string) (n : Z) : string :=
  foldr String.append "" (replicate (Z.to_nat n) s).

(** ["{:2d}".format(a)]: the decimal digits, padded with spaces on the
    left to two characters. *)
Definition format_2d (a : Z) : string :=
  let d := pretty a in
  str_repeat " " (2 - Z.of_nat (String.length d)) +:+ d.

(** ** The environment *)

Module Othello.

(** The attributes of an [Othello] instance that the game logic reads
    or writes ([viewer] only serves rendering). *)
Record env : Type := mkEnv {
  W : Z;
  H : Z;
  _player_index : Z;
  action : Z;
  field : list Z;
  movable_dirs : list (list (list Z));
}.

(** Assignments to one attribute. *)
Definition with_field (s : env) (f : list Z) : env :=
  mkEnv (W s) (H s) (_player_index s) (action s) f (movable_dirs s).

Definition with_movable_dirs (s : env) (m : list (list (list Z))) : env :=
  mkEnv (W s) (H s) (_player_index s) (action s) (field s) m.

Definition with_player_index (s : env) (p : Z) : env :=
  mkEnv (W s) (H s) p (action s) (field s) (movable_dirs s).

Definition with_action (s : env) (a : Z) : env :=
  mkEnv (W s) (H s) (_player_index s) a (field s) (movable_dirs s).

Definition player_index (s : env) : Z := _player_index s.

(** Off the board the answer is the sentinel 9. *)
Definition get_field (s : env) (x y : Z) : res Z :=
  if bool_decide (x < 0) then Ok 9
  else if bool_decide (x >= W s) then Ok 9
  else if bool_decide (y < 0) then Ok 9
  else if bool_decide (y >= H s) then Ok 9
  else py_get (field s) (W s * y + x).

Definition set_field (s : env) (x y n : Z) : res env :=
  f ← np_set (field s) (W s * y + x) n;
  Ok (with_field s f).

Definition pos (s : env) (x y : Z) : Z := W s * y + x.

(** [a % W, a // W]: Python's floor division, as [Z.modulo] and
    [Z.div]; a zero divisor raises. *)
Definition pos_decode (s : env) (a : Z) : res (Z * Z) :=
  if bool_decide (W s = 0) then Raise ZeroDivisionError
  else Ok (a `mod` W s, a `div` W s).

(** Modelled from the spec: [action_space.n].  The class [DiscreteSpace]
    is not part of the sources at hand; the spec gives the score vector
    one entry per action index, [W*H] of them, which is the argument the
    property [action_space] passes to the class. *)
Definition action_space_n (s : env) : Z := W s * H s.

(** [max_episode_steps] *)
Definition max_episode_steps (s : env) : Z := W s * H s.

(** The color of a player's stones. *)
Definition color_of (player_index : Z) : Z :=
  if bool_decide (player_index = 0) then 1 else -1.

(** The eight steps, in the order the scanner tries them; the third
    component is the direction name (numeric keypad layout). *)
Definition scan_dirs : list (Z * Z * Z) :=
  [(-1, 1, 1); (0, 1, 2); (1, 1, 3); (1, 0, 6);
   (1, -1, 9); (0, -1, 8); (-1, -1, 7); (-1, 0, 4)].

(** [while get_field(tmp_x, tmp_y) == enemy_color: tmp += diff] *)
Fixpoint skip_enemy (fuel : nat) (s : env) (enemy_color diff_x diff_y tmp_x tmp_y : Z)
    : res (Z * Z) :=
  match fuel with
  | O => OutOfFuel
  | S fuel' =>
      v ← get_field s tmp_x tmp_y;
      if bool_decide (v = enemy_color)
      then skip_enemy fuel' s enemy_color diff_x diff_y (tmp_x + diff_x) (tmp_y + diff_y)
      else Ok (tmp_x, tmp_y)
  end.

(** [dirs_list[i].append(dir_)] *)
Definition append_at (dirs_list : list (list Z)) (i dir_ : Z) : res (list (list Z)) :=
  l ← py_get dirs_list i;
  py_set dirs_list i (l ++ [dir_]).

(** One round of the loop over the eight steps, for the cell [(x, y)]. *)
Definition scan_dir (fuel : nat) (s : env) (my_color enemy_color x y : Z)
    (dirs_list : list (list Z)) (d : Z * Z * Z) : res (list (list Z)) :=
  let '(diff_x, diff_y, dir_) := d in
  let tmp_x := x + diff_x in
  let tmp_y := y + diff_y in
  v ← get_field s tmp_x tmp_y;
  if bool_decide (v ≠ enemy_color) then Ok dirs_list
  else
    '(end_x, end_y) ← skip_enemy fuel s enemy_color diff_x diff_y
                        (tmp_x + diff_x) (tmp_y + diff_y);
    v' ← get_field s end_x end_y;
    if bool_decide (v' = my_color)
    then append_at dirs_list (pos s x y) dir_
    else Ok dirs_list.

(** The body of the loop over [x], for the row [y]. *)
Definition scan_cell (fuel : nat) (s : env) (my_color enemy_color y : Z)
    (dirs_list : list (list Z)) (x : Z) : res (list (list Z)) :=
  v ← get_field s x y;
  if bool_decide (v ≠ 0) then Ok dirs_list
  else for_each scan_dirs (scan_dir fuel s my_color enemy_color x y) dirs_list.

Definition _calc_movable_dirs (fuel : nat) (s : env) (player_index : Z)
    : res (list (list Z)) :=
  let my_color := color_of player_index in
  let enemy_color := - my_color in
  let dirs_list := replicate (Z.to_nat (W s * H s)) [] in
  for_each (range (H s))
    (λ dirs_list y,
       for_each (range (W s)) (scan_cell fuel s my_color enemy_color y) dirs_list)
    dirs_list.

(** [np.zeros(n, dtype=int)] *)
Definition np_zeros (n : Z) : res (list Z) :=
  if bool_decide (n < 0) then Raise ValueError
  else Ok (replicate (Z.to_nat n) 0).

(** [int(W / 2)]: true division followed by truncation towards zero
    (exact for the board sizes a machine can hold). *)
Definition int_half (n : Z) : Z := Z.quot n 2.

Definition call_reset (fuel : nat) (s : env) : res (env * list Z) :=
  let s := with_action s 0 in
  let s := with_player_index s 0 in
  f ← np_zeros (W s * H s);
  let s := with_field s f in
  let center_x := int_half (W s) - 1 in
  let center_y := int_half (H s) - 1 in
  s ← set_field s center_x center_y 1;
  s ← set_field s (center_x + 1) (center_y + 1) 1;
  s ← set_field s (center_x + 1) center_y (-1);
  s ← set_field s center_x (center_y + 1) (-1);
  d0 ← _calc_movable_dirs fuel s 0;
  d1 ← _calc_movable_dirs fuel s 1;
  let s := with_movable_dirs s [d0; d1] in
  Ok (s, field s).

(** What [pickle.dumps] captures in [backup]. *)
Record snapshot : Type := mkSnapshot {
  snap_player_index : Z;
  snap_W : Z;
  snap_H : Z;
  snap_field : list Z;
  snap_movable_dirs : list (list (list Z));
}.

Definition backup (s : env) : snapshot :=
  mkSnapshot (_player_index s) (W s) (H s) (field s) (movable_dirs s).

Definition restore (s : env) (d : snapshot) : env :=
  mkEnv (snap_W d) (snap_H d) (snap_player_index d) (action s)
        (snap_field d) (snap_movable_dirs d).

(** The table [move_diff] of [_step]. *)
Definition move_diff (dir_ : Z) : res (Z * Z) :=
  if bool_decide (dir_ = 1) then Ok (-1, 1)
  else if bool_decide (dir_ = 2) then Ok (0, 1)
  else if bool_decide (dir_ = 3) then Ok (1, 1)
  else if bool_decide (dir_ = 6) then Ok (1, 0)
  else if bool_decide (dir_ = 9) then Ok (1, -1)
  else if bool_decide (dir_ = 8) then Ok (0, -1)
  else if bool_decide (dir_ = 7) then Ok (-1, -1)
  else if bool_decide (dir_ = 4) then Ok (-1, 0)
  else Raise KeyError.

(** [while get_field(tmp_x, tmp_y) != my_color: field[pos] = my_color; tmp += diff] *)
Fixpoint flip_walk (fuel : nat) (s : env) (my_color diff_x diff_y tmp_x tmp_y : Z)
    : res env :=
  match fuel with
  | O => OutOfFuel
  | S fuel' =>
      v ← get_field s tmp_x tmp_y;
      if bool_decide (v ≠ my_color) then
        let a := pos s tmp_x tmp_y in
        f ← np_set (field s) a my_color;
        flip_walk fuel' (with_field s f) my_color diff_x diff_y
                  (tmp_x + diff_x) (tmp_y + diff_y)
      else Ok s
  end.

(** One round of the loop of [_step] over the directions of the cell. *)
Definition flip_dir (fuel : nat) (my_color x y : Z) (s : env) (movable_dir : Z) : res env :=
  '(diff_x, diff_y) ← move_diff movable_dir;
  flip_walk fuel s my_color diff_x diff_y (x + diff_x) (y + diff_y).

Definition _step (fuel : nat) (s : env) (action : Z) : res env :=
  '(x, y) ← pos_decode s action;
  let my_color := color_of (player_index s) in
  f ← np_set (field s) action my_color;
  let s := with_field s f in
  dirs_p ← py_get (movable_dirs s) (player_index s);
  dirs ← py_get dirs_p action;
  s ← for_each dirs (flip_dir fuel my_color x y) s;
  d0 ← _calc_movable_dirs fuel s 0;
  d1 ← _calc_movable_dirs fuel s 1;
  Ok (with_movable_dirs s [d0; d1]).

Definition get_invalid_actions (s : env) (player_index : Z) : res (list Z) :=
  filter_res
    (λ a, dirs_p ← py_get (movable_dirs s) player_index;
          l ← py_get dirs_p a;
          Ok (bool_decide (length l = 0%nat)))
    (range (H s * W s)).

(** Modelled from the spec: [get_valid_actions] is inherited from the
    environment base class, which is not part of the sources at hand;
    the spec describes the illegal actions as the complement of the
    legal ones, so the legal actions are the indices of the action space
    that [get_invalid_actions] does not list, in increasing order. *)
Definition get_valid_actions (s : env) (player_index : Z) : res (list Z) :=
  invalid ← get_invalid_actions s player_index;
  Ok (filter (λ a, a ∉ invalid) (range (action_space_n s))).

(** The tuple returned by [call_step]; the board it carries is the
    [field] attribute itself. *)
Record step_result : Type := mkStep {
  obs : list Z;
  reward1 : Z;
  reward2 : Z;
  done : bool;
  info : list (string * Z);
}.

Definition call_step (fuel : nat) (s : env) (action : Z) : res (env * step_result) :=
  let s := with_action s action in
  dirs_p ← py_get (movable_dirs s) (player_index s);
  dirs ← py_get dirs_p action;
  if bool_decide (length dirs = 0%nat) then
    if bool_decide (player_index s = 0)
    then Ok (s, mkStep (field s) (-1) 0 true [])
    else Ok (s, mkStep (field s) 0 (-1) true [])
  else
    s ← _step fuel s action;
    let enemy_player := if bool_decide (player_index s = 0) then 1 else 0 in
    let my_player := if bool_decide (player_index s = 0) then 0 else 1 in
    inv_e ← get_invalid_actions s enemy_player;
    let enemy_put_num := action_space_n s - Z.of_nat (length inv_e) in
    inv_m ← get_invalid_actions s my_player;
    let my_put_num := action_space_n s - Z.of_nat (length inv_m) in
    if bool_decide (enemy_put_num = 0) && bool_decide (my_put_num = 0) then
      let p1_count := count_eq 1 (field s) in
      let p2_count := count_eq (-1) (field s) in
      let '(r1, r2) :=
        if bool_decide (p1_count > p2_count) then (1, -1)
        else if bool_decide (p1_count < p2_count) then (-1, 1)
        else (0, 0) in
      Ok (s, mkStep (field s) r1 r2 true [("P1"%string, p1_count); ("P2"%string, p2_count)])
    else if bool_decide (enemy_put_num = 0) then
      Ok (s, mkStep (field s) 0 0 false [])
    else
      let s := with_player_index s enemy_player in
      Ok (s, mkStep (field s) 0 0 false []).

(** The body of the loop over [x] of [render_terminal], for the row [y];
    [line] is the string [s] built so far. *)
Definition render_cell (s : env) (invalid_actions : list Z) (y : Z)
    (line : string) (x : Z) : res string :=
  let a := pos s x y in
  v ← py_get (field s) a;
  if bool_decide (v = 1) then
    if bool_decide (action s = a) then Ok (line +:+ "*o|") else Ok (line +:+ " o|")
  else
    v ← py_get (field s) a;
    if bool_decide (v = -1) then
      if bool_decide (action s = a) then Ok (line +:+ "*x|") else Ok (line +:+ " x|")
    else if bool_decide (a ∉ invalid_actions) then Ok (line +:+ (format_2d a +:+ "|"))
    else Ok (line +:+ "  |").

(** [render_terminal]: the lines it prints, in order.  When it raises,
    the lines printed before the exception are not part of the result. *)
Definition render_terminal (s : env) : res (list string) :=
  invalid_actions ← get_invalid_actions s (player_index s);
  let p1_count := count_eq 1 (field s) in
  let p2_count := count_eq (-1) (field s) in
  let out := [str_repeat "-" (1 + W s * 3)] in
  out ← for_each (range (H s))
          (λ out y,
             line ← for_each (range (W s)) (render_cell s invalid_actions y) "|";
             Ok (out ++ [line]))
          out;
  let out := out ++ [str_repeat "-" (1 + W s * 3)] in
  let out := out ++ ["O: " +:+ pretty p1_count +:+ ", X: " +:+ pretty p2_count] in
  if bool_decide (player_index s = 0)
  then Ok (out ++ ["next player: O"])
  else Ok (out ++ ["next player: X"]).

End Othello.

(** ** The rule based worker *)

Module Cpu.
Import Othello.

(** The positional weights, already flattened row by row as
    [np.array(...).flatten()] leaves them. *)
Definition evals8x8 : list Z :=
  [ 30; -12;  0; -1; -1;  0; -12;  30;
   -12; -15; -3; -3; -3; -3; -15; -12;
     0;  -3;  0; -1; -1;  0;  -3;   0;
    -1;  -3; -1; -1; -1; -1;  -3;  -1;
    -1;  -3; -1; -1; -1; -1;  -3;  -1;
     0;  -3;  0; -1; -1;  0;  -3;   0;
   -12; -15; -3; -3; -3; -3; -15; -12;
    30; -12;  0; -1; -1;  0; -12;  30].

Definition evals6x6 : list Z :=
  [ 30; -12;  0;  0; -12;  30;
   -12; -15; -3; -3; -15; -12;
     0;  -3;  0;  0;  -3;   0;
     0;  -3;  0;  0;  -3;   0;
   -12; -15; -3; -3; -15; -12;
    30; -12;  0;  0; -12;  30].

(** The attributes of a [Cpu] instance that the search reads or
    writes.  Scores are Python floats and numpy integers that hold whole
    numbers of small magnitude (-999.0, rewards times 500, sums of table
    weights); [Z] holds them exactly. *)
Record cpu : Type := mkCpu {
  max_depth : Z;
  _count : Z;
}.

(** The class attribute [Cpu.cache], a dictionary from the text of a
    board to a score vector; the latest entry of a key is the one that
    counts. *)
Definition cache_t : Type := list (array_str * list Z).

Fixpoint cache_get (c : cache_t) (key : array_str) : option (list Z) :=
  match c with
  | [] => None
  | (k, v) :: c' => if decide (k = key) then Some v else cache_get c' key
  end.

Definition cache_put (c : cache_t) (key : array_str) (v : list Z) : cache_t :=
  (key, v) :: c.

(** Everything the search mutates: the worker, the shared cache and
    the environment object handed down the recursion. *)
Record world : Type := mkWorld {
  self : cpu;
  cache : cache_t;
  env_of : env;
}.

Definition with_env (w : world) (e : env) : world :=
  mkWorld (self w) (cache w) e.

(** [a * b] on one dimensional arrays, with numpy's broadcasting. *)
Definition np_mul (a b : list Z) : res (list Z) :=
  if bool_decide (length a = length b) then Ok (zip_with Z.mul a b)
  else match a, b with
       | [x], _ => Ok (Z.mul x <$> b)
       | _, [y] => Ok ((λ x, x * y) <$> a)
       | _, _ => Raise ValueError
       end.

(** [np.sum(l)] *)
Definition np_sum (l : list Z) : Z := foldr Z.add 0 l.

(** [np.max(l)]; the empty sequence has no maximum. *)
Definition np_max (l : list Z) : res Z :=
  match l with
  | [] => Raise ValueError
  | x :: l' => Ok (foldr Z.max x l')
  end.

(** The static evaluation of the board, before the sign is set. *)
Definition board_eval (e : env) : res Z :=
  if bool_decide (W e = 8) then p ← np_mul evals8x8 (field e); Ok (np_sum p)
  else if bool_decide (W e = 6) then p ← np_mul evals6x6 (field e); Ok (np_sum p)
  else Ok 0.

(** The body of the loop of [_negamax] over the legal actions;
    [recurse] is the recursive call. *)
Definition negamax_action (loop_fuel : nat)
    (recurse : world → Z → res (list Z * world))
    (env_dat : snapshot) (player_index depth : Z)
    (st : list Z * world) (a : Z) : res (list Z * world) :=
  let '(scores, w) := st in
  let e := restore (env_of w) env_dat in
  '(e, r) ← call_step loop_fuel e a;
  let w := with_env w e in
  if done r then
    scores ← py_set scores a
               (if bool_decide (player_index = 0) then reward1 r * 500 else reward2 r * 500);
    Ok (scores, w)
  else if bool_decide (depth > max_depth (self w)) then
    v ← board_eval e;
    scores ← py_set scores a v;
    scores ← (if bool_decide (player_index ≠ 0)
              then v' ← py_get scores a; py_set scores a (- v')
              else Ok scores);
    Ok (scores, w)
  else
    let is_enemy := bool_decide (player_index ≠ Othello.player_index e) in
    '(n_scores, w) ← recurse w (depth + 1);
    m ← np_max n_scores;
    scores ← py_set scores a (if is_enemy then - m else m);
    Ok (scores, w).

Fixpoint _negamax (fuel loop_fuel : nat) (w : world) (depth : Z)
    : res (list Z * world) :=
  match fuel with
  | O => OutOfFuel
  | S fuel' =>
      let key := np_str (field (env_of w)) in
      match cache_get (cache w) key with
      | Some scores => Ok (scores, w)
      | None =>
          let w := mkWorld (mkCpu (max_depth (self w)) (_count (self w) + 1))
                           (cache w) (env_of w) in
          let env_dat := backup (env_of w) in
          let player_index := Othello.player_index (env_of w) in
          valid_actions ← get_valid_actions (env_of w) player_index;
          let scores := replicate (Z.to_nat (action_space_n (env_of w))) (-999) in
          '(scores, w) ← for_each valid_actions
                           (negamax_action loop_fuel (_negamax fuel' loop_fuel)
                              env_dat player_index depth)
                           (scores, w);
          Ok (scores, mkWorld (self w) (cache_put (cache w) key scores) (env_of w))
      end
  end.

(** [call_policy]: the search runs on a copy of the environment, so the
    caller's environment is not part of the result; [pick] is the draw
    of [random.choice] among the indices of the maximal entries. *)
Definition call_policy (fuel loop_fuel : nat) (me : cpu) (c : cache_t) (e : env)
    (pick : nat) : res (Z * cpu * cache_t) :=
  let me := mkCpu (max_depth me) 0 in
  '(scores, w) ← _negamax fuel loop_fuel (mkWorld me c e) 0;
  m ← np_max scores;
  let best := filter (λ a, scores !! Z.to_nat a = Some m)
                     (range (Z.of_nat (length scores))) in
  match best !! (pick `mod` length best)%nat with
  | Some a => Ok (a, self w, cache w)
  | None => Raise IndexError
  end.

End Cpu.

(** ** The observation processor *)

Module LayerProcessor.
Import Othello.

(** [np.zeros((n, h, w))]: an array of [n] layers of [h] rows of [w]
    entries.  The entries are floats that only ever hold 0.0 and 1.0;
    [Z] holds them exactly. *)
Definition np_zeros3 (n h w : Z) : res (list (list (list Z))) :=
  if bool_decide (n < 0) || bool_decide (h < 0) || bool_decide (w < 0)
  then Raise ValueError
  else Ok (replicate (Z.to_nat n) (replicate (Z.to_nat h) (replicate (Z.to_nat w) 0))).

(** [_field[l][y][x] = v] *)
Definition set3 (_field : list (list (list Z))) (l y x v : Z)
    : res (list (list (list Z))) :=
  layer ← py_get _field l;
  row ← py_get layer y;
  row ← py_set row x v;
  layer ← py_set layer y row;
  py_set _field l layer.

(** The body of the loop over [x], for the row [y]. *)
Definition process_cell (e : env) (observation : list Z) (my_field enemy_field y : Z)
    (_field : list (list (list Z))) (x : Z) : res (list (list (list Z))) :=
  let idx := x + y * W e in
  v ← py_get observation idx;
  if bool_decide (v = my_field) then set3 _field 0 y x 1
  else
    v ← py_get observation idx;
    if bool_decide (v = enemy_field) then set3 _field 1 y x 1
    else Ok _field.

Definition process_observation (observation : list Z) (e : env)
    : res (list (list (list Z))) :=
  let '(my_field, enemy_field) :=
    if bool_decide (player_index e = 0) then (1, -1) else (-1, 1) in
  _field ← np_zeros3 2 (H e) (W e);
  for_each (range (H e))
    (λ _field y,
       for_each (range (W e)) (process_cell e observation my_field enemy_field y) _field)
    _field.

End LayerProcessor.

(** * Vocabulary of the properties *)

Import Othello.

(** ** Boards *)

(** A board: non-negative dimensions and one cell per position. *)
Definition board_ok (s : env) : Prop :=
  0 ≤ W s ∧ 0 ≤ H s ∧ length (field s) = Z.to_nat (W s * H s).

(** The position [(x, y)] is on the board. *)
Definition on_board (s : env) (x y : Z) : Prop := 0 ≤ x < W s ∧ 0 ≤ y < H s.

(** A budget that every [while] loop of the engine stays within: no
    run of stones is longer than the board. *)
Definition loop_bound (s : env) : nat := S (Z.to_nat (Z.max (W s) (H s))).

(** From the cell [(x, y)] in the direction [(diff_x, diff_y)]: the
    neighbour holds the opponent's color, so do the [n - 1] cells after
    it, and the next cell holds the mover's color. *)
Definition outflanks (s : env) (my_color enemy_color x y diff_x diff_y : Z) : Prop :=
  ∃ n : Z, 1 ≤ n ∧
    (∀ i, 1 ≤ i ≤ n → get_field s (x + i * diff_x) (y + i * diff_y) = Ok enemy_color) ∧
    get_field s (x + (n + 1) * diff_x) (y + (n + 1) * diff_y) = Ok my_color.

(** [dir_] names a direction in which player [player_index] outflanks
    from the cell [(x, y)]. *)
Definition movable (s : env) (player_index x y dir_ : Z) : Prop :=
  ∃ diff_x diff_y, (diff_x, diff_y, dir_) ∈ scan_dirs ∧
    outflanks s (color_of player_index) (- color_of player_index) x y diff_x diff_y.

(** The value [get_field] returns on a board, as a total function. *)
Definition cell (s : env) (x y : Z) : Z :=
  if bool_decide (0 ≤ x < W s ∧ 0 ≤ y < H s)
  then default 0 (field s !! Z.to_nat (W s * y + x))
  else 9.

(** What the direction list of the cell [(x, y)] has to be. *)
Definition cell_dirs_ok (s : env) (p x y : Z) (L : list Z) : Prop :=
  (get_field s x y ≠ Ok 0 → L = []) ∧
  (get_field s x y = Ok 0 → ∀ d, d ∈ L ↔ movable s p x y d).

(** The direction map of player [p] agrees with the board. *)
Definition dirs_spec (s : env) (p : Z) (dl : list (list Z)) : Prop :=
  length dl = Z.to_nat (W s * H s) ∧
  ∀ x y, 0 ≤ x < W s → 0 ≤ y < H s →
    ∃ L, dl !! Z.to_nat (pos s x y) = Some L ∧ cell_dirs_ok s p x y L.

(** The number of stones on the board. *)
Definition count_nonempty (l : list Z) : Z :=
  Z.of_nat (length (filter (λ f, f ≠ 0) l)).

(** Two environments that show the same board. *)
Definition same_board (s s' : env) : Prop :=
  W s' = W s ∧ H s' = H s ∧ field s' = field s.

(** ** Engine states *)

(** The maps of the engine are those the scanner computes from its board. *)
Definition consistent (s : env) : Prop :=
  ∃ fuel d0 d1,
    _calc_movable_dirs fuel s 0 = Ok d0 ∧
    _calc_movable_dirs fuel s 1 = Ok d1 ∧
    movable_dirs s = [d0; d1].

(** A state the engine can be in between two calls. *)
Definition wf (s : env) : Prop :=
  board_ok s ∧ (player_index s = 0 ∨ player_index s = 1) ∧ consistent s.

(** The direction set of the cell [a] for the current mover is not empty. *)
Definition legal (s : env) (a : Z) : Prop :=
  0 ≤ a < action_space_n s ∧
  ∃ dirs_p dirs,
    py_get (movable_dirs s) (player_index s) = Ok dirs_p ∧
    py_get dirs_p a = Ok dirs ∧ dirs ≠ [].

(** A run of opponent stones, possibly empty, closed by a stone of the
    mover: what is left of an outflanked run while [_step] flips. *)
Definition weak_ray (t : env) (my en x y dx dy : Z) : Prop :=
  ∃ n : Z, 0 ≤ n ∧
    (∀ i, 1 ≤ i ≤ n → cell t (x + i * dx) (y + i * dy) = en) ∧
    cell t (x + (n + 1) * dx) (y + (n + 1) * dy) = my.

(** What holds of the environment between two rounds of the loop of
    [_step] that flips around the cell [(x, y)] of [s]: only cells
    changed, the stone count is [c], the placed stone is in place, the
    other empty cells are still empty and every direction of [L] still
    closes on a stone of the mover. *)
Definition flip_inv (s : env) (my en x y c : Z) (L : list Z) (t : env) : Prop :=
  ∃ f, t = with_field s f ∧
       length f = length (field s) ∧
       count_nonempty f = c ∧
       cell t x y = my ∧
       (∀ u w, cell s u w = 0 → ¬ (u = x ∧ w = y) → cell t u w = 0) ∧
       ∀ d, d ∈ L → ∃ dx dy, (dx, dy, d) ∈ scan_dirs ∧ weak_ray t my en x y dx dy.

(** Player [p] has a cell with a non-empty direction set. *)
Definition has_legal_cell (s : env) (p : Z) : Prop :=
  ∃ a dirs_p dirs,
    0 ≤ a < action_space_n s ∧
    py_get (movable_dirs s) p = Ok dirs_p ∧
    py_get dirs_p a = Ok dirs ∧ dirs ≠ [].

(** The cells hold nothing but stones of the two colors. *)
Definition cells_ok (l : list Z) : Prop :=
  Forall (λ v, v = -1 ∨ v = 0 ∨ v = 1) l.

(** How the cells may change while a stone of the mover is written. *)
Definition grown (l l' : list Z) : Prop :=
  length l' = length l ∧
  count_nonempty l ≤ count_nonempty l' ∧
  (cells_ok l → cells_ok l').

(** The tuple returned when neither player can move. *)
Definition game_over_result (s : env) : step_result :=
  let p1_count := count_eq 1 (field s) in
  let p2_count := count_eq (-1) (field s) in
  let '(r1, r2) :=
    if bool_decide (p1_count > p2_count) then (1, -1)
    else if bool_decide (p1_count < p2_count) then (-1, 1)
    else (0, 0) in
  mkStep (field s) r1 r2 true [("P1"%string, p1_count); ("P2"%string, p2_count)].

(** The player who is not [p]. *)
Definition opponent (p : Z) : Z := if bool_decide (p = 0) then 1 else 0.

(** The states the engine goes through: a reset of a board of
    non-negative dimensions, followed by any number of steps. *)
Inductive reachable : env → Prop :=
  | reach_reset (fuel : nat) (s0 s : env) (o : list Z) :
      0 ≤ W s0 → 0 ≤ H s0 →
      call_reset fuel s0 = Ok (s, o) → reachable s
  | reach_step (fuel : nat) (s s' : env) (a : Z) (r : step_result) :
      reachable s → call_step fuel s a = Ok (s', r) → reachable s'.

(** A game: the actions of the list, each applied by [call_step]. *)
Fixpoint play (fuel : nat) (s : env) (actions : list Z) : res env :=
  match actions with
  | [] => Ok s
  | a :: rest => '(s', _) ← call_step fuel s a; play fuel s' rest
  end.

(** ** The search *)

Import Cpu.

(** The boards the evaluation tables fit: a width of 8 or 6 comes with
    the same height. *)
Definition supported (e : env) : Prop :=
  (W e = 8 → H e = 8) ∧ (W e = 6 → H e = 6).

(** The dot product of the weights with the cells. *)
Definition dot (a b : list Z) : Z := np_sum (zip_with Z.mul a b).

(** The positional score of the board: the weights of the table of its
    width times the cells, 0 when the width has no table. *)
Definition table_score (e : env) : Z :=
  if bool_decide (W e = 8) then dot evals8x8 (field e)
  else if bool_decide (W e = 6) then dot evals6x6 (field e)
  else 0.

(** The sum of the magnitudes of the weights. *)
Definition sum_abs (a : list Z) : Z := foldr (λ x acc, Z.abs x + acc) 0 a.

(** A score that a legal action can get. *)
Definition entry_ok (x : Z) : Prop := -500 ≤ x ≤ 500.

(** A score vector whose maximum is the score of some legal action. *)
Definition good (v : list Z) : Prop := ∃ m, np_max v = Ok m ∧ entry_ok m.

(** Every cached vector is of that kind. *)
Definition cache_good (c : cache_t) : Prop :=
  ∀ k v, cache_get c k = Some v → good v.

(** A score vector computed for the node [e]: a score for each legal
    action, the sentinel for the others. *)
Definition scores_ok (e : env) (scores : list Z) : Prop :=
  length scores = Z.to_nat (action_space_n e) ∧
  ∀ a, 0 ≤ a < action_space_n e →
    ∃ x, scores !! Z.to_nat a = Some x ∧
         ((legal e a ∧ entry_ok x) ∨ (¬ legal e a ∧ x = -999)).

(** A node of the search: a well formed state of a supported board whose
    mover has a legal action. *)
Definition node_ok (loop_fuel : nat) (e : env) : Prop :=
  wf e ∧ cells_ok (field e) ∧ supported e ∧
  has_legal_cell e (player_index e) ∧ (loop_bound e ≤ loop_fuel)%nat.

(** A score vector of the node [e] while its loop runs: the sentinel, or
    the score of a legal action. *)
Definition partial_scores (e : env) (scores : list Z) : Prop :=
  length scores = Z.to_nat (action_space_n e) ∧
  ∀ a, 0 ≤ a < action_space_n e →
    ∃ x, scores !! Z.to_nat a = Some x ∧ (x = -999 ∨ (entry_ok x ∧ legal e a)).

(** The reward of player [p] in a step result, as the search reads it. *)
Definition reward_of (p : Z) (r : step_result) : Z :=
  if bool_decide (p = 0) then reward1 r else reward2 r.

(** The score of the action [b] at a node beyond the depth limit: 500
    times the reward of the node's mover when the move ends the game, else
    the static evaluation of the board after the move, negated when the
    node's mover is not player 0. *)
Definition leaf_entry (loop_fuel : nat) (node : env) (b : Z) : res Z :=
  '(e2, r) ← call_step loop_fuel node b;
  if done r then Ok (reward_of (player_index node) r * 500)
  else v ← board_eval e2;
       Ok (if bool_decide (player_index node = 0) then v else - v).

(** The score vector of a node beyond the depth limit. *)
Definition leaf_vector (loop_fuel : nat) (node : env) (v : list Z) : Prop :=
  length v = Z.to_nat (action_space_n node) ∧
  ∀ b, 0 ≤ b < action_space_n node →
    ∃ y, v !! Z.to_nat b = Some y ∧
         ((legal node b ∧ leaf_entry loop_fuel node b = Ok y) ∨
          (¬ legal node b ∧ y = -999)).

(** The score of the action [a] at the root when [max_depth] is 0. *)
Definition two_ply_entry (loop_fuel : nat) (e : env) (a x : Z) : Prop :=
  ∃ e1 r1,
    call_step loop_fuel e a = Ok (e1, r1) ∧
    (done r1 = true → x = reward_of (player_index e) r1 * 500) ∧
    (done r1 = false →
     ∃ v1 m, leaf_vector loop_fuel e1 v1 ∧ np_max v1 = Ok m ∧
             x = if bool_decide (player_index e ≠ player_index e1) then - m else m).

(** Where the keys of the cache come from while the root loop runs: they
    are the texts of the boards reached by the legal actions already
    tried. *)
Definition keys_from (loop_fuel : nat) (e : env) (pending : list Z) (c : cache_t) : Prop :=
  ∀ k v, cache_get c k = Some v →
    ∃ a' e1 r1, (a' ∉ pending) ∧ legal e a' ∧
                call_step loop_fuel e a' = Ok (e1, r1) ∧ k = np_str (field e1).

(** The leaf score under the reading that ties the sign to the root of
    the search: the positional value, negated exactly when the root mover
    is player 1. *)
Definition root_signed_score (root_mover : Z) (leaf : env) : Z :=
  if bool_decide (root_mover = 1) then - table_score leaf else table_score leaf.

(** ** Concrete positions *)

(** A board fresh out of the constructor, before the first reset. *)
Definition fresh (w h : Z) : env := mkEnv w h 0 0 [] [].

(** The opening position of the 8x8 board. *)
Definition opening8x8 : env :=
  Eval vm_compute in
    match call_reset 9 (fresh 8 8) with
    | Ok (s, _) => s
    | _ => fresh 8 8
    end.

(** The same position with the second player to move. *)
Definition opening8x8_second : env := with_player_index opening8x8 1.

(** The position after a reset of the [w] by [h] board and the given
    actions. *)
Definition position (w h : Z) (actions : list Z) : res env :=
  '(s, _) ← call_reset 9 (fresh w h); play 9 s actions.

(** The position when the game could be played, else the fresh board. *)
Definition or_fresh (w h : Z) (r : res env) : env :=
  match r with Ok s => s | _ => fresh w h end.

(** 4x4 board, player 1 to move; playing cell 3 leaves player 0 without
    a move. *)
Definition before_pass4x4 : env :=
  Eval vm_compute in or_fresh 4 4 (position 4 4 [2; 1; 8]).

(** 8x2 board, player 1 to move; playing cell 13 ends the game. *)
Definition before_end8x2 : env :=
  Eval vm_compute in or_fresh 8 2 (position 8 2 [5]).

(** 4x4 board, player 0 to move; cell 11 does not end the game, the move
    after it can. *)
Definition mid4x4 : env :=
  Eval vm_compute in or_fresh 4 4 (position 4 4 [2; 1; 0; 3]).

(** 8x8 board after the opening move 34: player 1 to move. *)
Definition after34 : env :=
  Eval vm_compute in or_fresh 8 8 (position 8 8 [34]).

(** The opening position of the 8x4 board. *)
Definition opening8x4 : env :=
  Eval vm_compute in or_fresh 8 4 (position 8 4 []).

(** The worker as [Cpu()] builds it. *)
Definition default_cpu : cpu := mkCpu 2 0.

(** The worker with the depth limit set to 0. *)
Definition depth0_cpu : cpu := mkCpu 0 0.

(** * Vocabulary of the further properties *)

(** ** Games *)

Inductive legal_run (fuel : nat) : env → list Z → env → Prop :=
  | run_nil (s : env) : legal_run fuel s [] s
  | run_cons (s s1 s' : env) (a : Z) (r : step_result) (rest : list Z) :
      legal s a → call_step fuel s a = Ok (s1, r) →
      legal_run fuel s1 rest s' → legal_run fuel s (a :: rest) s'.

(** The cells [l'] are the cells [l] with some of them overwritten by [my]. *)
Definition painted (my : Z) (l l' : list Z) : Prop :=
  Forall2 (λ v v', v' = v ∨ v' = my) l l'.

(** The direction names, in the order the scanner tries them. *)
Definition dir_names : list Z := (λ t : Z * Z * Z, t.2) <$> scan_dirs.

(** ** The opening *)

(** The cells of the opening position of the [w] by [h] board: the
    four stones of the central block, the other cells empty, 9 off the
    board. *)
Definition opening_cell (w h u v : Z) : Z :=
  let cx := int_half w - 1 in
  let cy := int_half h - 1 in
  if decide (u = cx ∧ v = cy + 1) then -1
  else if decide (u = cx + 1 ∧ v = cy) then -1
  else if decide (u = cx + 1 ∧ v = cy + 1) then 1
  else if decide (u = cx ∧ v = cy) then 1
  else if bool_decide (0 ≤ u < w ∧ 0 ≤ v < h) then 0
  else 9.

(** The four cells player 0 can open with. *)
Definition opening_moves (s : env) : list Z :=
  let cx := int_half (W s) - 1 in
  let cy := int_half (H s) - 1 in
  [pos s (cx + 1) (cy - 1); pos s (cx + 2) cy; pos s (cx - 1) (cy + 1); pos s cx (cy + 2)].

(** ** The cache *)

(** What the search leaves alone between two worlds: the depth limit,
    and every entry that the cache already holds; the node counter does
    not go down. *)
Definition extends (w w' : world) : Prop :=
  max_depth (self w') = max_depth (self w) ∧
  _count (self w) ≤ _count (self w') ∧
  ∀ k v, cache_get (cache w) k = Some v → cache_get (cache w') k = Some v.

(** ** Observation layers *)

Import LayerProcessor.

(** The cells read back from the two planes of the player whose color
    is [my]: row after row, [my] where the first plane holds 1, the other
    color where the second does. *)
Definition unlayer (my : Z) (F : list (list (list Z))) : list Z :=
  match F with
  | [mine; theirs] => concat (zip_with (zip_with (λ a b, my * (a - b))) mine theirs)
  | _ => []
  end.

(** The entry [(l, y, x)] of a three dimensional array. *)
Definition at3 (F : list (list (list Z))) (l y x : nat) : option Z :=
  layer ← F !! l; row ← layer !! y; row !! x.

(** An array of [n] layers of [h] rows of [w] entries. *)
Definition shape3 (n h w : nat) (F : list (list (list Z))) : Prop :=
  length F = n ∧
  ∀ l layer, F !! l = Some layer →
    length layer = h ∧ ∀ y row, layer !! y = Some row → length row = w.

(** 1 where the observation shows the color [c], else 0. *)
Definition shows (observation : list Z) (c : Z) (idx : Z) : Z :=
  if bool_decide (observation !! Z.to_nat idx = Some c) then 1 else 0.

(** The plane of a color: one row per board row, 1 on the cells that
    hold the color. *)
Definition plane (e : env) (observation : list Z) (c : Z) : list (list Z) :=
  (λ y, (λ x, shows observation c (x + y * W e)) <$> range (W e)) <$> range (H e).

(** What the loops have done when they reach the cell [(x, y)]. *)
Definition layers_upto (e : env) (observation : list Z) (my en : Z) (y x : Z)
    (F : list (list (list Z))) : Prop :=
  shape3 2 (Z.to_nat (H e)) (Z.to_nat (W e)) F ∧
  ∀ l y' x', (l < 2)%nat → (y' < Z.to_nat (H e))%nat → (x' < Z.to_nat (W e))%nat →
    at3 F l y' x'
    = Some (if bool_decide (Z.of_nat y' < y ∨ (Z.of_nat y' = y ∧ Z.of_nat x' < x))
            then shows observation (if decide (l = 0%nat) then my else en)
                       (Z.of_nat x' + Z.of_nat y' * W e)
            else 0).

(** ** Printed boards *)

(** The three characters that show the cell [a]. *)
Definition cell_text (s : env) (invalid_actions : list Z) (a : Z) : string :=
  match field s !! Z.to_nat a with
  | Some v =>
      if bool_decide (v = 1) then (if bool_decide (action s = a) then "*o|" else " o|")
      else if bool_decide (v = -1) then (if bool_decide (action s = a) then "*x|" else " x|")
      else if bool_decide (a ∉ invalid_actions) then format_2d a +:+ "|"
      else "  |"
  | None => ""
  end.

(** The line of the row [y]. *)
Definition row_text (s : env) (invalid_actions : list Z) (y : Z) : string :=
  "|" +:+ String.concat "" ((λ x, cell_text s invalid_actions (pos s x y)) <$> range (W s)).

(** The cell read back from the line of its row: the stone drawn in
    column [x]. *)
Definition read_cell (line : string) (x : Z) : Z :=
  match String.get (Z.to_nat (3 * x + 2)) line with
  | Some "o"%char => 1
  | Some "x"%char => -1
  | _ => 0
  end.

(** The board read back from the printed lines. *)
Definition read_board (w h : Z) (lines : list string) : list Z :=
  concat ((λ y, (λ x, read_cell (default ""%string (lines !! Z.to_nat (1 + y))) x) <$> range w)
            <$> range h).

(** Two characters, the second one neither of the stones. *)
Definition two_chars (t : string) : bool :=
  match t with
  | String _ (String c EmptyString) =>
      negb (Ascii.eqb c "o") && negb (Ascii.eqb c "x")
  | _ => false
  end.

(** ** Exchanged colors *)

(** The board with the colors of all stones exchanged. *)
Definition swap_colors (s : env) : env := with_field s (Z.opp <$> field s).

(** What [get_field] answers at the same position of a board and of the
    board with the colors exchanged: opposite values, or the sentinel on
    both sides. *)
Definition mirrored (v v' : Z) : Prop := v' = - v ∨ (v = 9 ∧ v' = 9).

(** * Properties *)

(** ** The [res] monad *)

Lemma bind_Ok {A B : Type} (a : A) (k : A → res B) : (Ok a ≫= k) = k a.
Proof. reflexivity. Qed.

Lemma bind_Ok_inv {A B : Type} (m : res A) (k : A → res B) (b : B) :
  (m ≫= k) = Ok b → ∃ a, m = Ok a ∧ k a = Ok b.
Proof. destruct m as [a| |]; [eauto | discriminate | discriminate]. Qed.

(** Peel the first binding of a hypothesis [x ← m; k = Ok b]. *)
Ltac bind_inv Hyp a Ha :=
  apply bind_Ok_inv in Hyp; destruct Hyp as [a [Ha Hyp]].

(** ** Subscripts *)

Lemma py_index_in_range (len : nat) (i : Z) :
  0 ≤ i < Z.of_nat len → py_index len i = Ok (Z.to_nat i).
Proof. intros Hi. unfold py_index. rewrite bool_decide_eq_true_2; done. Qed.

Lemma py_get_in_range {A : Type} (l : list A) (i : Z) (a : A) :
  0 ≤ i → l !! Z.to_nat i = Some a → py_get l i = Ok a.
Proof.
  intros Hi Hl. unfold py_get. rewrite py_index_in_range.
  - simpl. by rewrite Hl.
  - apply lookup_lt_Some in Hl. lia.
Qed.

Lemma py_get_in_range_inv {A : Type} (l : list A) (i : Z) (a : A) :
  0 ≤ i → py_get l i = Ok a → l !! Z.to_nat i = Some a.
Proof.
  intros Hi. unfold py_get, py_index.
  case_bool_decide; simpl.
  - destruct (l !! Z.to_nat i); congruence.
  - case_bool_decide; [lia | discriminate].
Qed.

Lemma py_set_in_range {A : Type} (l : list A) (i : Z) (v : A) :
  0 ≤ i < Z.of_nat (length l) → py_set l i v = Ok (<[Z.to_nat i := v]> l).
Proof. intros Hi. unfold py_set. by rewrite py_index_in_range. Qed.

Lemma py_set_length {A : Type} (l l' : list A) (i : Z) (v : A) :
  py_set l i v = Ok l' → length l' = length l.
Proof.
  unfold py_set. intros Hs. bind_inv Hs k Hk.
  injection Hs as <-. apply length_insert.
Qed.

Lemma np_set_py_set (l : list Z) (i v : Z) :
  - 2 ^ 63 ≤ v < 2 ^ 63 → np_set l i v = py_set l i v.
Proof.
  intros Hv. unfold np_set, py_set.
  destruct (py_index (length l) i); [|done..].
  rewrite !bind_Ok. by rewrite bool_decide_eq_true_2.
Qed.

Lemma np_set_Ok (l l' : list Z) (i v : Z) :
  np_set l i v = Ok l' → py_set l i v = Ok l'.
Proof.
  unfold np_set, py_set. destruct (py_index (length l) i); [|done..].
  rewrite !bind_Ok. by case_bool_decide.
Qed.

Lemma np_str_inj (a b : list Z) :
  Z.of_nat (length a) ≤ 1000 → Z.of_nat (length b) ≤ 1000 →
  np_str a = np_str b → a = b.
Proof.
  intros Ha Hb. unfold np_str.
  rewrite !bool_decide_eq_false_2 by lia. congruence.
Qed.

(** ** The scanner *)

Lemma pos_in_range w h x y : 0 ≤ x < w → 0 ≤ y < h → 0 ≤ w * y + x < w * h.
Proof.
  intros Hx Hy.
  assert (w * (y + 1) ≤ w * h) by (apply Z.mul_le_mono_nonneg_l; lia).
  assert (0 ≤ w * y) by (apply Z.mul_nonneg_nonneg; lia).
  lia.
Qed.

Lemma get_field_cell s x y : board_ok s → get_field s x y = Ok (cell s x y).
Proof.
  intros (HW & HH & Hlen). unfold get_field, cell.
  destruct (decide (0 ≤ x < W s ∧ 0 ≤ y < H s)) as [[Hx Hy] | Hoff].
  - rewrite !bool_decide_eq_false_2 by lia.
    rewrite bool_decide_eq_true_2 by done.
    pose proof (pos_in_range (W s) (H s) x y Hx Hy) as Hpos.
    assert (Hlt : (Z.to_nat (W s * y + x) < length (field s))%nat) by (rewrite Hlen; lia).
    apply lookup_lt_is_Some_2 in Hlt as [v Hv].
    rewrite Hv. simpl. apply py_get_in_range; [lia | done].
  - rewrite (bool_decide_eq_false_2 _ Hoff).
    repeat (case_bool_decide; [done|]). lia.
Qed.

Lemma cell_off_board s x y : ¬ on_board s x y → cell s x y = 9.
Proof. intros Hn. unfold cell. by rewrite bool_decide_eq_false_2. Qed.

Lemma color_of_cases p : (p = 0 ∧ color_of p = 1) ∨ (p ≠ 0 ∧ color_of p = -1).
Proof. unfold color_of. case_bool_decide; auto. Qed.

Ltac dir_cases Hd :=
  unfold scan_dirs in Hd;
  repeat (apply elem_of_cons in Hd as [Hd | Hd]; [injection Hd as -> -> -> |]);
  [ .. | by apply elem_of_nil in Hd ].

Lemma skip_enemy_run s enemy dx dy (k : nat) :
  board_ok s →
  ∀ fuel tx ty,
    (∀ i : nat, (i < k)%nat → cell s (tx + Z.of_nat i * dx) (ty + Z.of_nat i * dy) = enemy) →
    cell s (tx + Z.of_nat k * dx) (ty + Z.of_nat k * dy) ≠ enemy →
    (k < fuel)%nat →
    skip_enemy fuel s enemy dx dy tx ty = Ok (tx + Z.of_nat k * dx, ty + Z.of_nat k * dy).
Proof.
  intros Hok. induction k as [|k IH]; intros fuel tx ty Hrun Hend Hfuel.
  - destruct fuel as [|fuel]; [lia|]. simpl.
    rewrite get_field_cell by done. simpl.
    replace (tx + Z.of_nat 0 * dx) with tx in * by lia.
    replace (ty + Z.of_nat 0 * dy) with ty in * by lia.
    by rewrite bool_decide_eq_false_2.
  - destruct fuel as [|fuel]; [lia|]. simpl.
    rewrite get_field_cell by done. simpl.
    rewrite bool_decide_eq_true_2.
    + rewrite (IH fuel (tx + dx) (ty + dy)).
      * f_equal. f_equal; lia.
      * intros i Hi. specialize (Hrun (S i) ltac:(lia)).
        rewrite <- Hrun. f_equal; lia.
      * intros Hc. apply Hend. rewrite <- Hc. f_equal; lia.
      * lia.
    + specialize (Hrun 0%nat ltac:(lia)). rewrite <- Hrun. f_equal; lia.
Qed.

Lemma run_end s enemy dx dy (N : nat) :
  ∀ tx ty,
    cell s (tx + Z.of_nat N * dx) (ty + Z.of_nat N * dy) ≠ enemy →
    ∃ k : nat, (k ≤ N)%nat ∧
      (∀ i : nat, (i < k)%nat → cell s (tx + Z.of_nat i * dx) (ty + Z.of_nat i * dy) = enemy) ∧
      cell s (tx + Z.of_nat k * dx) (ty + Z.of_nat k * dy) ≠ enemy.
Proof.
  induction N as [|N IH]; intros tx ty Hend.
  - exists 0%nat. split; [lia|]. split; [intros; lia | done].
  - destruct (decide (cell s tx ty = enemy)) as [He | Hne].
    + destruct (IH (tx + dx) (ty + dy)) as (k & Hk & Hrun & Hstop).
      { intros Hc. apply Hend. rewrite <- Hc. f_equal; lia. }
      exists (S k). split; [lia|]. split.
      * intros i Hi. destruct i as [|i].
        -- rewrite <- He. f_equal; lia.
        -- rewrite <- (Hrun i ltac:(lia)). f_equal; lia.
      * intros Hc. apply Hstop. rewrite <- Hc. f_equal; lia.
    + exists 0%nat. split; [lia|]. split; [intros; lia|].
      intros Hc. apply Hne. rewrite <- Hc. f_equal; lia.
Qed.

Lemma far_off_board s x y dx dy d :
  on_board s x y → (dx, dy, d) ∈ scan_dirs →
  cell s (x + dx + dx + Z.of_nat (Z.to_nat (Z.max (W s) (H s))) * dx)
         (y + dy + dy + Z.of_nat (Z.to_nat (Z.max (W s) (H s))) * dy) = 9.
Proof.
  intros [Hx Hy] Hd. apply cell_off_board. unfold on_board.
  dir_cases Hd; lia.
Qed.

Lemma outflanks_cell s my en x y dx dy :
  board_ok s →
  outflanks s my en x y dx dy ↔
  ∃ n : Z, 1 ≤ n ∧
    (∀ i, 1 ≤ i ≤ n → cell s (x + i * dx) (y + i * dy) = en) ∧
    cell s (x + (n + 1) * dx) (y + (n + 1) * dy) = my.
Proof.
  intros Hok. unfold outflanks. split; intros (n & Hn & Hrun & Hend); exists n.
  - split; [done|]. split.
    + intros i Hi. specialize (Hrun i Hi). rewrite get_field_cell in Hrun by done. congruence.
    + rewrite get_field_cell in Hend by done. congruence.
  - split; [done|]. split.
    + intros i Hi. rewrite get_field_cell by done. f_equal. auto.
    + rewrite get_field_cell by done. f_equal. auto.
Qed.

Lemma scan_dir_spec fuel s p x y dl dx dy d :
  board_ok s → (loop_bound s ≤ fuel)%nat → on_board s x y →
  (dx, dy, d) ∈ scan_dirs →
  (outflanks s (color_of p) (- color_of p) x y dx dy ∧
   scan_dir fuel s (color_of p) (- color_of p) x y dl (dx, dy, d)
     = append_at dl (pos s x y) d)
  ∨ (¬ outflanks s (color_of p) (- color_of p) x y dx dy ∧
     scan_dir fuel s (color_of p) (- color_of p) x y dl (dx, dy, d) = Ok dl).
Proof.
  intros Hok Hfuel Hxy Hd.
  assert (Hcol : color_of p = 1 ∨ color_of p = -1)
    by (destruct (color_of_cases p) as [[_ ->] | [_ ->]]; auto).
  set (my := color_of p) in *. set (en := - my) in *.
  rewrite outflanks_cell by done.
  unfold scan_dir. rewrite get_field_cell by done. rewrite bind_Ok.
  destruct (decide (cell s (x + dx) (y + dy) = en)) as [Hadj | Hadj].
  - rewrite bool_decide_eq_false_2 by (intros Hc; by apply Hc).
    destruct (run_end s en dx dy (Z.to_nat (Z.max (W s) (H s))) (x + dx + dx) (y + dy + dy))
      as (k & Hk & Hrun & Hstop).
    { rewrite (far_off_board s x y dx dy d) by done. subst en. lia. }
    rewrite (skip_enemy_run s en dx dy k Hok fuel _ _ Hrun Hstop)
      by (unfold loop_bound in Hfuel; lia).
    rewrite bind_Ok. rewrite get_field_cell by done. rewrite bind_Ok.
    destruct (decide (cell s (x + dx + dx + Z.of_nat k * dx) (y + dy + dy + Z.of_nat k * dy) = my))
      as [Hmy | Hmy].
    + left. rewrite bool_decide_eq_true_2 by done. split; [|done].
      exists (Z.of_nat k + 1). split; [lia|]. split.
      * intros i Hi. destruct (decide (i = 1)) as [-> | Hi1].
        -- rewrite <- Hadj. f_equal; lia.
        -- rewrite <- (Hrun (Z.to_nat (i - 2)) ltac:(lia)).
           rewrite Z2Nat.id by lia. f_equal; ring.
      * rewrite <- Hmy. f_equal; ring.
    + right. rewrite bool_decide_eq_false_2 by done. split; [|done].
      intros (n & Hn & Hrun' & Hend').
      destruct (Z.lt_trichotomy (n + 1) (Z.of_nat k + 2)) as [Hlt | [Heq | Hgt]].
      * specialize (Hrun (Z.to_nat (n - 1)) ltac:(lia)).
        rewrite Z2Nat.id in Hrun by lia.
        replace (x + dx + dx + (n - 1) * dx) with (x + (n + 1) * dx) in Hrun by ring.
        replace (y + dy + dy + (n - 1) * dy) with (y + (n + 1) * dy) in Hrun by ring.
        subst en. lia.
      * apply Hmy. rewrite <- Hend'. replace n with (Z.of_nat k + 1) by lia. f_equal; ring.
      * apply Hstop. rewrite <- (Hrun' (Z.of_nat k + 2) ltac:(lia)). f_equal; ring.
  - right. rewrite bool_decide_eq_true_2 by done. split; [|done].
    intros (n & Hn & Hrun' & Hend'). apply Hadj.
    rewrite <- (Hrun' 1 ltac:(lia)). f_equal; lia.
Qed.

Lemma for_each_cons {A S : Type} (a : A) (l : list A) (body : S → A → res S) (st : S) :
  for_each (a :: l) body st = (body st a ≫= for_each l body).
Proof. reflexivity. Qed.

Lemma append_at_in_range (dl : list (list Z)) (i d : Z) (L : list Z) :
  0 ≤ i → dl !! Z.to_nat i = Some L →
  append_at dl i d = Ok (<[Z.to_nat i := L ++ [d]]> dl).
Proof.
  intros Hi Hl. unfold append_at.
  rewrite (py_get_in_range dl i L) by done. rewrite bind_Ok.
  apply py_set_in_range. apply lookup_lt_Some in Hl. lia.
Qed.

Lemma scan_dirs_fold fuel s p x y (ds : list (Z * Z * Z)) :
  board_ok s → (loop_bound s ≤ fuel)%nat → on_board s x y →
  (∀ t, t ∈ ds → t ∈ scan_dirs) →
  ∀ dl L0, dl !! Z.to_nat (pos s x y) = Some L0 →
  ∃ L, for_each ds (scan_dir fuel s (color_of p) (- color_of p) x y) dl
         = Ok (<[Z.to_nat (pos s x y) := L]> dl) ∧
       ∀ d, d ∈ L ↔ d ∈ L0 ∨
                    ∃ dx dy, (dx, dy, d) ∈ ds ∧
                             outflanks s (color_of p) (- color_of p) x y dx dy.
Proof.
  intros Hok Hfuel Hxy.
  assert (Hpos : 0 ≤ pos s x y)
    by (destruct Hxy; pose proof (pos_in_range (W s) (H s) x y); unfold pos; lia).
  induction ds as [|[[dx dy] d] ds IH]; intros Hsub dl L0 Hl.
  - exists L0. simpl. split.
    + by rewrite list_insert_id.
    + intros d. split; [auto|]. intros [Hd | (dx & dy & Hd & _)]; [done|].
      by apply elem_of_nil in Hd.
  - rewrite for_each_cons.
    assert (Hin : (dx, dy, d) ∈ scan_dirs) by (apply Hsub; left).
    assert (Hsub' : ∀ t, t ∈ ds → t ∈ scan_dirs) by (intros t Ht; apply Hsub; by right).
    destruct (scan_dir_spec fuel s p x y dl dx dy d Hok Hfuel Hxy Hin)
      as [[Hout ->] | [Hout ->]].
    + rewrite (append_at_in_range dl _ d L0) by done. rewrite bind_Ok.
      destruct (IH Hsub' (<[Z.to_nat (pos s x y) := L0 ++ [d]]> dl) (L0 ++ [d]))
        as (L & HL & Hmem).
      { apply list_lookup_insert_eq. by apply lookup_lt_Some in Hl. }
      exists L. split.
      * rewrite HL. by rewrite list_insert_insert_eq.
      * intros d'. rewrite Hmem. rewrite elem_of_app, list_elem_of_singleton.
        split.
        -- intros [[Hd | ->] | (dx' & dy' & Hd & Ho)]; [by left | ..].
           ++ right. exists dx, dy. split; [left | done].
           ++ right. exists dx', dy'. split; [by right | done].
        -- intros [Hd | (dx' & dy' & Hd & Ho)]; [by left; left |].
           apply elem_of_cons in Hd as [Heq | Hd].
           ++ injection Heq as -> -> ->. left; by right.
           ++ right. by exists dx', dy'.
    + rewrite bind_Ok.
      destruct (IH Hsub' dl L0 Hl) as (L & HL & Hmem).
      exists L. split; [done|].
      intros d'. rewrite Hmem. split.
      * intros [Hd | (dx' & dy' & Hd & Ho)]; [by left |].
        right. exists dx', dy'. split; [by right | done].
      * intros [Hd | (dx' & dy' & Hd & Ho)]; [by left |].
        apply elem_of_cons in Hd as [Heq | Hd].
        -- injection Heq as -> -> ->. done.
        -- right. by exists dx', dy'.
Qed.

Lemma scan_cell_spec fuel s p x y dl :
  board_ok s → (loop_bound s ≤ fuel)%nat → on_board s x y →
  dl !! Z.to_nat (pos s x y) = Some [] →
  ∃ L, scan_cell fuel s (color_of p) (- color_of p) y dl x
         = Ok (<[Z.to_nat (pos s x y) := L]> dl) ∧
       cell_dirs_ok s p x y L.
Proof.
  intros Hok Hfuel Hxy Hl. unfold scan_cell, cell_dirs_ok.
  rewrite get_field_cell by done. rewrite bind_Ok.
  case_bool_decide as Hc.
  - exists []. split; [by rewrite list_insert_id|].
    split; [done|]. intros Hz. congruence.
  - destruct (scan_dirs_fold fuel s p x y scan_dirs Hok Hfuel Hxy ltac:(done) dl [] Hl)
      as (L & HL & Hmem).
    exists L. split; [done|]. split.
    + intros Hz. congruence.
    + intros _ d. rewrite Hmem. unfold movable. split.
      * intros [Hd | Hd]; [by apply elem_of_nil in Hd | done].
      * auto.
Qed.

Lemma for_each_range_inv {St : Type} (body : St → Z → res St) (I : Z → St → Prop) (n : Z) :
  0 ≤ n →
  (∀ i st, 0 ≤ i < n → I i st → ∃ st', body st i = Ok st' ∧ I (i + 1) st') →
  ∀ st, I 0 st → ∃ st', for_each (range n) body st = Ok st' ∧ I n st'.
Proof.
  intros Hn Hstep. unfold range.
  assert (Hgen : ∀ len start st,
             Z.of_nat start + Z.of_nat len = n → I (Z.of_nat start) st →
             ∃ st', for_each (Z.of_nat <$> seq start len) body st = Ok st' ∧ I n st').
  { induction len as [|len IH]; intros start st Hsum Hst.
    - exists st. simpl. split; [done|]. by replace n with (Z.of_nat start) by lia.
    - simpl. destruct (Hstep (Z.of_nat start) st ltac:(lia) Hst) as (st1 & -> & Hst1).
      rewrite bind_Ok. apply IH; [lia|].
      by replace (Z.of_nat (S start)) with (Z.of_nat start + 1) by lia. }
  intros st Hst. apply (Hgen (Z.to_nat n) 0%nat st); [lia | done].
Qed.

Lemma pos_inj w x y x' y' :
  0 ≤ x < w → 0 ≤ x' < w → w * y + x = w * y' + x' → x = x' ∧ y = y'.
Proof.
  intros Hx Hx' Heq.
  destruct (Z.lt_trichotomy y y') as [Hlt | [-> | Hgt]]; [| lia |].
  - assert (w * (y + 1) ≤ w * y') by (apply Z.mul_le_mono_nonneg_l; lia). lia.
  - assert (w * (y' + 1) ≤ w * y) by (apply Z.mul_le_mono_nonneg_l; lia). lia.
Qed.

Lemma calc_movable_dirs_total fuel s p :
  board_ok s → (loop_bound s ≤ fuel)%nat →
  ∃ dl, _calc_movable_dirs fuel s p = Ok dl ∧ dirs_spec s p dl.
Proof.
  intros Hok Hfuel. pose proof Hok as (HW & HH & Hlen).
  unfold _calc_movable_dirs.
  set (my := color_of p). set (en := - my).
  set (processed := λ (y x y' x' : Z), y' < y ∨ (y' = y ∧ x' < x)).
  set (Inv := λ (y x : Z) (dl : list (list Z)),
         length dl = Z.to_nat (W s * H s) ∧
         ∀ x' y', 0 ≤ x' < W s → 0 ≤ y' < H s →
           ∃ L, dl !! Z.to_nat (pos s x' y') = Some L ∧
                (processed y x y' x' → cell_dirs_ok s p x' y' L) ∧
                (¬ processed y x y' x' → L = [])).
  destruct (for_each_range_inv
              (λ dirs_list y,
                 for_each (range (W s)) (scan_cell fuel s my en y) dirs_list)
              (λ y dl, Inv y 0 dl) (H s) HH) with (st := replicate (Z.to_nat (W s * H s)) ([] : list Z))
    as (dl & Hdl & HInv).
  - intros y dl Hy HI.
    destruct (for_each_range_inv (scan_cell fuel s my en y) (λ x dl, Inv y x dl) (W s) HW)
      with (st := dl) as (dl' & Hdl' & HInv'); [ | done | ].
    + intros x dl0 Hx [Hlen0 HI0].
      destruct (HI0 x y Hx Hy) as (L0 & HL0 & _ & Hnot).
      rewrite Hnot in HL0 by (unfold processed; lia).
      destruct (scan_cell_spec fuel s p x y dl0 Hok Hfuel ltac:(done) HL0) as (L & HL & HLok).
      eexists. split; [exact HL|]. split; [by rewrite length_insert|].
      intros x' y' Hx' Hy'.
      destruct (decide (x' = x ∧ y' = y)) as [[-> ->] | Hne].
      * exists L. split; [apply list_lookup_insert_eq; by apply lookup_lt_Some in HL0|].
        split; [done|]. intros Hn. exfalso. apply Hn. unfold processed. lia.
      * destruct (HI0 x' y' Hx' Hy') as (L' & HL' & Hp & Hnp).
        exists L'. split.
        -- rewrite list_lookup_insert_ne; [done|].
           intros Heq. apply Hne.
           pose proof (pos_in_range (W s) (H s) x y Hx Hy).
           pose proof (pos_in_range (W s) (H s) x' y' Hx' Hy').
           unfold pos in *.
           apply (pos_inj (W s) x' y' x y); [done | done | lia].
        -- unfold processed in *. split; intros Hq; [apply Hp | apply Hnp]; lia.
    + exists dl'. split; [done|]. destruct HInv' as [Hlen' HI'].
      split; [done|]. intros x' y' Hx' Hy'.
      destruct (HI' x' y' Hx' Hy') as (L' & HL' & Hp & Hnp).
      exists L'. split; [done|]. unfold processed in *.
      split; intros Hq; [apply Hp | apply Hnp]; lia.
  - split; [by rewrite length_replicate|].
    intros x' y' Hx' Hy'. exists []. split.
    + apply lookup_replicate_2. pose proof (pos_in_range (W s) (H s) x' y' Hx' Hy').
      unfold pos. lia.
    + split; [unfold processed; lia | done].
  - exists dl. split; [done|]. destruct HInv as [Hlen' HI']. split; [done|].
    intros x y Hx Hy. destruct (HI' x y Hx Hy) as (L & HL & Hp & _).
    exists L. split; [done|]. apply Hp. unfold processed. lia.
Qed.

(** ** More fuel never changes a result *)

Lemma for_each_ext_ok {A St : Type} (body body' : St → A → res St) (l : list A) :
  (∀ st a r, body st a = Ok r → body' st a = Ok r) →
  ∀ st r, for_each l body st = Ok r → for_each l body' st = Ok r.
Proof.
  intros Hb. induction l as [|a l IH]; intros st r Hr; [done|].
  rewrite for_each_cons in *. bind_inv Hr st1 Hst1.
  rewrite (Hb _ _ _ Hst1). rewrite bind_Ok. by apply IH.
Qed.

Lemma skip_enemy_mono fuel fuel' s en dx dy tx ty r :
  (fuel ≤ fuel')%nat →
  skip_enemy fuel s en dx dy tx ty = Ok r → skip_enemy fuel' s en dx dy tx ty = Ok r.
Proof.
  revert fuel' tx ty. induction fuel as [|fuel IH]; intros fuel' tx ty Hle Hr; [done|].
  destruct fuel' as [|fuel']; [lia|]. simpl in *.
  bind_inv Hr v Hv. rewrite Hv, bind_Ok.
  case_bool_decide; [apply IH; [lia | done] | done].
Qed.

Lemma scan_dir_mono fuel fuel' s my en x y dl d r :
  (fuel ≤ fuel')%nat →
  scan_dir fuel s my en x y dl d = Ok r → scan_dir fuel' s my en x y dl d = Ok r.
Proof.
  intros Hle. destruct d as [[dx dy] d]. unfold scan_dir. intros Hr.
  bind_inv Hr v Hv. rewrite Hv, bind_Ok.
  case_bool_decide; [done|].
  bind_inv Hr e He. rewrite (skip_enemy_mono _ _ _ _ _ _ _ _ _ Hle He). by rewrite bind_Ok.
Qed.

Lemma scan_cell_mono fuel fuel' s my en y dl x r :
  (fuel ≤ fuel')%nat →
  scan_cell fuel s my en y dl x = Ok r → scan_cell fuel' s my en y dl x = Ok r.
Proof.
  intros Hle. unfold scan_cell. intros Hr.
  bind_inv Hr v Hv. rewrite Hv, bind_Ok.
  case_bool_decide; [done|].
  revert Hr. apply for_each_ext_ok. intros st a r'. by apply scan_dir_mono.
Qed.

Lemma calc_movable_dirs_mono fuel fuel' s p r :
  (fuel ≤ fuel')%nat →
  _calc_movable_dirs fuel s p = Ok r → _calc_movable_dirs fuel' s p = Ok r.
Proof.
  intros Hle. unfold _calc_movable_dirs.
  apply for_each_ext_ok. intros st y r'.
  apply for_each_ext_ok. intros st' x r''. by apply scan_cell_mono.
Qed.

Lemma calc_movable_dirs_sound fuel s p dl :
  board_ok s → _calc_movable_dirs fuel s p = Ok dl → dirs_spec s p dl.
Proof.
  intros Hok Hdl.
  set (big := Nat.max fuel (loop_bound s)).
  destruct (calc_movable_dirs_total big s p Hok ltac:(lia)) as (dl' & Hdl' & Hspec).
  rewrite (calc_movable_dirs_mono fuel big s p dl ltac:(lia) Hdl) in Hdl'.
  by injection Hdl' as ->.
Qed.

(** ** Legal and illegal cells *)

Lemma filter_res_ok {A : Type} (keep : A → res bool) (P : A → Prop)
    `{∀ a, Decision (P a)} (l : list A) :
  (∀ a, a ∈ l → keep a = Ok (bool_decide (P a))) →
  filter_res keep l = Ok (filter P l).
Proof.
  induction l as [|a l IH]; intros Hk; [done|].
  simpl. rewrite (Hk a) by left. rewrite bind_Ok.
  rewrite IH by (intros a' Ha'; apply Hk; by right). rewrite bind_Ok.
  rewrite filter_cons. case_bool_decide; by destruct (decide (P a)).
Qed.

Lemma elem_of_range (n a : Z) : a ∈ range n ↔ 0 ≤ a < n.
Proof.
  unfold range. rewrite list_elem_of_fmap. split.
  - intros (k & -> & Hk). apply elem_of_seq in Hk. lia.
  - intros Ha. exists (Z.to_nat a). split; [lia|]. apply elem_of_seq. lia.
Qed.

Lemma get_invalid_actions_spec (e : env) (p : Z) (dl : list (list Z)) :
  py_get (movable_dirs e) p = Ok dl →
  length dl = Z.to_nat (W e * H e) →
  get_invalid_actions e p
    = Ok (filter (λ a, dl !! Z.to_nat a = Some []) (range (H e * W e))).
Proof.
  intros Hp Hlen. unfold get_invalid_actions.
  apply filter_res_ok. intros a Ha. apply elem_of_range in Ha.
  rewrite Hp, bind_Ok.
  assert (Hlt : (Z.to_nat a < length dl)%nat) by lia.
  apply lookup_lt_is_Some_2 in Hlt as [L HL].
  rewrite (py_get_in_range dl a L) by (done || lia). rewrite bind_Ok. f_equal.
  rewrite HL. destruct L.
  - by rewrite !bool_decide_eq_true_2 by done.
  - by rewrite !bool_decide_eq_false_2 by done.
Qed.

(** C1: for every board and player the direction map gives each
    occupied cell the empty direction set, and gives an empty cell the
    direction [d] exactly when the neighbour in that direction holds the
    opponent's color and the cells beyond it, after zero or more further
    opponent stones, reach a stone of the mover (a cell of the board, not
    an empty one); the cells that count as legal placements, those not
    listed by [get_invalid_actions], are the ones whose direction set is
    not empty. *)
Theorem calc_movable_dirs_correct (fuel : nat) (s : env) (p : Z) :
  board_ok s → (loop_bound s ≤ fuel)%nat →
  ∃ dirs_list,
    _calc_movable_dirs fuel s p = Ok dirs_list ∧
    (∀ x y, 0 ≤ x < W s → 0 ≤ y < H s →
       ∃ dirs, py_get dirs_list (pos s x y) = Ok dirs ∧
         (get_field s x y ≠ Ok 0 → dirs = []) ∧
         (get_field s x y = Ok 0 → ∀ d, d ∈ dirs ↔ movable s p x y d)) ∧
    (∀ e q, W e = W s → H e = H s → py_get (movable_dirs e) q = Ok dirs_list →
       ∃ invalid, get_invalid_actions e q = Ok invalid ∧
         ∀ x y, 0 ≤ x < W s → 0 ≤ y < H s →
           (pos s x y ∉ invalid ↔
            ∃ dirs, py_get dirs_list (pos s x y) = Ok dirs ∧ dirs ≠ [])).
Proof.
  intros Hok Hfuel.
  destruct (calc_movable_dirs_total fuel s p Hok Hfuel) as (dl & Hdl & Hlen & Hspec).
  exists dl. split; [done|]. split.
  - intros x y Hx Hy. destruct (Hspec x y Hx Hy) as (L & HL & HLok).
    exists L. split; [|done].
    apply py_get_in_range; [|done].
    pose proof (pos_in_range (W s) (Othello.H s) x y Hx Hy). unfold pos. lia.
  - intros e q HWe HHe Hq.
    rewrite (get_invalid_actions_spec e q dl Hq) by (by rewrite HWe, HHe).
    eexists. split; [reflexivity|]. intros x y Hx Hy.
    destruct (Hspec x y Hx Hy) as (L & HL & _).
    pose proof (pos_in_range (W s) (Othello.H s) x y Hx Hy) as Hpos.
    assert (Hp0 : 0 ≤ pos s x y) by (unfold pos; lia).
    rewrite (py_get_in_range dl _ L Hp0 HL).
    rewrite list_elem_of_filter, elem_of_range, HL, HWe, HHe.
    split.
    + intros Hn. exists L. split; [done|]. intros ->. apply Hn.
      split; [done|]. unfold pos. lia.
    + intros (L' & HL' & Hne) [Hnil _]. congruence.
Qed.

Lemma calc_movable_dirs_correct_witness :
  ∃ dirs_list,
    _calc_movable_dirs 9 opening8x8 0 = Ok dirs_list ∧
    (∀ x y, 0 ≤ x < W opening8x8 → 0 ≤ y < H opening8x8 →
       ∃ dirs, py_get dirs_list (pos opening8x8 x y) = Ok dirs ∧
         (get_field opening8x8 x y ≠ Ok 0 → dirs = []) ∧
         (get_field opening8x8 x y = Ok 0 → ∀ d, d ∈ dirs ↔ movable opening8x8 0 x y d)) ∧
    (∀ e q, W e = W opening8x8 → H e = H opening8x8 →
       py_get (movable_dirs e) q = Ok dirs_list →
       ∃ invalid, get_invalid_actions e q = Ok invalid ∧
         ∀ x y, 0 ≤ x < W opening8x8 → 0 ≤ y < H opening8x8 →
           (pos opening8x8 x y ∉ invalid ↔
            ∃ dirs, py_get dirs_list (pos opening8x8 x y) = Ok dirs ∧ dirs ≠ [])).
Proof.
  apply (calc_movable_dirs_correct 9 opening8x8 0).
  - unfold board_ok. simpl. repeat split; lia.
  - unfold loop_bound. simpl. lia.
Defined.

(** ** Counting stones *)

Lemma filter_length_insert {A : Type} (P : A → Prop) `{∀ a, Decision (P a)}
    (l : list A) (k : nat) (old new : A) :
  l !! k = Some old →
  (length (filter P (<[k := new]> l)) + (if decide (P old) then 1 else 0)
   = length (filter P l) + (if decide (P new) then 1 else 0))%nat.
Proof.
  revert k. induction l as [|a l IH]; intros k Hk; [done|].
  destruct k as [|k]; simpl in *.
  - injection Hk as ->. rewrite !filter_cons.
    destruct (decide (P old)), (decide (P new)); simpl; lia.
  - specialize (IH k Hk). rewrite !filter_cons.
    destruct (decide (P a)); simpl; lia.
Qed.

Lemma count_eq_insert (v : Z) (l : list Z) (k : nat) (old new : Z) :
  l !! k = Some old →
  count_eq v (<[k := new]> l) + (if decide (old = v) then 1 else 0)
  = count_eq v l + (if decide (new = v) then 1 else 0).
Proof.
  intros Hk. unfold count_eq.
  pose proof (filter_length_insert (λ f, f = v) l k old new Hk) as Hf.
  destruct (decide (old = v)), (decide (new = v)); lia.
Qed.

Lemma count_nonempty_insert (l : list Z) (k : nat) (old new : Z) :
  l !! k = Some old →
  count_nonempty (<[k := new]> l) + (if decide (old ≠ 0) then 1 else 0)
  = count_nonempty l + (if decide (new ≠ 0) then 1 else 0).
Proof.
  intros Hk. unfold count_nonempty.
  pose proof (filter_length_insert (λ f, f ≠ 0) l k old new Hk) as Hf.
  destruct (decide (old ≠ 0)), (decide (new ≠ 0)); lia.
Qed.

Lemma filter_replicate_none {A : Type} (P : A → Prop) `{∀ a, Decision (P a)}
    (n : nat) (a : A) : ¬ P a → filter P (replicate n a) = [].
Proof.
  intros Hn. induction n as [|n IH]; [done|].
  simpl. rewrite filter_cons. by destruct (decide (P a)).
Qed.

(** The list left by the four [set_field] calls of [call_reset]. *)
Lemma four_stones (N n1 n2 n3 n4 : nat) :
  (n1 < N)%nat → (n2 < N)%nat → (n3 < N)%nat → (n4 < N)%nat →
  n1 ≠ n2 → n1 ≠ n3 → n1 ≠ n4 → n2 ≠ n3 → n2 ≠ n4 → n3 ≠ n4 →
  let l := <[n4 := -1]> (<[n3 := -1]> (<[n2 := 1]> (<[n1 := 1]> (replicate N 0)))) in
  l !! n1 = Some 1 ∧ l !! n2 = Some 1 ∧ l !! n3 = Some (-1) ∧ l !! n4 = Some (-1) ∧
  (∀ k, (k < N)%nat → k ≠ n1 → k ≠ n2 → k ≠ n3 → k ≠ n4 → l !! k = Some 0) ∧
  count_eq 1 l = 2 ∧ count_eq (-1) l = 2 ∧ count_nonempty l = 4.
Proof.
  intros H1 H2 H3 H4 H12 H13 H14 H23 H24 H34 l.
  set (l0 := replicate N 0).
  set (l1 := <[n1 := 1]> l0). set (l2 := <[n2 := 1]> l1). set (l3 := <[n3 := -1]> l2).
  assert (Hl0 : ∀ k, (k < N)%nat → l0 !! k = Some 0)
    by (intros k Hk; by apply lookup_replicate_2).
  assert (Hlen0 : length l0 = N) by apply length_replicate.
  assert (Hlen1 : length l1 = N) by (unfold l1; by rewrite length_insert).
  assert (Hlen2 : length l2 = N) by (unfold l2; by rewrite length_insert).
  assert (Hlen3 : length l3 = N) by (unfold l3; by rewrite length_insert).
  assert (Hget : ∀ k, l !! k =
            if decide (k = n4) then (if decide (k < N)%nat then Some (-1) else None)
            else if decide (k = n3) then Some (-1)
            else if decide (k = n2) then Some 1
            else if decide (k = n1) then Some 1
            else l0 !! k).
  { intros k. unfold l. fold l0 l1 l2 l3.
    destruct (decide (k = n4)) as [-> | ?].
    { rewrite decide_True by done. apply list_lookup_insert_eq. lia. }
    rewrite list_lookup_insert_ne by done.
    destruct (decide (k = n3)) as [-> | ?].
    { unfold l3. apply list_lookup_insert_eq. lia. }
    unfold l3. rewrite list_lookup_insert_ne by done.
    destruct (decide (k = n2)) as [-> | ?].
    { unfold l2. apply list_lookup_insert_eq. lia. }
    unfold l2. rewrite list_lookup_insert_ne by done.
    destruct (decide (k = n1)) as [-> | ?].
    { unfold l1. apply list_lookup_insert_eq. lia. }
    unfold l1. by rewrite list_lookup_insert_ne by done. }
  assert (L0 : l0 !! n1 = Some 0) by (by apply Hl0).
  assert (L1 : l1 !! n2 = Some 0)
    by (unfold l1; rewrite list_lookup_insert_ne by done; by apply Hl0).
  assert (L2 : l2 !! n3 = Some 0)
    by (unfold l2, l1; rewrite !list_lookup_insert_ne by done; by apply Hl0).
  assert (L3 : l3 !! n4 = Some 0)
    by (unfold l3, l2, l1; rewrite !list_lookup_insert_ne by done; by apply Hl0).
  repeat split.
  - rewrite Hget. by repeat (rewrite decide_False by done); rewrite decide_True.
  - rewrite Hget. by repeat (rewrite decide_False by done); rewrite decide_True.
  - rewrite Hget. by repeat (rewrite decide_False by done); rewrite decide_True.
  - rewrite Hget. by rewrite !decide_True.
  - intros k Hk ? ? ? ?. rewrite Hget. repeat (rewrite decide_False by done). by apply Hl0.
  - pose proof (count_eq_insert 1 l3 n4 0 (-1) L3) as E4.
    pose proof (count_eq_insert 1 l2 n3 0 (-1) L2) as E3.
    pose proof (count_eq_insert 1 l1 n2 0 1 L1) as E2.
    pose proof (count_eq_insert 1 l0 n1 0 1 L0) as E1.
    change (<[n4:=-1]> l3) with l in E4. change (<[n3:=-1]> l2) with l3 in E3.
    change (<[n2:=1]> l1) with l2 in E2. change (<[n1:=1]> l0) with l1 in E1.
    assert (count_eq 1 l0 = 0)
      by (unfold count_eq, l0; by rewrite filter_replicate_none).
    clear Hget Hl0 L0 L1 L2 L3 Hlen0 Hlen1 Hlen2 Hlen3. clearbody l l0 l1 l2 l3.
    repeat case_decide; lia.
  - pose proof (count_eq_insert (-1) l3 n4 0 (-1) L3) as E4.
    pose proof (count_eq_insert (-1) l2 n3 0 (-1) L2) as E3.
    pose proof (count_eq_insert (-1) l1 n2 0 1 L1) as E2.
    pose proof (count_eq_insert (-1) l0 n1 0 1 L0) as E1.
    change (<[n4:=-1]> l3) with l in E4. change (<[n3:=-1]> l2) with l3 in E3.
    change (<[n2:=1]> l1) with l2 in E2. change (<[n1:=1]> l0) with l1 in E1.
    assert (count_eq (-1) l0 = 0)
      by (unfold count_eq, l0; by rewrite filter_replicate_none).
    clear Hget Hl0 L0 L1 L2 L3 Hlen0 Hlen1 Hlen2 Hlen3. clearbody l l0 l1 l2 l3.
    repeat case_decide; lia.
  - pose proof (count_nonempty_insert l3 n4 0 (-1) L3) as E4.
    pose proof (count_nonempty_insert l2 n3 0 (-1) L2) as E3.
    pose proof (count_nonempty_insert l1 n2 0 1 L1) as E2.
    pose proof (count_nonempty_insert l0 n1 0 1 L0) as E1.
    change (<[n4:=-1]> l3) with l in E4. change (<[n3:=-1]> l2) with l3 in E3.
    change (<[n2:=1]> l1) with l2 in E2. change (<[n1:=1]> l0) with l1 in E1.
    assert (count_nonempty l0 = 0)
      by (unfold count_nonempty, l0; rewrite filter_replicate_none; [done | by intros []]).
    clear Hget Hl0 L0 L1 L2 L3 Hlen0 Hlen1 Hlen2 Hlen3. clearbody l l0 l1 l2 l3.
    repeat case_decide; lia.
Qed.


Lemma set_field_on_board (s : env) (x y n : Z) :
  board_ok s → 0 ≤ x < W s → 0 ≤ y < H s → - 2 ^ 63 ≤ n < 2 ^ 63 →
  set_field s x y n = Ok (with_field s (<[Z.to_nat (pos s x y) := n]> (field s))).
Proof.
  intros (HW & HH & Hlen) Hx Hy Hn. unfold set_field, pos.
  pose proof (pos_in_range (W s) (H s) x y Hx Hy).
  rewrite np_set_py_set by done. rewrite py_set_in_range by lia. reflexivity.
Qed.

Lemma board_ok_with_field (s : env) (f : list Z) :
  board_ok s → length f = length (field s) → board_ok (with_field s f).
Proof. intros (HW & HH & Hlen) Hf. repeat split; simpl; [done | done | congruence]. Qed.


(** ** The scanner reads the dimensions and the cells only *)

Lemma for_each_ext {A St : Type} (body body' : St → A → res St) (l : list A) :
  (∀ st a, body st a = body' st a) →
  ∀ st, for_each l body st = for_each l body' st.
Proof.
  intros Hb. induction l as [|a l IH]; intros st; [done|].
  rewrite !for_each_cons, Hb. destruct (body' st a); [rewrite !bind_Ok; apply IH | done | done].
Qed.

Lemma get_field_same_board s s' x y :
  same_board s s' → get_field s' x y = get_field s x y.
Proof. intros (HW & HH & Hf). unfold get_field. by rewrite HW, HH, Hf. Qed.

Lemma skip_enemy_same_board fuel s s' en dx dy tx ty :
  same_board s s' →
  skip_enemy fuel s' en dx dy tx ty = skip_enemy fuel s en dx dy tx ty.
Proof.
  intros Hs. revert tx ty. induction fuel as [|fuel IH]; intros tx ty; [done|].
  simpl. rewrite (get_field_same_board s s') by done.
  destruct (get_field s tx ty); [rewrite !bind_Ok | done | done].
  case_bool_decide; [apply IH | done].
Qed.

Lemma scan_dir_same_board fuel s s' my en x y dl d :
  same_board s s' →
  scan_dir fuel s' my en x y dl d = scan_dir fuel s my en x y dl d.
Proof.
  intros Hs. pose proof Hs as (HW & HH & Hf). destruct d as [[dx dy] d].
  unfold scan_dir.
  rewrite (get_field_same_board s s') by done.
  destruct (get_field s (x + dx) (y + dy)); [rewrite !bind_Ok | done | done].
  case_bool_decide; [done|].
  rewrite (skip_enemy_same_board fuel s s') by done.
  destruct (skip_enemy fuel s _ dx dy _ _) as [[ex ey]| |]; [rewrite !bind_Ok | done | done].
  rewrite (get_field_same_board s s') by done. unfold pos. by rewrite HW.
Qed.

Lemma scan_cell_same_board fuel s s' my en y dl x :
  same_board s s' →
  scan_cell fuel s' my en y dl x = scan_cell fuel s my en y dl x.
Proof.
  intros Hs. unfold scan_cell.
  rewrite (get_field_same_board s s') by done.
  destruct (get_field s x y); [rewrite !bind_Ok | done | done].
  case_bool_decide; [done|].
  apply for_each_ext. intros dl' d. by apply scan_dir_same_board.
Qed.

Lemma calc_movable_dirs_same_board fuel s s' p :
  same_board s s' → _calc_movable_dirs fuel s' p = _calc_movable_dirs fuel s p.
Proof.
  intros Hs. pose proof Hs as (HW & HH & Hf). unfold _calc_movable_dirs.
  rewrite HW, HH. apply for_each_ext. intros dl y.
  apply for_each_ext. intros dl' x. by apply scan_cell_same_board.
Qed.

(** C8: on a board of even width and height, both at least 2,
    [call_reset] leaves exactly four stones, two of each color, on the
    central 2x2 block, player 0's on one diagonal and player 1's on the
    other, every other cell empty, player 0 to move, and the direction
    maps of both players computed from that board. *)
Theorem call_reset_opening (fuel : nat) (s0 : env) :
  2 ≤ W s0 → 2 ≤ H s0 → Z.even (W s0) = true → Z.even (H s0) = true →
  (loop_bound s0 ≤ fuel)%nat →
  let cx := W s0 / 2 - 1 in
  let cy := H s0 / 2 - 1 in
  ∃ s, call_reset fuel s0 = Ok (s, field s) ∧
    W s = W s0 ∧ H s = H s0 ∧
    player_index s = 0 ∧
    get_field s cx cy = Ok 1 ∧
    get_field s (cx + 1) (cy + 1) = Ok 1 ∧
    get_field s (cx + 1) cy = Ok (-1) ∧
    get_field s cx (cy + 1) = Ok (-1) ∧
    (∀ x y, 0 ≤ x < W s → 0 ≤ y < H s →
       ¬ (cx ≤ x ≤ cx + 1 ∧ cy ≤ y ≤ cy + 1) → get_field s x y = Ok 0) ∧
    count_nonempty (field s) = 4 ∧
    count_eq 1 (field s) = 2 ∧
    count_eq (-1) (field s) = 2 ∧
    ∃ d0 d1, _calc_movable_dirs fuel s 0 = Ok d0 ∧
             _calc_movable_dirs fuel s 1 = Ok d1 ∧
             movable_dirs s = [d0; d1].
Proof.
  intros HW2 HH2 HWe HHe Hfuel cx cy.
  apply Z.even_spec in HWe as [w Hw]. apply Z.even_spec in HHe as [h Hh].
  assert (Hcx : cx = w - 1)
    by (unfold cx; rewrite Hw, (Z.mul_comm 2 w), Z.div_mul by lia; done).
  assert (Hcy : cy = h - 1)
    by (unfold cy; rewrite Hh, (Z.mul_comm 2 h), Z.div_mul by lia; done).
  assert (Hqx : int_half (W s0) - 1 = cx)
    by (unfold int_half, cx; rewrite Z.quot_div_nonneg by lia; done).
  assert (Hqy : int_half (H s0) - 1 = cy)
    by (unfold int_half, cy; rewrite Z.quot_div_nonneg by lia; done).
  assert (Hn : 0 ≤ W s0 * H s0) by (apply Z.mul_nonneg_nonneg; lia).
  unfold call_reset, np_zeros.
  rewrite bool_decide_eq_false_2 by (simpl; lia). rewrite bind_Ok.
  cbn [W H with_field with_action with_player_index].
  rewrite Hqx, Hqy.
  set (N := Z.to_nat (W s0 * H s0)).
  set (e0 := with_field (with_player_index (with_action s0 0) 0) (replicate N 0)).
  assert (Hok0 : board_ok e0).
  { repeat split; simpl; [lia | lia | apply length_replicate]. }
  assert (Hx1 : 0 ≤ cx < W s0) by lia. assert (Hx2 : 0 ≤ cx + 1 < W s0) by lia.
  assert (Hy1 : 0 ≤ cy < H s0) by lia. assert (Hy2 : 0 ≤ cy + 1 < H s0) by lia.
  rewrite (set_field_on_board e0) by done. rewrite bind_Ok.
  set (e1 := with_field e0 _).
  assert (Hok1 : board_ok e1) by (apply board_ok_with_field; [done | apply length_insert]).
  rewrite (set_field_on_board e1) by done. rewrite bind_Ok.
  set (e2 := with_field e1 _).
  assert (Hok2 : board_ok e2) by (apply board_ok_with_field; [done | apply length_insert]).
  rewrite (set_field_on_board e2) by done. rewrite bind_Ok.
  set (e3 := with_field e2 _).
  assert (Hok3 : board_ok e3) by (apply board_ok_with_field; [done | apply length_insert]).
  rewrite (set_field_on_board e3) by done. rewrite bind_Ok.
  set (e4 := with_field e3 _).
  assert (Hok4 : board_ok e4) by (apply board_ok_with_field; [done | apply length_insert]).
  assert (Hf4 : (loop_bound e4 ≤ fuel)%nat) by done.
  destruct (calc_movable_dirs_total fuel e4 0 Hok4 Hf4) as (d0 & Hd0 & _).
  destruct (calc_movable_dirs_total fuel e4 1 Hok4 Hf4) as (d1 & Hd1 & _).
  rewrite Hd0, bind_Ok, Hd1, bind_Ok.
  exists (with_movable_dirs e4 [d0; d1]).
  split; [reflexivity|]. split; [reflexivity|]. split; [reflexivity|]. split; [reflexivity|].
  assert (Hok5 : board_ok (with_movable_dirs e4 [d0; d1])) by done.
  pose proof (pos_in_range (W s0) (H s0) cx cy Hx1 Hy1) as P1.
  pose proof (pos_in_range (W s0) (H s0) (cx + 1) (cy + 1) Hx2 Hy2) as P2.
  pose proof (pos_in_range (W s0) (H s0) (cx + 1) cy Hx2 Hy1) as P3.
  pose proof (pos_in_range (W s0) (H s0) cx (cy + 1) Hx1 Hy2) as P4.
  destruct (four_stones N (Z.to_nat (pos e0 cx cy)) (Z.to_nat (pos e1 (cx + 1) (cy + 1)))
              (Z.to_nat (pos e2 (cx + 1) cy)) (Z.to_nat (pos e3 cx (cy + 1))))
    as (G1 & G2 & G3 & G4 & G0 & C1 & C2 & C3);
    try (unfold pos; simpl; lia).
  assert (Hcell : ∀ x y, cell (with_movable_dirs e4 [d0; d1]) x y =
            if bool_decide (0 ≤ x < W s0 ∧ 0 ≤ y < H s0)
            then default 0 (field e4 !! Z.to_nat (W s0 * y + x)) else 9) by done.
  rewrite !get_field_cell by done. rewrite !Hcell.
  rewrite !bool_decide_eq_true_2 by lia.
  change (field e4) with
    (<[Z.to_nat (pos e3 cx (cy + 1)) := -1]>
       (<[Z.to_nat (pos e2 (cx + 1) cy) := -1]>
          (<[Z.to_nat (pos e1 (cx + 1) (cy + 1)) := 1]>
             (<[Z.to_nat (pos e0 cx cy) := 1]> (replicate N 0))))).
  change (W s0 * cy + cx) with (pos e0 cx cy).
  change (W s0 * (cy + 1) + (cx + 1)) with (pos e1 (cx + 1) (cy + 1)).
  change (W s0 * cy + (cx + 1)) with (pos e2 (cx + 1) cy).
  change (W s0 * (cy + 1) + cx) with (pos e3 cx (cy + 1)).
  rewrite G1, G2, G3, G4.
  repeat (split; [done|]).
  split; [|split; [exact C3 | split; [exact C1 | split; [exact C2 |]]]].
  2: { exists d0, d1.
       rewrite !(calc_movable_dirs_same_board fuel e4 (with_movable_dirs e4 [d0; d1]))
         by done.
       done. }
  intros x y Hx Hy Hout.
  change (0 ≤ x < W s0) in Hx. change (0 ≤ y < H s0) in Hy.
  rewrite get_field_cell by done. rewrite Hcell.
  rewrite bool_decide_eq_true_2 by done.
  pose proof (pos_in_range (W s0) (H s0) x y Hx Hy) as P.
  rewrite G0; [done | lia | ..].
  - intros Heq. apply Hout.
    destruct (pos_inj (W s0) x y cx cy); [lia | lia | unfold pos in Heq; simpl in Heq; lia | lia].
  - intros Heq. apply Hout.
    destruct (pos_inj (W s0) x y (cx + 1) (cy + 1)); [lia | lia | unfold pos in Heq; simpl in Heq; lia | lia].
  - intros Heq. apply Hout.
    destruct (pos_inj (W s0) x y (cx + 1) cy); [lia | lia | unfold pos in Heq; simpl in Heq; lia | lia].
  - intros Heq. apply Hout.
    destruct (pos_inj (W s0) x y cx (cy + 1)); [lia | lia | unfold pos in Heq; simpl in Heq; lia | lia].
Qed.

Lemma call_reset_opening_witness :
  let cx := W (fresh 8 8) / 2 - 1 in
  let cy := H (fresh 8 8) / 2 - 1 in
  ∃ s, call_reset 9 (fresh 8 8) = Ok (s, field s) ∧
    W s = W (fresh 8 8) ∧ H s = H (fresh 8 8) ∧
    player_index s = 0 ∧
    get_field s cx cy = Ok 1 ∧
    get_field s (cx + 1) (cy + 1) = Ok 1 ∧
    get_field s (cx + 1) cy = Ok (-1) ∧
    get_field s cx (cy + 1) = Ok (-1) ∧
    (∀ x y, 0 ≤ x < W s → 0 ≤ y < H s →
       ¬ (cx ≤ x ≤ cx + 1 ∧ cy ≤ y ≤ cy + 1) → get_field s x y = Ok 0) ∧
    count_nonempty (field s) = 4 ∧
    count_eq 1 (field s) = 2 ∧
    count_eq (-1) (field s) = 2 ∧
    ∃ d0 d1, _calc_movable_dirs 9 s 0 = Ok d0 ∧
             _calc_movable_dirs 9 s 1 = Ok d1 ∧
             movable_dirs s = [d0; d1].
Proof.
  apply (call_reset_opening 9 (fresh 8 8)).
  - simpl. lia.
  - simpl. lia.
  - reflexivity.
  - reflexivity.
  - unfold loop_bound. simpl. lia.
Defined.

(** ** Placing a stone *)

Lemma with_field_id (t : env) : with_field t (field t) = t.
Proof. by destruct t. Qed.

Lemma cell_with_field_insert (t : env) (x0 y0 v u w : Z) :
  board_ok t → 0 ≤ x0 < W t → 0 ≤ y0 < H t →
  cell (with_field t (<[Z.to_nat (pos t x0 y0) := v]> (field t))) u w
  = if decide (u = x0 ∧ w = y0) then v else cell t u w.
Proof.
  intros (HW & HH & Hlen) Hx Hy. unfold cell. simpl.
  pose proof (pos_in_range (W t) (H t) x0 y0 Hx Hy) as P0.
  destruct (decide (u = x0 ∧ w = y0)) as [[-> ->] | Hne].
  - rewrite bool_decide_eq_true_2 by done.
    unfold pos. rewrite list_lookup_insert_eq by lia. done.
  - case_bool_decide as Hon; [|done].
    destruct Hon as [Hu Hw].
    pose proof (pos_in_range (W t) (H t) u w Hu Hw) as P.
    rewrite list_lookup_insert_ne; [done|].
    unfold pos. intros Heq. apply Hne.
    apply (pos_inj (W t)); [done | done | lia].
Qed.

Lemma cell_on_board (t : env) (u w v : Z) :
  cell t u w = v → v ≠ 9 → 0 ≤ u < W t ∧ 0 ≤ w < H t.
Proof.
  unfold cell. case_bool_decide; [done|]. intros <-. done.
Qed.

Lemma flip_walk_spec (my en dx dy : Z) (n : nat) :
  my ≠ en → en ≠ 9 → en ≠ 0 → my ≠ 0 → - 2 ^ 63 ≤ my < 2 ^ 63 → (dx ≠ 0 ∨ dy ≠ 0) →
  ∀ fuel t tx ty,
    board_ok t →
    (∀ i : nat, (i < n)%nat → cell t (tx + Z.of_nat i * dx) (ty + Z.of_nat i * dy) = en) →
    cell t (tx + Z.of_nat n * dx) (ty + Z.of_nat n * dy) = my →
    (n < fuel)%nat →
    ∃ f, flip_walk fuel t my dx dy tx ty = Ok (with_field t f) ∧
         length f = length (field t) ∧
         count_nonempty f = count_nonempty (field t) ∧
         (∀ i : nat, (i < n)%nat →
            cell (with_field t f) (tx + Z.of_nat i * dx) (ty + Z.of_nat i * dy) = my) ∧
         (∀ u w, (∀ i : nat, (i < n)%nat →
                    ¬ (u = tx + Z.of_nat i * dx ∧ w = ty + Z.of_nat i * dy)) →
                 cell (with_field t f) u w = cell t u w).
Proof.
  intros Hme He9 He0 Hm0 Hm64 Hdir.
  induction n as [|n IH]; intros fuel t tx ty Hok Hrun Hend Hfuel.
  - destruct fuel as [|fuel]; [lia|]. simpl.
    rewrite get_field_cell by done. rewrite bind_Ok.
    replace (tx + Z.of_nat 0 * dx) with tx in Hend by lia.
    replace (ty + Z.of_nat 0 * dy) with ty in Hend by lia.
    rewrite bool_decide_eq_false_2 by (intros Hc; by apply Hc).
    exists (field t). rewrite with_field_id.
    split; [done|]. split; [done|]. split; [done|]. split; [intros; lia | done].
  - destruct fuel as [|fuel]; [lia|]. simpl.
    rewrite get_field_cell by done. rewrite bind_Ok.
    pose proof (Hrun 0%nat ltac:(lia)) as H0.
    replace (tx + Z.of_nat 0 * dx) with tx in H0 by lia.
    replace (ty + Z.of_nat 0 * dy) with ty in H0 by lia.
    rewrite bool_decide_eq_true_2 by congruence.
    destruct (cell_on_board t tx ty en H0 He9) as [Hx Hy].
    pose proof Hok as (HW & HH & Hlen).
    pose proof (pos_in_range (W t) (H t) tx ty Hx Hy) as P0.
    rewrite np_set_py_set by done.
    rewrite py_set_in_range by (unfold pos; lia). rewrite bind_Ok.
    set (t1 := with_field t (<[Z.to_nat (pos t tx ty) := my]> (field t))).
    assert (Hok1 : board_ok t1) by (apply board_ok_with_field; [done | apply length_insert]).
    assert (Hc1 : ∀ u w, cell t1 u w = if decide (u = tx ∧ w = ty) then my else cell t u w)
      by (intros; by apply cell_with_field_insert).
    destruct (IH fuel t1 (tx + dx) (ty + dy) Hok1) as (f & Hf & Hflen & Hcnt & Hmy & Hother).
    + intros i Hi. rewrite Hc1. rewrite decide_False by lia.
      rewrite <- (Hrun (S i) ltac:(lia)). f_equal; lia.
    + rewrite Hc1. rewrite decide_False by lia.
      rewrite <- Hend. f_equal; lia.
    + lia.
    + exists f. split; [exact Hf|]. split.
      { rewrite Hflen. apply length_insert. }
      split.
      { rewrite Hcnt. simpl.
        assert (Hlk : field t !! Z.to_nat (pos t tx ty) = Some en).
        { unfold cell in H0. rewrite bool_decide_eq_true_2 in H0 by done.
          unfold pos. destruct (field t !! Z.to_nat (W t * ty + tx)) as [v|] eqn:E.
          - simpl in H0. by subst.
          - apply lookup_ge_None in E. lia. }
        pose proof (count_nonempty_insert (field t) _ en my Hlk) as Hc.
        rewrite !decide_True in Hc by done. lia. }
      split.
      * intros i Hi. destruct i as [|i].
        -- change (with_field t f) with (with_field t1 f).
           rewrite Hother.
           ++ rewrite Hc1. rewrite decide_True; [done | lia].
           ++ intros j Hj. lia.
        -- change (with_field t f) with (with_field t1 f).
           rewrite <- (Hmy i ltac:(lia)). f_equal; lia.
      * intros u w Hnot. change (with_field t f) with (with_field t1 f).
        rewrite Hother.
        -- rewrite Hc1. rewrite decide_False; [done|].
           intros [-> ->]. apply (Hnot 0%nat ltac:(lia)). lia.
        -- intros j Hj Heq. apply (Hnot (S j) ltac:(lia)). lia.
Qed.

Lemma move_diff_scan_dirs dx dy d :
  (dx, dy, d) ∈ scan_dirs → move_diff d = Ok (dx, dy).
Proof. intros Hd. dir_cases Hd; reflexivity. Qed.

Lemma scan_dirs_functional dx dy dx' dy' d :
  (dx, dy, d) ∈ scan_dirs → (dx', dy', d) ∈ scan_dirs → dx' = dx ∧ dy' = dy.
Proof.
  intros Hd Hd'. apply move_diff_scan_dirs in Hd, Hd'. rewrite Hd in Hd'.
  by injection Hd' as -> ->.
Qed.

Lemma rays_disjoint dx dy d dx' dy' d' (x y i j : Z) :
  (dx, dy, d) ∈ scan_dirs → (dx', dy', d') ∈ scan_dirs → d ≠ d' →
  1 ≤ i → 1 ≤ j →
  ¬ (x + j * dx' = x + i * dx ∧ y + j * dy' = y + i * dy).
Proof.
  intros Hd Hd' Hne Hi Hj. dir_cases Hd; dir_cases Hd'; try done; lia.
Qed.

Lemma run_length_bound (t : env) (x y dx dy d v : Z) (n : Z) :
  0 ≤ x < W t → 0 ≤ y < H t → (dx, dy, d) ∈ scan_dirs → 1 ≤ n →
  cell t (x + n * dx) (y + n * dy) = v → v ≠ 9 →
  n < Z.max (W t) (H t).
Proof.
  intros Hx Hy Hd Hn Hc Hv.
  destruct (cell_on_board t _ _ v Hc Hv) as [Hu Hw].
  dir_cases Hd; lia.
Qed.

Lemma flip_dir_spec fuel (t : env) (my en x y d dx dy : Z) :
  my ≠ en → en ≠ 9 → en ≠ 0 → my ≠ 0 → - 2 ^ 63 ≤ my < 2 ^ 63 →
  board_ok t → 0 ≤ x < W t → 0 ≤ y < H t → (loop_bound t ≤ fuel)%nat →
  (dx, dy, d) ∈ scan_dirs →
  weak_ray t my en x y dx dy →
  ∃ f, flip_dir fuel my x y t d = Ok (with_field t f) ∧
       length f = length (field t) ∧
       count_nonempty f = count_nonempty (field t) ∧
       cell (with_field t f) (x + 1 * dx) (y + 1 * dy) = my ∧
       (∀ u w, (∀ i, 1 ≤ i → ¬ (u = x + i * dx ∧ w = y + i * dy)) →
               cell (with_field t f) u w = cell t u w) ∧
       (∀ u w, cell t u w = 0 → cell (with_field t f) u w = 0).
Proof.
  intros Hme He9 He0 Hm0 Hm64 Hok Hx Hy Hfuel Hd (n & Hn & Hrun & Hend).
  unfold flip_dir. rewrite (move_diff_scan_dirs dx dy d Hd), bind_Ok.
  assert (Hdir : dx ≠ 0 ∨ dy ≠ 0) by (dir_cases Hd; lia).
  assert (Hbound : (Z.to_nat n < fuel)%nat).
  { destruct (decide (n = 0)) as [-> | Hn0]; [unfold loop_bound in Hfuel; lia|].
    pose proof (run_length_bound t x y dx dy d en n Hx Hy Hd ltac:(lia)
                  (Hrun n ltac:(lia)) He9).
    unfold loop_bound in Hfuel. lia. }
  destruct (flip_walk_spec my en dx dy (Z.to_nat n) Hme He9 He0 Hm0 Hm64 Hdir
              fuel t (x + dx) (y + dy) Hok) as (f & Hf & Hlen & Hcnt & Hmy & Hother).
  - intros i Hi. rewrite <- (Hrun (Z.of_nat i + 1) ltac:(lia)). f_equal; ring.
  - rewrite Z2Nat.id by done. rewrite <- Hend. f_equal; ring.
  - done.
  - exists f. split; [done|]. split; [done|]. split; [done|]. split.
    + destruct (decide (n = 0)) as [-> | Hn0].
      * rewrite Hother by (intros i Hi; lia).
        rewrite <- Hend. f_equal; ring.
      * rewrite <- (Hmy 0%nat ltac:(lia)). f_equal; ring.
    + split.
      * intros u w Hnot. apply Hother. intros i Hi [-> ->].
        apply (Hnot (Z.of_nat i + 1) ltac:(lia)). split; ring.
      * intros u w Hz. rewrite Hother; [done|].
        intros i Hi [-> ->].
        rewrite <- (Hrun (Z.of_nat i + 1) ltac:(lia)) in He0. apply He0.
        rewrite <- Hz. f_equal; ring.
Qed.

Section FlipLoop.
Variables (fuel : nat) (s : env) (my en x y c : Z) (L : list Z).
Hypothesis Hme : my ≠ en.
Hypothesis He9 : en ≠ 9.
Hypothesis He0 : en ≠ 0.
Hypothesis Hm0 : my ≠ 0.
Hypothesis Hm64 : - 2 ^ 63 ≤ my < 2 ^ 63.
Hypothesis Hok : board_ok s.
Hypothesis Hx : 0 ≤ x < W s.
Hypothesis Hy : 0 ≤ y < H s.
Hypothesis Hfuel : (loop_bound s ≤ fuel)%nat.

Lemma flip_loop_spec (ds : list Z) :
  (∀ d, d ∈ ds → d ∈ L) →
  ∀ t, flip_inv s my en x y c L t →
  ∃ t', for_each ds (flip_dir fuel my x y) t = Ok t' ∧ flip_inv s my en x y c L t'.
Proof.
  induction ds as [|d ds IH]; intros Hsub t Hinv.
  - exists t. by split.
  - rewrite for_each_cons.
    destruct Hinv as (f & -> & Hlen & Hcnt & Horg & Hemp & Hrays).
    destruct (Hrays d ltac:(apply Hsub; left)) as (dx & dy & Hd & Hray).
    assert (Hokt : board_ok (with_field s f)) by (by apply board_ok_with_field).
    destruct (flip_dir_spec fuel (with_field s f) my en x y d dx dy
                Hme He9 He0 Hm0 Hm64 Hokt Hx Hy Hfuel Hd Hray)
      as (f' & Hf' & Hlen' & Hcnt' & Hadj & Hother & Hzero).
    rewrite Hf', bind_Ok.
    apply IH; [intros d' Hd'; apply Hsub; by right|].
    exists f'. split; [done|]. split; [simpl in Hlen'; congruence|].
    split; [simpl in Hcnt'; congruence|].
    split.
    { change (with_field (with_field s f) f') with (with_field s f') in *.
      rewrite Hother; [done|].
      intros i Hi. clear -Hd Hi. dir_cases Hd; lia. }
    split.
    { intros u w Hz Hne.
      change (with_field (with_field s f) f') with (with_field s f') in *.
      by apply Hzero, Hemp. }
    intros d' Hd'. destruct (Hrays d' Hd') as (dx' & dy' & Hdd & (n & Hn & Hrun & Hend)).
    exists dx', dy'. split; [done|].
    change (with_field (with_field s f) f') with (with_field s f') in *.
    destruct (decide (d' = d)) as [-> | Hne].
    + destruct (scan_dirs_functional dx dy dx' dy' d Hd Hdd) as [-> ->].
      exists 0. split; [lia|]. split; [intros; lia|]. exact Hadj.
    + exists n. split; [done|]. split.
      * intros i Hi. rewrite Hother; [by apply Hrun|].
        intros j Hj.
        apply (rays_disjoint dx dy d dx' dy' d' x y j i); [done | done | congruence | lia | lia].
      * rewrite Hother; [done|].
        intros j Hj.
        apply (rays_disjoint dx dy d dx' dy' d' x y j (n + 1)); [done | done | congruence | lia | lia].
Qed.
End FlipLoop.

Lemma wf_current_dirs (s : env) :
  wf s →
  ∃ dirs_p, py_get (movable_dirs s) (player_index s) = Ok dirs_p ∧
            dirs_spec s (player_index s) dirs_p.
Proof.
  intros (Hok & Hp & fuel & d0 & d1 & Hd0 & Hd1 & Hm).
  apply calc_movable_dirs_sound in Hd0, Hd1; try done.
  rewrite Hm. destruct Hp as [-> | ->]; eauto.
Qed.

Lemma decode_pos (s : env) (a : Z) :
  0 ≤ W s → 0 ≤ H s → 0 ≤ a < W s * H s →
  W s ≠ 0 ∧ 0 ≤ a `mod` W s < W s ∧ 0 ≤ a `div` W s < H s ∧
  pos s (a `mod` W s) (a `div` W s) = a.
Proof.
  intros HW HH Ha.
  assert (HW0 : 0 < W s) by (destruct (decide (W s = 0)) as [E|]; [rewrite E in Ha; lia | lia]).
  split; [lia|]. split; [by apply Z.mod_pos_bound|]. split.
  - split; [apply Z.div_pos; lia | apply Z.div_lt_upper_bound; lia].
  - unfold pos. pose proof (Z.div_mod a (W s) ltac:(lia)). lia.
Qed.

Lemma color_facts (p : Z) :
  color_of p ≠ - color_of p ∧ - color_of p ≠ 9 ∧ - color_of p ≠ 0 ∧ color_of p ≠ 0.
Proof. destruct (color_of_cases p) as [[_ ->] | [_ ->]]; lia. Qed.

Lemma color_of_int64 (p : Z) : - 2 ^ 63 ≤ color_of p < 2 ^ 63.
Proof. destruct (color_of_cases p) as [[_ ->] | [_ ->]]; lia. Qed.

(** A legal move on a well formed state: [_step] changes cells only,
    adds exactly one stone and recomputes both maps. *)
Lemma step_spec (fuel : nat) (s : env) (a : Z) :
  wf s → legal s a → (loop_bound s ≤ fuel)%nat →
  ∃ f d0 d1,
    _step fuel s a = Ok (with_movable_dirs (with_field s f) [d0; d1]) ∧
    length f = length (field s) ∧
    count_nonempty f = count_nonempty (field s) + 1 ∧
    field s !! Z.to_nat a = Some 0 ∧
    f !! Z.to_nat a = Some (color_of (player_index s)) ∧
    (∀ k, k ≠ Z.to_nat a → field s !! k = Some 0 → f !! k = Some 0) ∧
    _calc_movable_dirs fuel (with_field s f) 0 = Ok d0 ∧
    _calc_movable_dirs fuel (with_field s f) 1 = Ok d1.
Proof.
  intros Hwf (Ha & dirs_p & dirs & Hdp & Hdirs & Hne) Hfuel.
  destruct (wf_current_dirs s Hwf) as (dirs_p' & Hdp' & Hlen & Hspec).
  rewrite Hdp in Hdp'. injection Hdp' as <-.
  destruct Hwf as (Hok & Hp & _). pose proof Hok as (HW & HH & Hflen).
  destruct (decode_pos s a HW HH Ha) as (HW0 & Hx & Hy & Hpos).
  set (x := a `mod` W s) in *. set (y := a `div` W s) in *.
  set (my := color_of (player_index s)). set (en := - my).
  destruct (color_facts (player_index s)) as (Hme & He9 & He0 & Hm0).
  fold my in Hme, He9, He0, Hm0. fold en in Hme, He9, He0.
  assert (Hm64 : - 2 ^ 63 ≤ my < 2 ^ 63) by apply color_of_int64.
  destruct (Hspec x y Hx Hy) as (L & HL & Hocc & Hemp).
  rewrite Hpos in HL.
  assert (L = dirs) as ->.
  { apply py_get_in_range_inv in Hdirs; [congruence | lia]. }
  assert (Hcell : cell s x y = 0).
  { destruct (decide (cell s x y = 0)) as [|Hc]; [done|].
    exfalso. apply Hne, Hocc. rewrite get_field_cell by done. congruence. }
  specialize (Hemp ltac:(rewrite get_field_cell by done; congruence)).
  unfold _step, pos_decode. rewrite bool_decide_eq_false_2 by done. rewrite bind_Ok.
  fold x y my. rewrite np_set_py_set by done.
  rewrite py_set_in_range by (unfold action_space_n in Ha; lia). rewrite bind_Ok.
  set (s1 := with_field s (<[Z.to_nat a := my]> (field s))).
  change (movable_dirs s1) with (movable_dirs s).
  change (player_index s1) with (player_index s).
  rewrite Hdp, bind_Ok, Hdirs, bind_Ok.
  assert (Hs1 : s1 = with_field s (<[Z.to_nat (pos s x y) := my]> (field s)))
    by (by rewrite Hpos).
  assert (Hc1 : ∀ u w, cell s1 u w = if decide (u = x ∧ w = y) then my else cell s u w)
    by (intros; rewrite Hs1; by apply cell_with_field_insert).
  assert (Hlk : field s !! Z.to_nat a = Some 0).
  { unfold cell in Hcell. rewrite bool_decide_eq_true_2 in Hcell by done.
    fold (pos s x y) in Hcell. rewrite Hpos in Hcell.
    destruct (field s !! Z.to_nat a) as [v|] eqn:E.
    - simpl in Hcell. congruence.
    - apply lookup_ge_None in E. unfold action_space_n in Ha. lia. }
  destruct (flip_loop_spec fuel s my en x y (count_nonempty (field s) + 1) dirs
              Hme He9 He0 Hm0 Hm64 Hok Hx Hy Hfuel dirs ltac:(done) s1)
    as (t & Ht & f & -> & Hflen' & Hcnt & Horg & Hkeep & _).
  { exists (<[Z.to_nat a := my]> (field s)). split; [done|].
    split; [apply length_insert|]. split; [|split; [|split]].
    - pose proof (count_nonempty_insert (field s) (Z.to_nat a) 0 my Hlk) as Hc.
      rewrite decide_False in Hc by (intros Hc'; by apply Hc').
      rewrite decide_True in Hc by done. lia.
    - fold s1. rewrite Hc1. by rewrite decide_True.
    - intros u w Hz Hne'. fold s1. rewrite Hc1. by rewrite decide_False.
    - intros d Hd. apply Hemp in Hd as (dx & dy & Hd & Hout).
      exists dx, dy. split; [done|].
      apply outflanks_cell in Hout as (n & Hn & Hrun & Hend); [|done].
      exists n. split; [lia|].
      assert (Hdir : dx ≠ 0 ∨ dy ≠ 0) by (dir_cases Hd; lia).
      split.
      + intros i Hi. rewrite Hc1, decide_False by nia. by apply Hrun.
      + rewrite Hc1, decide_False by nia. done. }
  rewrite Ht, bind_Ok.
  assert (Hokf : board_ok (with_field s f)) by (by apply board_ok_with_field).
  destruct (calc_movable_dirs_total fuel (with_field s f) 0 Hokf Hfuel) as (d0 & Hd0 & _).
  destruct (calc_movable_dirs_total fuel (with_field s f) 1 Hokf Hfuel) as (d1 & Hd1 & _).
  rewrite Hd0, bind_Ok, Hd1, bind_Ok.
  exists f, d0, d1. repeat (split; [done|]). split; [|split; [|done]].
  - unfold cell in Horg. simpl in Horg. rewrite bool_decide_eq_true_2 in Horg by done.
    fold (pos s x y) in Horg. rewrite Hpos in Horg.
    destruct (f !! Z.to_nat a) as [v|]; simpl in Horg; [congruence | by subst my].
  - intros k Hk Hz.
    assert (Hkl : (k < length (field s))%nat) by (by apply lookup_lt_Some in Hz).
    assert (Hkn : 0 ≤ Z.of_nat k < W s * H s) by lia.
    destruct (decode_pos s (Z.of_nat k) HW HH Hkn) as (_ & Hu & Hw & Hpk).
    set (u := Z.of_nat k `mod` W s) in *. set (w := Z.of_nat k `div` W s) in *.
    assert (Hcs : cell s u w = 0).
    { unfold cell. rewrite bool_decide_eq_true_2 by done.
      fold (pos s u w). rewrite Hpk, Nat2Z.id, Hz. done. }
    assert (Hct : cell (with_field s f) u w = 0).
    { apply Hkeep; [done|]. intros [Eu Ew]. apply Hk.
      apply Nat2Z.inj. rewrite Z2Nat.id by lia.
      rewrite <- Hpos, <- Hpk. by rewrite Eu, Ew. }
    unfold cell in Hct. simpl in Hct. rewrite bool_decide_eq_true_2 in Hct by done.
    fold (pos s u w) in Hct. rewrite Hpk, Nat2Z.id in Hct.
    destruct (f !! k) as [v|] eqn:E; simpl in Hct; [congruence|].
    apply lookup_ge_None in E. lia.
Qed.

Lemma filter_length_all {A : Type} (P : A → Prop) `{∀ a, Decision (P a)} (l : list A) :
  length (filter P l) = length l ↔ Forall P l.
Proof.
  induction l as [|a l IH]; [split; [constructor | done]|].
  rewrite filter_cons. pose proof (length_filter P l) as Hle.
  destruct (decide (P a)) as [Hp | Hp]; simpl.
  - rewrite Forall_cons. split.
    + intros Hl. split; [done|]. apply IH. lia.
    + intros [_ Hl]. f_equal. by apply IH.
  - split; [lia|]. intros Hl. by apply Forall_cons in Hl as [? _].
Qed.

Lemma length_range (n : Z) : length (range n) = Z.to_nat n.
Proof. unfold range. by rewrite length_fmap, length_seq. Qed.

Lemma invalid_count (s : env) (p : Z) (dl : list (list Z)) :
  0 ≤ W s → 0 ≤ H s →
  py_get (movable_dirs s) p = Ok dl →
  length dl = Z.to_nat (W s * H s) →
  ∃ inv, get_invalid_actions s p = Ok inv ∧
         (action_space_n s - Z.of_nat (length inv) = 0 ↔ ¬ has_legal_cell s p).
Proof.
  intros HW HH Hp Hlen.
  rewrite (get_invalid_actions_spec s p dl Hp Hlen).
  eexists. split; [reflexivity|].
  assert (Hn : 0 ≤ W s * H s) by (by apply Z.mul_nonneg_nonneg).
  set (P := λ a : Z, dl !! Z.to_nat a = Some []).
  assert (Hall : action_space_n s - Z.of_nat (length (filter P (range (H s * W s)))) = 0
                 ↔ Forall P (range (H s * W s))).
  { pose proof (filter_length_all P (range (H s * W s))) as Hfa.
    pose proof (length_filter P (range (H s * W s))) as Hle.
    rewrite <- Hfa. rewrite length_range in *. unfold action_space_n.
    rewrite (Z.mul_comm (H s)) in *. lia. }
  rewrite Hall, Forall_forall. unfold has_legal_cell, action_space_n. split.
  - intros Hf (a & dl' & dirs & Ha & Hp' & Hd & Hne).
    rewrite Hp in Hp'. injection Hp' as <-.
    specialize (Hf a ltac:(apply elem_of_range; lia)). unfold P in Hf.
    apply py_get_in_range_inv in Hd; [congruence | lia].
  - intros Hno a Ha. apply elem_of_range in Ha. unfold P.
    assert (Hlt : (Z.to_nat a < length dl)%nat) by lia.
    apply lookup_lt_is_Some_2 in Hlt as [L HL].
    destruct L as [|d L]; [done|]. exfalso. apply Hno.
    exists a, dl, (d :: L). split; [lia|]. split; [done|].
    split; [apply py_get_in_range; [lia | done] | done].
Qed.

Lemma grown_refl (l : list Z) : grown l l.
Proof. by repeat split. Qed.

Lemma grown_trans (l1 l2 l3 : list Z) : grown l1 l2 → grown l2 l3 → grown l1 l3.
Proof.
  intros (Ha & Hb & Hc) (Ha' & Hb' & Hc'). split; [congruence|]. split; [lia | auto].
Qed.

Lemma py_index_lt (len : nat) (i : Z) (k : nat) : py_index len i = Ok k → (k < len)%nat.
Proof.
  unfold py_index. repeat case_bool_decide; intros Hk; [..|done]; injection Hk as <-; lia.
Qed.

Lemma grown_py_set (l l' : list Z) (i v : Z) :
  py_set l i v = Ok l' → v = 1 ∨ v = -1 → grown l l'.
Proof.
  unfold py_set. intros Hs Hv. bind_inv Hs k Hk. injection Hs as <-.
  apply py_index_lt in Hk. apply lookup_lt_is_Some_2 in Hk as [old Hold].
  split; [apply length_insert|]. split.
  - pose proof (count_nonempty_insert l k old v Hold) as Hc.
    rewrite (decide_True (P := v ≠ 0)) in Hc by lia.
    destruct (decide (old ≠ 0)); lia.
  - unfold cells_ok. intros Hl. apply Forall_insert; [done | lia].
Qed.


Lemma flip_walk_grown (fuel : nat) (my dx dy : Z) :
  my = 1 ∨ my = -1 →
  ∀ t tx ty t',
    flip_walk fuel t my dx dy tx ty = Ok t' →
    ∃ f, t' = with_field t f ∧ grown (field t) f.
Proof.
  intros Hmy. induction fuel as [|fuel IH]; intros t tx ty t' Hw; [done|].
  simpl in Hw. bind_inv Hw v Hv. case_bool_decide.
  - bind_inv Hw f1 Hf1. apply np_set_Ok in Hf1. apply IH in Hw as (f & -> & Hg).
    exists f. split; [done|].
    apply (grown_trans _ f1); [by apply (grown_py_set _ _ _ _ Hf1) | done].
  - injection Hw as <-. exists (field t). split; [by rewrite with_field_id | apply grown_refl].
Qed.

Lemma flip_loop_grown (fuel : nat) (my x y : Z) (ds : list Z) :
  my = 1 ∨ my = -1 →
  ∀ t t', for_each ds (flip_dir fuel my x y) t = Ok t' →
          ∃ f, t' = with_field t f ∧ grown (field t) f.
Proof.
  intros Hmy. induction ds as [|d ds IH]; intros t t' Hl.
  - injection Hl as <-. exists (field t). split; [by rewrite with_field_id | apply grown_refl].
  - rewrite for_each_cons in Hl. bind_inv Hl t1 Ht1.
    unfold flip_dir in Ht1. bind_inv Ht1 dd Hdd. destruct dd as [dx dy].
    apply (flip_walk_grown fuel my dx dy Hmy) in Ht1 as (f1 & -> & Hg1).
    apply IH in Hl as (f & -> & Hg).
    exists f. split; [done|]. by apply (grown_trans _ f1).
Qed.

Lemma color_of_pm (p : Z) : color_of p = 1 ∨ color_of p = -1.
Proof. destruct (color_of_cases p) as [[_ ->] | [_ ->]]; auto. Qed.

(** Whenever [_step] returns, only cells changed, no stone was lost and
    both maps were recomputed from the new cells. *)
Lemma step_inv (fuel : nat) (s s' : env) (a : Z) :
  _step fuel s a = Ok s' →
  ∃ f d0 d1,
    s' = with_movable_dirs (with_field s f) [d0; d1] ∧
    grown (field s) f ∧
    _calc_movable_dirs fuel (with_field s f) 0 = Ok d0 ∧
    _calc_movable_dirs fuel (with_field s f) 1 = Ok d1.
Proof.
  unfold _step. intros Hs.
  bind_inv Hs xy Hxy. destruct xy as [x y].
  bind_inv Hs f1 Hf1. apply np_set_Ok in Hf1.
  bind_inv Hs dirs_p Hdp. bind_inv Hs dirs Hd.
  bind_inv Hs t Ht. bind_inv Hs d0 Hd0. bind_inv Hs d1 Hd1. injection Hs as <-.
  apply (flip_loop_grown fuel _ x y dirs (color_of_pm _)) in Ht as (f & -> & Hg).
  exists f, d0, d1. split; [done|]. split; [|done].
  apply (grown_trans _ f1); [|done].
  by apply (grown_py_set _ _ _ _ Hf1), color_of_pm.
Qed.

Lemma wf_same_board (s s' : env) :
  same_board s s' → player_index s' = player_index s →
  movable_dirs s' = movable_dirs s → wf s → wf s'.
Proof.
  intros Hs Hp Hm ((HW & HH & Hlen) & Hpl & fuel & d0 & d1 & Hd0 & Hd1 & Hmd).
  pose proof Hs as (HW' & HH' & Hf').
  split; [|split].
  - unfold board_ok. by rewrite HW', HH', Hf'.
  - by rewrite Hp.
  - exists fuel, d0, d1. rewrite !(calc_movable_dirs_same_board fuel s s') by done.
    by rewrite Hm.
Qed.

Lemma wf_after_calc (fuel : nat) (t : env) (d0 d1 : list (list Z)) :
  board_ok t → (player_index t = 0 ∨ player_index t = 1) →
  _calc_movable_dirs fuel t 0 = Ok d0 →
  _calc_movable_dirs fuel t 1 = Ok d1 →
  wf (with_movable_dirs t [d0; d1]).
Proof.
  intros Hok Hp Hd0 Hd1. split; [done | split; [done|]].
  exists fuel, d0, d1.
  rewrite !(calc_movable_dirs_same_board fuel t (with_movable_dirs t [d0; d1])) by done.
  done.
Qed.

Lemma wf_dirs_of (s : env) (p : Z) :
  wf s → p = 0 ∨ p = 1 →
  ∃ dl, py_get (movable_dirs s) p = Ok dl ∧ dirs_spec s p dl.
Proof.
  intros (Hok & _ & fuel & d0 & d1 & Hd0 & Hd1 & Hm) Hp.
  apply calc_movable_dirs_sound in Hd0, Hd1; try done.
  rewrite Hm. destruct Hp as [-> | ->]; eauto.
Qed.

Lemma call_step_legal (fuel : nat) (s : env) (a : Z) :
  wf s → legal s a → (loop_bound s ≤ fuel)%nat →
  ∃ s1, _step fuel (with_action s a) a = Ok s1 ∧
        wf s1 ∧ player_index s1 = player_index s ∧
        W s1 = W s ∧ H s1 = H s ∧
        grown (field s) (field s1) ∧
        count_nonempty (field s1) = count_nonempty (field s) + 1 ∧
        field s !! Z.to_nat a = Some 0 ∧
        field s1 !! Z.to_nat a = Some (color_of (player_index s)) ∧
        (∀ k, k ≠ Z.to_nat a → field s !! k = Some 0 → field s1 !! k = Some 0) ∧
        (¬ has_legal_cell s1 (opponent (player_index s)) →
         ¬ has_legal_cell s1 (player_index s) →
         call_step fuel s a = Ok (s1, game_over_result s1)) ∧
        (¬ has_legal_cell s1 (opponent (player_index s)) →
         has_legal_cell s1 (player_index s) →
         call_step fuel s a = Ok (s1, mkStep (field s1) 0 0 false [])) ∧
        (has_legal_cell s1 (opponent (player_index s)) →
         call_step fuel s a
           = Ok (with_player_index s1 (opponent (player_index s)),
                 mkStep (field s1) 0 0 false [])).
Proof.
  intros Hwf Hlegal Hfuel.
  assert (Hwfa : wf (with_action s a)) by (by apply (wf_same_board s)).
  destruct (step_spec fuel (with_action s a) a Hwfa Hlegal Hfuel)
    as (f & d0 & d1 & Hstep & Hlen & Hcnt & Hwas & Hnow & Hkeep & Hd0 & Hd1).
  set (s1 := with_movable_dirs (with_field (with_action s a) f) [d0; d1]) in *.
  destruct Hwf as (Hok & Hp & Hcons). pose proof Hok as (HW & HH & Hflen).
  assert (Hokf : board_ok (with_field (with_action s a) f))
    by (apply board_ok_with_field; [by destruct Hwfa | done]).
  assert (Hwf1 : wf s1) by (by apply (wf_after_calc fuel)).
  exists s1. split; [done|]. split; [done|]. split; [done|].
  split; [done|]. split; [done|].
  assert (Hgrown : grown (field s) (field s1)).
  { destruct (step_inv _ _ _ _ Hstep) as (f' & d0' & d1' & Heq & Hg & _).
    replace (field s1) with f'; [done|].
    by apply (f_equal field) in Heq. }
  split; [done|]. split; [done|]. split; [done|]. split; [done|]. split; [done|].
  destruct Hlegal as (Ha & dirs_p & dirs & Hdp & Hdirs & Hne).
  unfold call_step.
  change (movable_dirs (with_action s a)) with (movable_dirs s).
  change (player_index (with_action s a)) with (player_index s).
  rewrite Hdp, bind_Ok, Hdirs, bind_Ok.
  rewrite bool_decide_eq_false_2 by (by destruct dirs).
  rewrite Hstep, bind_Ok.
  change (player_index s1) with (player_index s).
  fold (opponent (player_index s)).
  assert (Hme : (if bool_decide (player_index s = 0) then 0 else 1) = player_index s)
    by (destruct Hp as [-> | ->]; done).
  rewrite Hme.
  assert (Hop : opponent (player_index s) = 0 ∨ opponent (player_index s) = 1)
    by (unfold opponent; case_bool_decide; auto).
  destruct (wf_dirs_of s1 _ Hwf1 Hop) as (dle & Hdle & Hlene & _).
  destruct (wf_dirs_of s1 _ Hwf1 Hp) as (dlm & Hdlm & Hlenm & _).
  destruct (invalid_count s1 _ dle HW HH Hdle Hlene) as (inv_e & -> & He).
  destruct (invalid_count s1 _ dlm HW HH Hdlm Hlenm) as (inv_m & -> & Hm).
  rewrite !bind_Ok.
  split; [|split].
  - intros Hne' Hnm. apply He in Hne'. apply Hm in Hnm.
    rewrite (bool_decide_eq_true_2 _ Hne'), (bool_decide_eq_true_2 _ Hnm).
    unfold game_over_result. cbn [andb]. by repeat case_bool_decide.
  - intros Hne' Hhm. apply He in Hne'.
    rewrite (bool_decide_eq_true_2 _ Hne').
    rewrite (bool_decide_eq_false_2 (_ - Z.of_nat (length inv_m) = 0)) by (by rewrite Hm; intros Hc).
    reflexivity.
  - intros Hhe.
    rewrite (bool_decide_eq_false_2 (_ - Z.of_nat (length inv_e) = 0)) by (by rewrite He; intros Hc).
    reflexivity.
Qed.


(** ** Steps of the engine *)

Lemma wf_with_player_index (s : env) (p : Z) :
  wf s → p = 0 ∨ p = 1 → wf (with_player_index s p).
Proof.
  intros (Hok & _ & fuel & d0 & d1 & Hd0 & Hd1 & Hm) Hp.
  split; [done | split; [done|]]. exists fuel, d0, d1.
  rewrite !(calc_movable_dirs_same_board fuel s (with_player_index s p)) by done.
  done.
Qed.

Lemma call_step_wf (fuel : nat) (s s' : env) (a : Z) (r : step_result) :
  wf s → call_step fuel s a = Ok (s', r) →
  wf s' ∧ W s' = W s ∧ H s' = H s ∧ grown (field s) (field s').
Proof.
  intros Hwf. unfold call_step. intros Hc.
  assert (Hwfa : wf (with_action s a)) by (by apply (wf_same_board s)).
  bind_inv Hc dirs_p Hdp. bind_inv Hc dirs Hd.
  case_bool_decide.
  { case_bool_decide; injection Hc as <- <-;
      (split; [done | split; [done | split; [done | apply grown_refl]]]). }
  bind_inv Hc s1 Hs1. bind_inv Hc inv_e Hie. bind_inv Hc inv_m Him.
  destruct (step_inv _ _ _ _ Hs1) as (f & d0 & d1 & -> & Hg & Hd0 & Hd1).
  destruct Hwfa as (Hoka & Hpa & _).
  assert (Hwf1 : wf (with_movable_dirs (with_field (with_action s a) f) [d0; d1])).
  { apply (wf_after_calc fuel); [|done..].
    apply board_ok_with_field; [done | by destruct Hg]. }
  assert (Hop : ∀ q : Z, (if bool_decide (q = 0) then 1 else 0) = 0
                         ∨ (if bool_decide (q = 0) then 1 else 0) = 1)
    by (intros q; destruct (bool_decide (q = 0)); [right | left]; reflexivity).
  repeat case_bool_decide; simpl in Hc;
    repeat case_bool_decide; injection Hc as <- <-.
  all: split;
    [ first [ exact Hwf1 | apply wf_with_player_index; [exact Hwf1 | by (left + right)] ]
    | split; [done | split; [done | exact Hg]] ].
Qed.

Lemma call_reset_wf (fuel : nat) (s0 s : env) (o : list Z) :
  0 ≤ W s0 → 0 ≤ H s0 → call_reset fuel s0 = Ok (s, o) →
  wf s ∧ cells_ok (field s).
Proof.
  intros HW HH. unfold call_reset, np_zeros, set_field. intros Hr.
  cbn [W H with_field with_action with_player_index field] in Hr.
  case_bool_decide; [done|]. rewrite bind_Ok in Hr.
  bind_inv Hr e1 He1. bind_inv He1 f1 Hf1. injection He1 as <-.
  bind_inv Hr e2 He2. bind_inv He2 f2 Hf2. injection He2 as <-.
  bind_inv Hr e3 He3. bind_inv He3 f3 Hf3. injection He3 as <-.
  bind_inv Hr e4 He4. bind_inv He4 f4 Hf4. injection He4 as <-.
  bind_inv Hr d0 Hd0. bind_inv Hr d1 Hd1. injection Hr as <- <-.
  cbn [W H with_field with_action with_player_index field] in *.
  apply grown_py_set in Hf1, Hf2, Hf3, Hf4; auto.
  pose proof (grown_trans _ _ _ (grown_trans _ _ _ (grown_trans _ _ _ Hf1 Hf2) Hf3) Hf4)
    as (Hlen & _ & Hcells).
  rewrite length_replicate in Hlen.
  split.
  - apply (wf_after_calc fuel); [|by left|done..].
    repeat split; simpl; done.
  - apply Hcells. unfold cells_ok. apply Forall_replicate. auto.
Qed.

Lemma reachable_wf (s : env) : reachable s → wf s ∧ cells_ok (field s).
Proof.
  induction 1 as [fuel s0 s o HW HH Hr | fuel s s' a r Hs [IHwf IHc] Hc].
  - by apply (call_reset_wf fuel s0 s o).
  - destruct (call_step_wf fuel s s' a r IHwf Hc) as (Hwf' & _ & _ & _ & _ & Hcells).
    auto.
Qed.

Lemma play_reachable (fuel : nat) (actions : list Z) :
  ∀ s s', reachable s → play fuel s actions = Ok s' → reachable s'.
Proof.
  induction actions as [|a rest IH]; intros s s' Hs Hp.
  - by injection Hp as <-.
  - simpl in Hp. bind_inv Hp sr Hsr. destruct sr as [s1 r].
    apply (IH s1); [|done]. by apply (reach_step fuel s s1 a r).
Qed.

Lemma position_reachable (w h : Z) (actions : list Z) (s : env) :
  0 ≤ w → 0 ≤ h → position w h actions = Ok s → reachable s.
Proof.
  intros Hw Hh. unfold position. intros Hp.
  bind_inv Hp so Hso. destruct so as [s0 o].
  apply (play_reachable 9 actions s0); [|done].
  by apply (reach_reset 9 (fresh w h) s0 o).
Qed.

Lemma opponent_cases (p : Z) :
  p = 0 ∨ p = 1 →
  (p = 0 ∧ opponent p = 1) ∨ (p = 1 ∧ opponent p = 0).
Proof. intros [-> | ->]; [left | right]; done. Qed.


Lemma legal_cell_decide (s : env) (p : Z) :
  wf s → p = 0 ∨ p = 1 → has_legal_cell s p ∨ ¬ has_legal_cell s p.
Proof.
  intros Hwf Hp. destruct (wf_dirs_of s p Hwf Hp) as (dl & Hdl & Hlen & _).
  destruct Hwf as ((HW & HH & _) & _ & _).
  set (P := λ a : Z, dl !! Z.to_nat a = Some []).
  destruct (decide (Forall P (range (W s * H s)))) as [Hall | Hex].
  - right. intros (a & dl' & dirs & Ha & Hp' & Hd & Hne).
    rewrite Hdl in Hp'. injection Hp' as <-.
    rewrite Forall_forall in Hall.
    specialize (Hall a ltac:(apply elem_of_range; done)). unfold P in Hall.
    apply py_get_in_range_inv in Hd; [congruence | lia].
  - left. apply not_Forall_Exists in Hex; [|apply _].
    apply Exists_exists in Hex as (a & Ha & HnP). apply elem_of_range in Ha.
    assert (Hlt : (Z.to_nat a < length dl)%nat) by lia.
    apply lookup_lt_is_Some_2 in Hlt as [L HL].
    exists a, dl, L. split; [done|]. split; [done|].
    split; [apply py_get_in_range; [lia | done]|].
    intros ->. by apply HnP.
Qed.

(** C2: after a legal move that leaves neither player a legal cell,
    [call_step] reports [done] with reward +1 for the player who holds
    strictly more stones and -1 for the other, 0 for both on a tie, and an
    info payload with the stone counts of both players. *)
Theorem call_step_game_over (fuel : nat) (s : env) (a : Z) :
  wf s → legal s a → (loop_bound s ≤ fuel)%nat →
  ∃ s1, _step fuel (with_action s a) a = Ok s1 ∧
    (¬ has_legal_cell s1 0 → ¬ has_legal_cell s1 1 →
     ∃ r, call_step fuel s a = Ok (s1, r) ∧
          done r = true ∧
          obs r = field s1 ∧
          let stones0 := count_eq (color_of 0) (field s1) in
          let stones1 := count_eq (color_of 1) (field s1) in
          info r = [("P1"%string, stones0); ("P2"%string, stones1)] ∧
          (stones0 > stones1 → reward1 r = 1 ∧ reward2 r = -1) ∧
          (stones0 < stones1 → reward1 r = -1 ∧ reward2 r = 1) ∧
          (stones0 = stones1 → reward1 r = 0 ∧ reward2 r = 0)).
Proof.
  intros Hwf Hlegal Hfuel.
  destruct (call_step_legal fuel s a Hwf Hlegal Hfuel)
    as (s1 & Hstep & _ & _ & _ & _ & _ & _ & _ & _ & _ & Hover & _).
  exists s1. split; [done|]. intros Hn0 Hn1.
  destruct Hwf as (_ & Hp & _).
  assert (Hcall : call_step fuel s a = Ok (s1, game_over_result s1)).
  { apply Hover; destruct (opponent_cases _ Hp) as [[E1 E2] | [E1 E2]];
      rewrite ?E2, ?E1; done. }
  exists (game_over_result s1). split; [done|].
  unfold game_over_result. change (color_of 0) with 1. change (color_of 1) with (-1).
  repeat case_bool_decide; simpl; repeat split; intros; lia || done.
Qed.

(** C4: after a legal move that leaves the opponent without a legal cell
    while the mover has one, [call_step] does not hand the turn over: the
    mover is unchanged, the rewards are (0, 0) and the episode goes on. *)
Theorem call_step_pass (fuel : nat) (s : env) (a : Z) :
  wf s → legal s a → (loop_bound s ≤ fuel)%nat →
  ∃ s1, _step fuel (with_action s a) a = Ok s1 ∧
    (¬ has_legal_cell s1 (opponent (player_index s)) →
     has_legal_cell s1 (player_index s) →
     ∃ s' r, call_step fuel s a = Ok (s', r) ∧
             player_index s' = player_index s ∧
             field s' = field s1 ∧ movable_dirs s' = movable_dirs s1 ∧
             reward1 r = 0 ∧ reward2 r = 0 ∧ done r = false).
Proof.
  intros Hwf Hlegal Hfuel.
  destruct (call_step_legal fuel s a Hwf Hlegal Hfuel)
    as (s1 & Hstep & _ & Hp1 & _ & _ & _ & _ & _ & _ & _ & _ & Hpass & _).
  exists s1. split; [done|]. intros Hne Hm.
  exists s1, (mkStep (field s1) 0 0 false []). by rewrite (Hpass Hne Hm).
Qed.

(** C7: in every state reached from a reset, a step never lowers the
    number of stones on the board, and a step whose action has a
    non-empty direction set for the mover raises it by exactly one: the
    cell of the action was empty and now holds the mover's stone. *)
Theorem call_step_stone_count (s : env) :
  reachable s →
  (∀ fuel a s' r,
     call_step fuel s a = Ok (s', r) →
     count_nonempty (field s) ≤ count_nonempty (field s')) ∧
  (∀ fuel a,
     legal s a → (loop_bound s ≤ fuel)%nat →
     ∃ s' r, call_step fuel s a = Ok (s', r) ∧
             count_nonempty (field s') = count_nonempty (field s) + 1 ∧
             field s !! Z.to_nat a = Some 0 ∧
             field s' !! Z.to_nat a = Some (color_of (player_index s))).
Proof.
  intros Hreach. destruct (reachable_wf s Hreach) as [Hwf _]. split.
  - intros fuel a s' r Hc.
    by destruct (call_step_wf fuel s s' a r Hwf Hc) as (_ & _ & _ & _ & Hle & _).
  - intros fuel a Hlegal Hfuel.
    destruct (call_step_legal fuel s a Hwf Hlegal Hfuel)
      as (s1 & Hstep & Hwf1 & _ & HW1 & HH1 & _ & Hcnt & Hwas & Hnow & _ & Hover & Hpass & Hnext).
    destruct Hwf as (_ & Hp & _).
    assert (Hop : opponent (player_index s) = 0 ∨ opponent (player_index s) = 1)
      by (unfold opponent; case_bool_decide; auto).
    destruct (legal_cell_decide s1 _ Hwf1 Hop) as [He | He].
    + eexists _, _. split; [by apply Hnext | done].
    + destruct (legal_cell_decide s1 _ Hwf1 Hp) as [Hm | Hm].
      * eexists _, _. split; [by apply Hpass | done].
      * eexists _, _. split; [by apply Hover | done].
Qed.

Lemma before_end8x2_wf : wf before_end8x2.
Proof.
  apply reachable_wf, (position_reachable 8 2 [5]); [lia | lia | reflexivity].
Qed.

Lemma before_pass4x4_wf : wf before_pass4x4.
Proof.
  apply reachable_wf, (position_reachable 4 4 [2; 1; 8]); [lia | lia | reflexivity].
Qed.

Lemma legal_check (s : env) (a : Z) (dirs_p : list (list Z)) (d : Z) (dirs : list Z) :
  0 ≤ a < action_space_n s →
  py_get (movable_dirs s) (player_index s) = Ok dirs_p →
  py_get dirs_p a = Ok (d :: dirs) →
  legal s a.
Proof. intros Ha Hp Hd. split; [done|]. by exists dirs_p, (d :: dirs). Qed.

Lemma call_step_game_over_witness :
  ∃ s1, _step 9 (with_action before_end8x2 13) 13 = Ok s1 ∧
    (¬ has_legal_cell s1 0 → ¬ has_legal_cell s1 1 →
     ∃ r, call_step 9 before_end8x2 13 = Ok (s1, r) ∧
          done r = true ∧
          obs r = field s1 ∧
          let stones0 := count_eq (color_of 0) (field s1) in
          let stones1 := count_eq (color_of 1) (field s1) in
          info r = [("P1"%string, stones0); ("P2"%string, stones1)] ∧
          (stones0 > stones1 → reward1 r = 1 ∧ reward2 r = -1) ∧
          (stones0 < stones1 → reward1 r = -1 ∧ reward2 r = 1) ∧
          (stones0 = stones1 → reward1 r = 0 ∧ reward2 r = 0)).
Proof.
  apply (call_step_game_over 9 before_end8x2 13).
  - exact before_end8x2_wf.
  - eapply legal_check; [by vm_compute | reflexivity | reflexivity].
  - vm_compute. lia.
Defined.

(** The first move of the 8x8 game at [(x, y) = (2, 4)], cell 34: one
    stone is flipped, player 0 then holds four stones and player 1 one,
    and the turn passes to player 1. *)
Example call_step_opening_34 :
  match call_step 9 opening8x8 34 with
  | Ok (s', r) =>
      r = mkStep (field s') 0 0 false [] ∧ player_index s' = 1 ∧
      count_nonempty (field opening8x8) = 4 ∧ count_nonempty (field s') = 5 ∧
      count_eq 1 (field s') = 4 ∧ count_eq (-1) (field s') = 1
  | _ => False
  end.
Proof. vm_compute. repeat split; reflexivity. Qed.

(** The move of the witness does end the game, three stones each. *)
Example call_step_game_over_8x2 :
  match call_step 9 before_end8x2 13 with
  | Ok (s', r) =>
      r = mkStep (field s') 0 0 true [("P1"%string, 3); ("P2"%string, 3)] ∧
      get_valid_actions s' 0 = Ok [] ∧ get_valid_actions s' 1 = Ok []
  | _ => False
  end.
Proof. vm_compute. repeat split; reflexivity. Qed.

Lemma call_step_pass_witness :
  ∃ s1, _step 9 (with_action before_pass4x4 3) 3 = Ok s1 ∧
    (¬ has_legal_cell s1 (opponent (player_index before_pass4x4)) →
     has_legal_cell s1 (player_index before_pass4x4) →
     ∃ s' r, call_step 9 before_pass4x4 3 = Ok (s', r) ∧
             player_index s' = player_index before_pass4x4 ∧
             field s' = field s1 ∧ movable_dirs s' = movable_dirs s1 ∧
             reward1 r = 0 ∧ reward2 r = 0 ∧ done r = false).
Proof.
  apply (call_step_pass 9 before_pass4x4 3).
  - exact before_pass4x4_wf.
  - eapply legal_check; [by vm_compute | reflexivity | reflexivity].
  - vm_compute. lia.
Defined.

(** The move of the witness does leave player 0 without a move: player 1
    stays the mover. *)
Example call_step_pass_4x4 :
  match call_step 9 before_pass4x4 3 with
  | Ok (s', r) =>
      r = mkStep (field s') 0 0 false [] ∧
      player_index before_pass4x4 = 1 ∧ player_index s' = 1 ∧
      get_valid_actions s' 0 = Ok [] ∧ get_valid_actions s' 1 ≠ Ok []
  | _ => False
  end.
Proof. vm_compute. repeat split; (reflexivity || discriminate). Qed.

Lemma call_step_stone_count_witness :
  (∀ fuel a s' r,
     call_step fuel opening8x8 a = Ok (s', r) →
     count_nonempty (field opening8x8) ≤ count_nonempty (field s')) ∧
  (∀ fuel a,
     legal opening8x8 a → (loop_bound opening8x8 ≤ fuel)%nat →
     ∃ s' r, call_step fuel opening8x8 a = Ok (s', r) ∧
             count_nonempty (field s') = count_nonempty (field opening8x8) + 1 ∧
             field opening8x8 !! Z.to_nat a = Some 0 ∧
             field s' !! Z.to_nat a = Some (color_of (player_index opening8x8))).
Proof.
  apply (call_step_stone_count opening8x8).
  apply (reach_reset 9 (fresh 8 8) opening8x8 (field opening8x8)); [simpl; lia | simpl; lia|].
  reflexivity.
Defined.

(** ** Illegal selections *)

(** C3: an action whose direction set for the current mover is empty
    ends the episode at once, whatever the board holds: the step reports
    [done] with rewards (-1, 0) when player 0 is the mover and (0, -1)
    when player 1 is. *)
Theorem call_step_illegal_selection (fuel : nat) (s : env) (a : Z)
    (dirs_p : list (list Z)) :
  py_get (movable_dirs s) (player_index s) = Ok dirs_p →
  py_get dirs_p a = Ok [] →
  (player_index s = 0 →
     call_step fuel s a = Ok (with_action s a, mkStep (field s) (-1) 0 true [])) ∧
  (player_index s = 1 →
     call_step fuel s a = Ok (with_action s a, mkStep (field s) 0 (-1) true [])).
Proof.
  intros Hp Ha. unfold call_step.
  change (movable_dirs (with_action s a)) with (movable_dirs s).
  change (player_index (with_action s a)) with (player_index s).
  rewrite Hp, bind_Ok, Ha, bind_Ok. simpl length.
  rewrite bool_decide_eq_true_2 by done.
  split; intros Hm; rewrite Hm; reflexivity.
Qed.

Lemma call_step_illegal_selection_witness :
  call_step 0 opening8x8 0
    = Ok (with_action opening8x8 0, mkStep (field opening8x8) (-1) 0 true []) ∧
  call_step 0 opening8x8_second 0
    = Ok (with_action opening8x8_second 0,
          mkStep (field opening8x8_second) 0 (-1) true []).
Proof.
  split.
  - eapply (call_step_illegal_selection 0 opening8x8 0); reflexivity.
  - eapply (call_step_illegal_selection 0 opening8x8_second 0); reflexivity.
Defined.

(** C9: an illegal selection leaves the engine as it was: the step
    reports [done], and the cells, the mover and both direction maps
    (hence the whole snapshot taken by [backup]) are those from before
    the call; the one attribute assigned is [action], the record of the
    last selection kept for display. *)
Theorem call_step_illegal_selection_atomic (fuel : nat) (s : env) (a : Z)
    (dirs_p : list (list Z)) :
  py_get (movable_dirs s) (player_index s) = Ok dirs_p →
  py_get dirs_p a = Ok [] →
  ∃ s' r, call_step fuel s a = Ok (s', r) ∧
          done r = true ∧
          field s' = field s ∧
          player_index s' = player_index s ∧
          movable_dirs s' = movable_dirs s ∧
          backup s' = backup s ∧
          s' = with_action s a.
Proof.
  intros Hp Ha. unfold call_step.
  change (movable_dirs (with_action s a)) with (movable_dirs s).
  change (player_index (with_action s a)) with (player_index s).
  rewrite Hp, bind_Ok, Ha, bind_Ok. simpl length.
  rewrite bool_decide_eq_true_2 by done.
  case_bool_decide; eexists _, _; (split; [reflexivity | done]).
Qed.

Lemma call_step_illegal_selection_atomic_witness :
  ∃ s' r, call_step 0 opening8x8 0 = Ok (s', r) ∧
          done r = true ∧
          field s' = field opening8x8 ∧
          player_index s' = player_index opening8x8 ∧
          movable_dirs s' = movable_dirs opening8x8 ∧
          backup s' = backup opening8x8 ∧
          s' = with_action opening8x8 0.
Proof.
  eapply (call_step_illegal_selection_atomic 0 opening8x8 0); reflexivity.
Defined.

(** ** The search returns and scores legal actions *)

Lemma sum_abs_nonneg (a : list Z) : 0 ≤ sum_abs a.
Proof. induction a as [|x a IH]; simpl; lia. Qed.

Lemma dot_bound (a b : list Z) :
  cells_ok b → - sum_abs a ≤ dot a b ≤ sum_abs a.
Proof.
  unfold dot, cells_ok. revert b. induction a as [|x a IH]; intros b Hb; [simpl; lia|].
  pose proof (sum_abs_nonneg a).
  destruct b as [|y b]; [simpl; lia|].
  apply Forall_cons in Hb as [Hy Hb]. specialize (IH b Hb).
  unfold np_sum in *. simpl in *.
  destruct Hy as [-> | [-> | ->]]; lia.
Qed.

Lemma board_eval_supported (e : env) :
  board_ok e → supported e → board_eval e = Ok (table_score e).
Proof.
  intros (HW & HH & Hlen) [H8 H6]. unfold board_eval, table_score, np_mul.
  case_bool_decide as E8.
  - rewrite bool_decide_eq_true_2; [done|]. rewrite Hlen, E8, (H8 E8). reflexivity.
  - case_bool_decide as E6; [|done].
    rewrite bool_decide_eq_true_2; [done|]. rewrite Hlen, E6, (H6 E6). reflexivity.
Qed.

Lemma table_score_bound (e : env) :
  cells_ok (field e) → -344 ≤ table_score e ≤ 344.
Proof.
  intros Hc. unfold table_score.
  repeat case_bool_decide; [| |lia].
  - pose proof (dot_bound evals8x8 (field e) Hc) as Hb.
    change (sum_abs evals8x8) with 344 in Hb. lia.
  - pose proof (dot_bound evals6x6 (field e) Hc) as Hb.
    change (sum_abs evals6x6) with 300 in Hb. lia.
Qed.

Lemma np_max_spec (v : list Z) (m : Z) :
  np_max v = Ok m → Forall (λ x, x ≤ m) v ∧ m ∈ v.
Proof.
  destruct v as [|x v]; [done|]. simpl. intros Hm. injection Hm as <-.
  induction v as [|y v IH]; simpl.
  - split; [by repeat constructor | left].
  - destruct IH as [Hle Hin]. apply Forall_cons in Hle as [Hx Hv].
    split.
    + repeat constructor; [lia | lia |].
      eapply Forall_impl; [exact Hv | simpl; intros; lia].
    + destruct (Z.max_spec y (foldr Z.max x v)) as [[_ ->] | [_ ->]].
      * apply elem_of_cons in Hin as [-> | Hin]; [left | right; by right].
      * right; left.
Qed.

Lemma np_max_total (v : list Z) : v ≠ [] → ∃ m, np_max v = Ok m.
Proof. destruct v; [done | eauto]. Qed.

Lemma good_intro (v : list Z) (k : nat) (x : Z) :
  v !! k = Some x → entry_ok x → Forall (λ y, y ≤ 500) v → good v.
Proof.
  intros Hk Hx Hall.
  destruct (np_max_total v) as [m Hm]; [by destruct v|].
  exists m. split; [done|]. destruct (np_max_spec v m Hm) as [Hle Hin].
  rewrite Forall_forall in Hle, Hall. split.
  - specialize (Hle x ltac:(by eapply list_elem_of_lookup_2)). unfold entry_ok in Hx. lia.
  - by apply Hall.
Qed.

Lemma restore_backup (e e' : env) : restore e' (backup e) = with_action e (action e').
Proof. reflexivity. Qed.

Lemma call_step_after_restore (fuel : nat) (e e' : env) (a : Z) :
  call_step fuel (restore e' (backup e)) a = call_step fuel e a.
Proof. reflexivity. Qed.

Lemma get_valid_actions_spec (e : env) :
  wf e →
  ∃ valid, get_valid_actions e (player_index e) = Ok valid ∧
           NoDup valid ∧ ∀ a, a ∈ valid ↔ legal e a.
Proof.
  intros Hwf. pose proof Hwf as ((HW & HH & _) & Hp & _).
  destruct (wf_dirs_of e _ Hwf Hp) as (dl & Hdl & Hlen & _).
  unfold get_valid_actions.
  rewrite (get_invalid_actions_spec e _ dl Hdl Hlen), bind_Ok.
  eexists. split; [reflexivity|]. split.
  - apply NoDup_filter. unfold range. apply NoDup_fmap; [apply _ | apply NoDup_seq].
  - intros a. rewrite list_elem_of_filter, elem_of_range, list_elem_of_filter, elem_of_range.
    unfold legal, action_space_n. rewrite (Z.mul_comm (H e)). split.
    + intros [Hn Ha]. split; [done|].
      assert (Hlt : (Z.to_nat a < length dl)%nat) by lia.
      apply lookup_lt_is_Some_2 in Hlt as [L HL].
      exists dl, L. split; [done|]. split; [apply py_get_in_range; [lia | done]|].
      intros ->. apply Hn. done.
    + intros (Ha & dl' & L & Hdl' & HL & Hne). split; [|done].
      rewrite Hdl in Hdl'. injection Hdl' as <-.
      apply py_get_in_range_inv in HL; [|lia].
      intros [Hnil _]. congruence.
Qed.

Lemma done_game_over (s : env) : done (game_over_result s) = true.
Proof. unfold game_over_result. by repeat case_bool_decide. Qed.

(** What the search needs to know about a legal move. *)
Lemma call_step_legal_summary (fuel : nat) (s : env) (a : Z) :
  wf s → legal s a → (loop_bound s ≤ fuel)%nat →
  ∃ e1 r, call_step fuel s a = Ok (e1, r) ∧
          wf e1 ∧ W e1 = W s ∧ H e1 = H s ∧ grown (field s) (field e1) ∧
          field s !! Z.to_nat a = Some 0 ∧
          field e1 !! Z.to_nat a = Some (color_of (player_index s)) ∧
          (∀ k, k ≠ Z.to_nat a → field s !! k = Some 0 → field e1 !! k = Some 0) ∧
          (done r = true →
           (reward1 r = -1 ∨ reward1 r = 0 ∨ reward1 r = 1) ∧
           (reward2 r = -1 ∨ reward2 r = 0 ∨ reward2 r = 1)) ∧
          (done r = false → has_legal_cell e1 (player_index e1)).
Proof.
  intros Hwf Hlegal Hfuel.
  destruct (call_step_legal fuel s a Hwf Hlegal Hfuel)
    as (s1 & Hstep & Hwf1 & Hp1 & HW1 & HH1 & Hg & _ & Hwas & Hnow & Hkeep & Hover & Hpass & Hnext).
  pose proof Hwf as (_ & Hp & _).
  assert (Hop : opponent (player_index s) = 0 ∨ opponent (player_index s) = 1)
    by (unfold opponent; case_bool_decide; auto).
  destruct (legal_cell_decide s1 _ Hwf1 Hop) as [He | He].
  - exists (with_player_index s1 (opponent (player_index s))), (mkStep (field s1) 0 0 false []).
    split; [by apply Hnext|]. split; [by apply wf_with_player_index|].
    do 6 (split; [done|]). split; [done|]. intros _. exact He.
  - destruct (legal_cell_decide s1 _ Hwf1 Hp) as [Hm | Hm].
    + exists s1, (mkStep (field s1) 0 0 false []).
      split; [by apply Hpass|]. do 7 (split; [done|]). split; [done|].
      intros _. by rewrite Hp1.
    + exists s1, (game_over_result s1).
      split; [by apply Hover|]. do 7 (split; [done|]). split.
      * intros _. unfold game_over_result. repeat case_bool_decide; simpl; auto.
      * rewrite done_game_over. done.
Qed.

Section Iteration.
Variables (loop_fuel : nat) (recurse : world → Z → res (list Z * world)).
Variables (e : env) (depth md : Z).
Hypothesis Hnode : node_ok loop_fuel e.
Hypothesis Hrec :
  ¬ depth > md →
  ∀ w1, node_ok loop_fuel (env_of w1) → cache_good (cache w1) →
        max_depth (self w1) = md →
        ∃ ns w2, recurse w1 (depth + 1) = Ok (ns, w2) ∧ good ns ∧
                 cache_good (cache w2) ∧ max_depth (self w2) = md.

Lemma negamax_action_ok (scores : list Z) (w : world) (a : Z) :
  legal e a → length scores = Z.to_nat (action_space_n e) →
  cache_good (cache w) → max_depth (self w) = md →
  ∃ x w', negamax_action loop_fuel recurse (backup e) (player_index e) depth (scores, w) a
            = Ok (<[Z.to_nat a := x]> scores, w') ∧
          entry_ok x ∧ cache_good (cache w') ∧ max_depth (self w') = md.
Proof.
  intros Hlegal Hlen Hcache Hmd.
  destruct Hnode as (Hwf & Hcells & Hsup & _ & Hfuel).
  destruct (call_step_legal_summary loop_fuel e a Hwf Hlegal Hfuel)
    as (e1 & r & Hcall & Hwf1 & HW1 & HH1 & Hg & _ & _ & _ & Hdone & Hcont).
  pose proof Hlegal as [Ha _].
  assert (Hset : ∀ v, py_set scores a v = Ok (<[Z.to_nat a := v]> scores))
    by (intros v; apply py_set_in_range; lia).
  unfold negamax_action. rewrite call_step_after_restore, Hcall, bind_Ok.
  cbn [self with_env].
  destruct (done r) eqn:Hd.
  - destruct (Hdone eq_refl) as [Hr1 Hr2].
    rewrite Hset, bind_Ok. eexists _, _. split; [reflexivity|].
    split; [|done]. unfold entry_ok. case_bool_decide; lia.
  - rewrite Hmd. case_bool_decide as Hdepth.
    + assert (Hok1 : board_ok e1) by (by destruct Hwf1).
      assert (Hsup1 : supported e1) by (unfold supported in *; by rewrite HW1, HH1).
      assert (Hc1 : cells_ok (field e1)) by (destruct Hg as (_ & _ & Hc); auto).
      rewrite (board_eval_supported e1 Hok1 Hsup1), bind_Ok, Hset, bind_Ok.
      pose proof (table_score_bound e1 Hc1) as Hb.
      case_bool_decide.
      * rewrite (py_get_in_range _ a (table_score e1)); [|lia|].
        2:{ apply list_lookup_insert_eq. lia. }
        rewrite bind_Ok, py_set_in_range by (rewrite length_insert; lia).
        rewrite bind_Ok, list_insert_insert_eq.
        eexists _, _. split; [reflexivity|]. split; [unfold entry_ok; lia | done].
      * rewrite bind_Ok. eexists _, _. split; [reflexivity|].
        split; [unfold entry_ok; lia | done].
    + destruct (Hrec Hdepth (with_env w e1)) as (ns & w2 & Hns & (m & Hm & Hme) & Hc2 & Hmd2);
        [|done|done|].
      { cbn [env_of with_env].
        split; [done|]. split; [destruct Hg as (_ & _ & Hc); auto|].
        split; [unfold supported in *; by rewrite HW1, HH1|].
        split; [by apply Hcont|]. unfold loop_bound in *. by rewrite HW1, HH1. }
      rewrite Hns, bind_Ok, Hm, bind_Ok, Hset, bind_Ok.
      eexists _, _. split; [reflexivity|]. split; [|done].
      unfold entry_ok in *. case_bool_decide; lia.
Qed.
End Iteration.

Section Loop.
Variables (loop_fuel : nat) (recurse : world → Z → res (list Z * world)).
Variables (e : env) (depth md : Z).
Hypothesis Hnode : node_ok loop_fuel e.
Hypothesis Hrec :
  ¬ depth > md →
  ∀ w1, node_ok loop_fuel (env_of w1) → cache_good (cache w1) →
        max_depth (self w1) = md →
        ∃ ns w2, recurse w1 (depth + 1) = Ok (ns, w2) ∧ good ns ∧
                 cache_good (cache w2) ∧ max_depth (self w2) = md.

Lemma negamax_loop_ok (pending : list Z) :
  (∀ a, a ∈ pending → legal e a) →
  ∀ scores w,
    partial_scores e scores → cache_good (cache w) → max_depth (self w) = md →
    ∃ scores' w',
      for_each pending (negamax_action loop_fuel recurse (backup e) (player_index e) depth)
        (scores, w) = Ok (scores', w') ∧
      partial_scores e scores' ∧ cache_good (cache w') ∧ max_depth (self w') = md ∧
      (∀ a, a ∈ pending → ∃ x, scores' !! Z.to_nat a = Some x ∧ entry_ok x) ∧
      (∀ k x, scores !! k = Some x → entry_ok x →
              ∃ x', scores' !! k = Some x' ∧ entry_ok x').
Proof.
  induction pending as [|a pending IH]; intros Hlegal scores w Hpart Hcache Hmd.
  - exists scores, w. split; [done|]. repeat (split; [done|]). split.
    + intros a Ha. by apply elem_of_nil in Ha.
    + eauto.
  - rewrite for_each_cons.
    assert (Ha : legal e a) by (apply Hlegal; left).
    destruct Hpart as [Hlen Hent].
    destruct (negamax_action_ok loop_fuel recurse e depth md Hnode Hrec scores w a
                Ha Hlen Hcache Hmd) as (x & w1 & -> & Hx & Hc1 & Hmd1).
    rewrite bind_Ok.
    pose proof Ha as [Hrange _].
    destruct (IH ltac:(intros a' Ha'; apply Hlegal; by right)
                 (<[Z.to_nat a := x]> scores) w1) as (scores' & w' & -> & Hpart' & Hc' & Hmd' & Hpending & Hkeep);
      [|done|done|].
    { split; [by rewrite length_insert|]. intros a' Ha'.
      destruct (decide (a' = a)) as [-> | Hne].
      - exists x. split; [apply list_lookup_insert_eq; lia | right; done].
      - destruct (Hent a' Ha') as (x' & Hx' & Hcase).
        exists x'. split; [|done]. rewrite list_lookup_insert_ne; [done | lia]. }
    exists scores', w'. split; [done|]. repeat (split; [done|]). split.
    + intros a' Ha'. apply elem_of_cons in Ha' as [-> | Ha']; [|by apply Hpending].
      apply (Hkeep (Z.to_nat a) x); [apply list_lookup_insert_eq; lia | done].
    + intros k x' Hk Hx'. destruct (decide (k = Z.to_nat a)) as [-> | Hne].
      * apply (Hkeep (Z.to_nat a) x); [apply list_lookup_insert_eq; lia | done].
      * apply (Hkeep k x'); [|done]. by rewrite list_lookup_insert_ne.
Qed.
End Loop.

Lemma negamax_unfold (fuel loop_fuel : nat) (w : world) (depth : Z) :
  _negamax (S fuel) loop_fuel w depth =
  match cache_get (cache w) (np_str (field (env_of w))) with
  | Some scores => Ok (scores, w)
  | None =>
      let w0 := mkWorld (mkCpu (max_depth (self w)) (_count (self w) + 1))
                        (cache w) (env_of w) in
      valid_actions ← get_valid_actions (env_of w0) (player_index (env_of w0));
      '(scores, w1) ← for_each valid_actions
                         (negamax_action loop_fuel (_negamax fuel loop_fuel)
                            (backup (env_of w0)) (player_index (env_of w0)) depth)
                         (replicate (Z.to_nat (action_space_n (env_of w0))) (-999), w0);
      Ok (scores, mkWorld (self w1) (cache_put (cache w1) (np_str (field (env_of w))) scores)
                          (env_of w1))
  end.
Proof. reflexivity. Qed.

Lemma cache_good_put (c : cache_t) (k : array_str) (v : list Z) :
  cache_good c → good v → cache_good (cache_put c k v).
Proof.
  intros Hc Hv k' v'. unfold cache_put. simpl.
  case_decide; [by intros [= <-] | apply Hc].
Qed.

Lemma has_legal_cell_legal (e : env) :
  has_legal_cell e (player_index e) ↔ ∃ a, legal e a.
Proof.
  unfold has_legal_cell, legal. split.
  - intros (a & dl & L & Ha & Hdl & HL & Hne). exists a. split; [done|]. by exists dl, L.
  - intros (a & Ha & dl & L & Hdl & HL & Hne). by exists a, dl, L.
Qed.

(** The search returns at every node of a supported board, and its
    vector scores the legal actions within [-500, 500]. *)
Lemma negamax_ok (loop_fuel : nat) (md : Z) (fuel : nat) :
  ∀ w depth,
    node_ok loop_fuel (env_of w) → cache_good (cache w) →
    max_depth (self w) = md →
    md - depth + 2 ≤ Z.of_nat fuel → (1 ≤ fuel)%nat →
    ∃ scores w',
      _negamax fuel loop_fuel w depth = Ok (scores, w') ∧
      good scores ∧ cache_good (cache w') ∧ max_depth (self w') = md ∧
      (cache_get (cache w) (np_str (field (env_of w))) = None → scores_ok (env_of w) scores).
Proof.
  induction fuel as [|fuel IH]; intros w depth Hnode Hcache Hmd Hfuel Hone; [lia|].
  rewrite negamax_unfold.
  destruct (cache_get (cache w) (np_str (field (env_of w)))) as [cached|] eqn:Hhit.
  { exists cached, w. split; [done|]. split; [by apply (Hcache _ _ Hhit)|]. done. }
  cbn zeta. cbn [env_of].
  pose proof Hnode as (Hwf & Hcells & Hsup & Hhas & Hlf).
  destruct (get_valid_actions_spec _ Hwf) as (valid & -> & Hnd & Hvalid).
  rewrite bind_Ok.
  set (w0 := mkWorld _ (cache w) (env_of w)).
  destruct (negamax_loop_ok loop_fuel (_negamax fuel loop_fuel) (env_of w) depth md Hnode)
    with (pending := valid)
         (scores := replicate (Z.to_nat (action_space_n (env_of w))) (-999)) (w := w0)
    as (scores & w1 & -> & [Hlen Hent] & Hc1 & Hmd1 & Hdone & _).
  - intros Hdepth w1 Hn1 Hc1 Hm1. 
    destruct (IH w1 (depth + 1) Hn1 Hc1 Hm1 ltac:(lia) ltac:(lia))
      as (ns & w2 & Hns & Hg & Hc2 & Hm2 & _).
    by exists ns, w2.
  - intros a Ha. by apply Hvalid.
  - split; [by rewrite length_replicate|]. intros a Ha.
    exists (-999). split; [apply lookup_replicate_2; lia | by left].
  - done.
  - done.
  - rewrite bind_Ok. eexists _, _. split; [reflexivity|].
    assert (Hok : scores_ok (env_of w) scores).
    { split; [done|]. intros a Ha. destruct (Hent a Ha) as (x & Hx & Hcase).
      exists x. split; [done|]. destruct Hcase as [-> | [Hxok Hl]]; [|by left].
      right. split; [|done]. intros Hl. apply Hvalid in Hl.
      destruct (Hdone a Hl) as (x' & Hx' & Hok'). unfold entry_ok in Hok'.
      rewrite Hx in Hx'. injection Hx' as <-. lia. }
    assert (Hgood : good scores).
    { apply has_legal_cell_legal in Hhas as [a Ha].
      destruct (Hdone a ltac:(by apply Hvalid)) as (x & Hx & Hxok).
      apply (good_intro scores (Z.to_nat a) x Hx Hxok).
      apply Forall_forall. intros y Hy.
      apply list_elem_of_lookup in Hy as [k Hk].
      assert (Hkl : (k < length scores)%nat) by (by apply lookup_lt_Some in Hk).
      destruct (Hent (Z.of_nat k) ltac:(lia)) as (y' & Hy' & Hcase).
      rewrite Nat2Z.id, Hk in Hy'. injection Hy' as <-.
      destruct Hcase as [-> | [Hyok _]]; [lia | unfold entry_ok in Hyok; lia]. }
    split; [done|]. split; [by apply cache_good_put|]. split; [done|]. done.
Qed.

Lemma np_max_attained (v : list Z) (m : Z) :
  np_max v = Ok m → ∃ k, v !! k = Some m.
Proof. intros Hm. apply np_max_spec in Hm as [_ Hin]. by apply list_elem_of_lookup. Qed.

(** On a supported board, starting from an empty cache, the policy
    returns a legal action whatever the draw. *)
Lemma call_policy_legal_supported (fuel loop_fuel : nat) (me : cpu) (e : env) (pick : nat) :
  node_ok loop_fuel e →
  max_depth me + 2 ≤ Z.of_nat fuel → (1 ≤ fuel)%nat →
  ∃ a me' c', call_policy fuel loop_fuel me [] e pick = Ok (a, me', c') ∧ legal e a.
Proof.
  intros Hnode Hfuel Hone. unfold call_policy.
  destruct (negamax_ok loop_fuel (max_depth me) fuel (mkWorld (mkCpu (max_depth me) 0) [] e) 0)
    as (scores & w' & -> & (m & Hm & Hmok) & _ & _ & Hok); [done | done | done | lia | done |].
  destruct (Hok eq_refl) as [Hlen Hent]. cbn [env_of] in *.
  rewrite bind_Ok, Hm, bind_Ok.
  set (best := filter (λ a : Z, scores !! Z.to_nat a = Some m)
                      (range (Z.of_nat (length scores)))).
  assert (Hbest : ∀ a, a ∈ best → legal e a).
  { intros a Ha. apply list_elem_of_filter in Ha as [Ha Hr]. apply elem_of_range in Hr.
    destruct (Hent a ltac:(lia)) as (x & Hx & [[Hl _] | [_ ->]]); [done|].
    rewrite Ha in Hx. injection Hx as ->. unfold entry_ok in Hmok. lia. }
  assert (Hne : (0 < length best)%nat).
  { destruct (np_max_attained scores m Hm) as [k Hk].
    assert (Hin : Z.of_nat k ∈ best).
    { apply list_elem_of_filter. split; [by rewrite Nat2Z.id|].
      apply elem_of_range. apply lookup_lt_Some in Hk. lia. }
    destruct best; [by apply elem_of_nil in Hin | simpl; lia]. }
  destruct (lookup_lt_is_Some_2 best (pick `mod` length best)%nat) as [a Ha].
  { apply Nat.mod_upper_bound. lia. }
  rewrite Ha. exists a, (self w'), (cache w'). split; [done|].
  apply Hbest. by eapply list_elem_of_lookup_2.
Qed.

(** ** The depth limit and the leaves *)

Lemma negamax_action_leaf (loop_fuel : nat) (recurse : world → Z → res (list Z * world))
    (node : env) (depth : Z) (scores : list Z) (w : world) (a y : Z) :
  depth > max_depth (self w) →
  0 ≤ a < Z.of_nat (length scores) →
  leaf_entry loop_fuel node a = Ok y →
  ∃ e2, negamax_action loop_fuel recurse (backup node) (player_index node) depth
          (scores, w) a = Ok (<[Z.to_nat a := y]> scores, with_env w e2).
Proof.
  intros Hdepth Ha Hleaf. unfold leaf_entry in Hleaf.
  bind_inv Hleaf er Her. destruct er as [e2 r].
  assert (Hset : ∀ v, py_set scores a v = Ok (<[Z.to_nat a := v]> scores))
    by (intros v; by apply py_set_in_range).
  unfold negamax_action. rewrite call_step_after_restore, Her, bind_Ok.
  cbn [self with_env]. exists e2.
  destruct (done r).
  - injection Hleaf as <-. rewrite Hset, bind_Ok. unfold reward_of.
    by case_bool_decide.
  - rewrite bool_decide_eq_true_2 by done.
    bind_inv Hleaf v Hv. injection Hleaf as <-.
    rewrite Hv, bind_Ok, Hset, bind_Ok.
    destruct (decide (player_index node = 0)) as [Hp | Hp].
    + rewrite (bool_decide_eq_true_2 _ Hp).
      rewrite bool_decide_eq_false_2 by (intros Hc; by apply Hc). by rewrite bind_Ok.
    + rewrite (bool_decide_eq_false_2 _ Hp).
      rewrite bool_decide_eq_true_2 by done.
      rewrite (py_get_in_range _ a v); [|lia|apply list_lookup_insert_eq; lia].
      rewrite bind_Ok, py_set_in_range by (rewrite length_insert; lia).
      by rewrite bind_Ok, list_insert_insert_eq.
Qed.

Lemma leaf_entry_total (loop_fuel : nat) (node : env) (b : Z) :
  node_ok loop_fuel node → legal node b →
  ∃ y, leaf_entry loop_fuel node b = Ok y.
Proof.
  intros (Hwf & Hcells & Hsup & _ & Hfuel) Hb.
  destruct (call_step_legal_summary loop_fuel node b Hwf Hb Hfuel)
    as (e2 & r & Hcall & Hwf2 & HW2 & HH2 & _).
  unfold leaf_entry. rewrite Hcall, bind_Ok.
  destruct (done r); [eauto|].
  rewrite (board_eval_supported e2); [rewrite bind_Ok; eauto | by destruct Hwf2 |].
  unfold supported in *. by rewrite HW2, HH2.
Qed.

(** The loop of a node beyond the depth limit: the cache and the worker
    are not touched, every action of the list gets its leaf score. *)
Lemma leaf_loop (loop_fuel : nat) (recurse : world → Z → res (list Z * world))
    (node : env) (depth : Z) (pending : list Z) :
  node_ok loop_fuel node →
  (∀ b, b ∈ pending → legal node b) →
  ∀ scores w,
    depth > max_depth (self w) →
    length scores = Z.to_nat (action_space_n node) →
    ∃ scores' w',
      for_each pending (negamax_action loop_fuel recurse (backup node) (player_index node) depth)
        (scores, w) = Ok (scores', w') ∧
      self w' = self w ∧ cache w' = cache w ∧
      length scores' = length scores ∧
      (∀ b, b ∈ pending → ∃ y, scores' !! Z.to_nat b = Some y ∧ leaf_entry loop_fuel node b = Ok y) ∧
      (∀ b, 0 ≤ b → b ∉ pending → scores' !! Z.to_nat b = scores !! Z.to_nat b) ∧
      (∀ b y, 0 ≤ b → scores !! Z.to_nat b = Some y → leaf_entry loop_fuel node b = Ok y →
              scores' !! Z.to_nat b = Some y).
Proof.
  intros Hnode. induction pending as [|b pending IH]; intros Hlegal scores w Hdepth Hlen.
  - exists scores, w. split; [done|]. repeat (split; [done|]). split.
    + intros b Hb. by apply elem_of_nil in Hb.
    + split; [done | eauto].
  - rewrite for_each_cons.
    assert (Hb : legal node b) by (apply Hlegal; left). pose proof Hb as [Hrange _].
    destruct (leaf_entry_total loop_fuel node b Hnode Hb) as [y Hy].
    destruct (negamax_action_leaf loop_fuel recurse node depth scores w b y Hdepth
                ltac:(lia) Hy) as [e2 ->].
    rewrite bind_Ok.
    destruct (IH ltac:(intros b' Hb'; apply Hlegal; by right)
                 (<[Z.to_nat b := y]> scores) (with_env w e2) Hdepth
                 ltac:(by rewrite length_insert))
      as (scores' & w' & -> & Hself & Hcache & Hlen' & Hpending & Hrest & Hkeep).
    exists scores', w'. split; [done|]. split; [done|]. split; [done|].
    split; [by rewrite Hlen', length_insert|]. split; [|split].
    + intros b' Hb'. apply elem_of_cons in Hb' as [-> | Hb']; [|by apply Hpending].
      exists y. split; [|done]. apply Hkeep; [lia | | done].
      apply list_lookup_insert_eq. lia.
    + intros b' Hb0 Hb'. apply not_elem_of_cons in Hb' as [Hne Hb'].
      rewrite Hrest by done. rewrite list_lookup_insert_ne; [done | lia].
    + intros b' y' Hb0 Hb' Hy'. apply Hkeep; [done | | done].
      destruct (decide (Z.to_nat b' = Z.to_nat b)) as [E | E].
      * assert (b' = b) as -> by lia. rewrite Hy in Hy'. injection Hy' as <-.
        apply list_lookup_insert_eq. lia.
      * by rewrite list_lookup_insert_ne.
Qed.

Lemma legal_decide (e : env) (a : Z) : wf e → legal e a ∨ ¬ legal e a.
Proof.
  intros Hwf. destruct (get_valid_actions_spec e Hwf) as (valid & _ & _ & Hvalid).
  destruct (decide (a ∈ valid)) as [Hin | Hin]; [left | right]; by rewrite <- Hvalid.
Qed.

(** A node beyond the depth limit that the cache does not know: the
    search returns its leaf vector and stores it under the node's key. *)
Lemma negamax_leaf_node (fuel loop_fuel : nat) (w : world) (depth : Z) :
  node_ok loop_fuel (env_of w) →
  depth > max_depth (self w) →
  cache_get (cache w) (np_str (field (env_of w))) = None →
  ∃ v w', _negamax (S fuel) loop_fuel w depth = Ok (v, w') ∧
          leaf_vector loop_fuel (env_of w) v ∧
          cache w' = cache_put (cache w) (np_str (field (env_of w))) v ∧
          max_depth (self w') = max_depth (self w).
Proof.
  intros Hnode Hdepth Hmiss. rewrite negamax_unfold, Hmiss. cbn zeta. cbn [env_of].
  pose proof Hnode as (Hwf & _).
  destruct (get_valid_actions_spec _ Hwf) as (valid & -> & Hnd & Hvalid).
  rewrite bind_Ok.
  set (w0 := mkWorld _ (cache w) (env_of w)).
  destruct (leaf_loop loop_fuel (_negamax fuel loop_fuel) (env_of w) depth valid Hnode
              ltac:(intros b Hb; by apply Hvalid)
              (replicate (Z.to_nat (action_space_n (env_of w))) (-999)) w0
              Hdepth ltac:(by rewrite length_replicate))
    as (v & w1 & -> & Hself & Hcache & Hlen & Hpending & Hrest & _).
  rewrite bind_Ok. exists v.
  eexists. split; [reflexivity|]. cbn [cache self].
  rewrite Hcache, Hself. split; [|done].
  rewrite length_replicate in Hlen. split; [done|].
  intros b Hb. destruct (legal_decide (env_of w) b Hwf) as [Hl | Hl].
  - destruct (Hpending b ltac:(by apply Hvalid)) as (y & Hy & Hleaf).
    exists y. split; [done|]. by left.
  - exists (-999). split; [|by right].
    rewrite Hrest; [apply lookup_replicate_2; lia | lia | by rewrite Hvalid].
Qed.

Lemma negamax_action_done (loop_fuel : nat) (recurse : world → Z → res (list Z * world))
    (e : env) (depth : Z) (scores : list Z) (w : world) (a : Z)
    (e1 : env) (r : step_result) :
  0 ≤ a < Z.of_nat (length scores) →
  call_step loop_fuel e a = Ok (e1, r) → done r = true →
  negamax_action loop_fuel recurse (backup e) (player_index e) depth (scores, w) a
    = Ok (<[Z.to_nat a := reward_of (player_index e) r * 500]> scores, with_env w e1).
Proof.
  intros Ha Hcall Hd. unfold negamax_action.
  rewrite call_step_after_restore, Hcall, bind_Ok, Hd.
  rewrite py_set_in_range by done. rewrite bind_Ok. unfold reward_of.
  by case_bool_decide.
Qed.

Lemma negamax_action_inner (loop_fuel : nat) (recurse : world → Z → res (list Z * world))
    (e : env) (depth : Z) (scores : list Z) (w : world) (a : Z)
    (e1 : env) (r : step_result) (ns : list Z) (w2 : world) (m : Z) :
  0 ≤ a < Z.of_nat (length scores) →
  call_step loop_fuel e a = Ok (e1, r) → done r = false →
  ¬ depth > max_depth (self w) →
  recurse (with_env w e1) (depth + 1) = Ok (ns, w2) →
  np_max ns = Ok m →
  negamax_action loop_fuel recurse (backup e) (player_index e) depth (scores, w) a
    = Ok (<[Z.to_nat a := if bool_decide (player_index e ≠ player_index e1) then - m else m]>
            scores, w2).
Proof.
  intros Ha Hcall Hd Hdepth Hrec Hm. unfold negamax_action.
  rewrite call_step_after_restore, Hcall, bind_Ok, Hd.
  cbn [self with_env]. rewrite (bool_decide_eq_false_2 _ Hdepth).
  rewrite Hrec, bind_Ok, Hm, bind_Ok.
  rewrite py_set_in_range by done. by rewrite bind_Ok.
Qed.

Lemma leaf_vector_max (loop_fuel : nat) (node : env) (v : list Z) :
  has_legal_cell node (player_index node) → leaf_vector loop_fuel node v →
  ∃ m, np_max v = Ok m.
Proof.
  intros Hhas [Hlen Hent]. apply np_max_total.
  apply has_legal_cell_legal in Hhas as [b [Hb _]].
  destruct (Hent b Hb) as (y & Hy & _). intros ->. by rewrite lookup_nil in Hy.
Qed.

Lemma root_loop (fuel loop_fuel : nat) (e : env) (pending : list Z) :
  node_ok loop_fuel e → W e * H e ≤ 1000 →
  NoDup pending → (∀ a, a ∈ pending → legal e a) →
  ∀ scores w,
    length scores = Z.to_nat (action_space_n e) →
    max_depth (self w) = 0 →
    keys_from loop_fuel e pending (cache w) →
    ∃ scores' w',
      for_each pending (negamax_action loop_fuel (_negamax (S fuel) loop_fuel)
                       (backup e) (player_index e) 0) (scores, w) = Ok (scores', w') ∧
      (∀ a, a ∈ pending → ∃ x, scores' !! Z.to_nat a = Some x ∧ two_ply_entry loop_fuel e a x) ∧
      (∀ a x, legal e a → a ∉ pending → scores !! Z.to_nat a = Some x →
              scores' !! Z.to_nat a = Some x).
Proof.
  intros Hnode Hsmall. pose proof Hnode as (Hwf & Hcells & Hsup & _ & Hfuel).
  induction pending as [|a pending IH]; intros Hnd Hlegal scores w Hlen Hmd Hkeys.
  - exists scores, w. split; [done|]. split; [|done].
    intros a Ha. by apply elem_of_nil in Ha.
  - rewrite for_each_cons. apply NoDup_cons in Hnd as [Hnotin Hnd].
    assert (Ha : legal e a) by (apply Hlegal; left). pose proof Ha as [Hrange _].
    destruct (call_step_legal_summary loop_fuel e a Hwf Ha Hfuel)
      as (e1 & r1 & Hcall & Hwf1 & HW1 & HH1 & Hg & Hwas & Hnow & _ & Hdone & Hcont).
    assert (Hidx : 0 ≤ a < Z.of_nat (length scores)) by lia.
    assert (Hstep : ∃ x w1,
               negamax_action loop_fuel (_negamax (S fuel) loop_fuel) (backup e)
                 (player_index e) 0 (scores, w) a = Ok (<[Z.to_nat a := x]> scores, w1) ∧
               two_ply_entry loop_fuel e a x ∧ max_depth (self w1) = 0 ∧
               keys_from loop_fuel e pending (cache w1)).
    { assert (Hkeys' : keys_from loop_fuel e pending (cache w)).
      { intros k v Hk. destruct (Hkeys k v Hk) as (a' & e1' & r1' & Hn & Hrest).
        exists a', e1', r1'. split; [|done]. intros Hin. apply Hn. by right. }
      destruct (done r1) eqn:Hd.
      - eexists _, _. split; [by apply (negamax_action_done _ _ _ _ _ _ _ e1 r1)|].
        split; [|done]. exists e1, r1. split; [done|]. split; [done|].
        intros Hc. congruence.
      - assert (Hnode1 : node_ok loop_fuel e1).
        { split; [done|]. split; [destruct Hg as (_ & _ & Hc); auto|].
          split; [unfold supported in *; by rewrite HW1, HH1|].
          split; [by apply Hcont|]. unfold loop_bound in *. by rewrite HW1, HH1. }
        destruct (negamax_leaf_node fuel loop_fuel (with_env w e1) 1)
          as (v1 & w2 & Hrec & Hleaf & Hc2 & Hmd2); [done | cbn [self with_env]; lia | |].
        { cbn [cache env_of with_env].
          destruct (cache_get (cache w) (np_str (field e1))) as [v|] eqn:Hhit; [|done].
          exfalso. destruct (Hkeys _ _ Hhit) as (a' & e1' & r1' & Hn & Ha' & Hcall' & Heq).
          assert (Hne : a' ≠ a) by (intros ->; apply Hn; left).
          destruct (call_step_legal_summary loop_fuel e a' Hwf Ha' Hfuel)
            as (e1'' & r1'' & Hcall'' & Hwf1' & HW1' & HH1' & _ & _ & _ & Hkeep' & _).
          rewrite Hcall' in Hcall''. injection Hcall'' as <- <-.
          destruct Ha' as [Hr' _].
          specialize (Hkeep' (Z.to_nat a) ltac:(lia) Hwas).
          assert (Hfe : field e1 = field e1').
          { destruct Hwf1 as ((_ & _ & Hl1) & _), Hwf1' as ((_ & _ & Hl1') & _).
            apply np_str_inj; [rewrite Hl1, HW1, HH1; lia | rewrite Hl1', HW1', HH1'; lia | done]. }
          rewrite <- Hfe, Hnow in Hkeep'. injection Hkeep' as Hcol.
          destruct (color_of_pm (player_index e)); lia. }
        cbn [env_of with_env] in *.
        destruct (leaf_vector_max loop_fuel e1 v1 (Hcont eq_refl) Hleaf) as [m Hm].
        eexists _, w2. split.
        { apply (negamax_action_inner _ _ _ _ _ _ _ e1 r1 v1 w2 m); try done. lia. }
        split; [|split; [by rewrite Hmd2|]].
        + exists e1, r1. split; [done|]. split; [intros Hc; congruence|].
          intros _. by exists v1, m.
        + intros k v Hk. rewrite Hc2 in Hk. unfold cache_put in Hk. simpl in Hk.
          case_decide as Ek.
          * exists a, e1, r1. by rewrite <- Ek.
          * by apply (Hkeys' k v). }
    destruct Hstep as (x & w1 & -> & Hx & Hmd1 & Hkeys1). rewrite bind_Ok.
    destruct (IH Hnd ltac:(intros a' Ha'; apply Hlegal; by right)
                 (<[Z.to_nat a := x]> scores) w1 ltac:(by rewrite length_insert) Hmd1 Hkeys1)
      as (scores' & w' & -> & Hpending & Hkeep).
    exists scores', w'. split; [done|]. split.
    + intros a' Ha'. apply elem_of_cons in Ha' as [-> | Ha']; [|by apply Hpending].
      exists x. split; [|done]. apply Hkeep; [done | done |].
      apply list_lookup_insert_eq. lia.
    + intros a' x' Hl' Hn' Hx'. apply not_elem_of_cons in Hn' as [Hne Hn'].
      apply Hkeep; [done | done |]. destruct Hl' as [Hr' _].
      rewrite list_lookup_insert_ne; [done | lia].
Qed.

(** C5 (as amended): with [max_depth = 0] and an empty cache the root
    vector of a supported board of at most 1000 cells is a two-ply
    lookahead.  The entry of a legal action that ends the game is 500
    times the mover's reward; the entry of any other legal action is the
    maximum of the successor's score vector, negated when the turn passed
    to the opponent, and it is the entries of that vector that are static
    evaluations (of the board two moves ahead of the root) or 500-scaled
    terminal rewards.  The bound on the cells is what keeps the cache
    keys of the successors apart: numpy prints a longer board
    abbreviated, and two successors that agree on the cells printed
    share one cache entry. *)
Theorem negamax_depth0_two_ply (fuel loop_fuel : nat) (me : cpu) (e : env) :
  node_ok loop_fuel e → W e * H e ≤ 1000 → max_depth me = 0 → (2 ≤ fuel)%nat →
  ∃ scores w',
    _negamax fuel loop_fuel (mkWorld me [] e) 0 = Ok (scores, w') ∧
    ∀ a, legal e a → ∃ x, scores !! Z.to_nat a = Some x ∧ two_ply_entry loop_fuel e a x.
Proof.
  intros Hnode Hsmall Hmd Hfuel.
  destruct fuel as [|[|fuel]]; [lia | lia |].
  rewrite negamax_unfold. cbn [cache cache_get env_of self]. cbn zeta. cbn [env_of].
  pose proof Hnode as (Hwf & _).
  destruct (get_valid_actions_spec _ Hwf) as (valid & -> & Hnd & Hvalid).
  rewrite bind_Ok.
  destruct (root_loop fuel loop_fuel e valid Hnode Hsmall Hnd
              ltac:(intros a Ha; by apply Hvalid)
              (replicate (Z.to_nat (action_space_n e)) (-999))
              (mkWorld (mkCpu (max_depth me) (_count me + 1)) [] e)
              ltac:(by rewrite length_replicate) Hmd ltac:(by intros k v Hk))
    as (scores & w1 & -> & Hpending & _).
  rewrite bind_Ok. eexists _, _. split; [reflexivity|].
  intros a Ha. by apply Hpending, Hvalid.
Qed.

Lemma node_ok_check (loop_fuel : nat) (e : env) (a : Z) :
  reachable e → supported e → legal e a → (loop_bound e ≤ loop_fuel)%nat →
  node_ok loop_fuel e.
Proof.
  intros Hr Hs Ha Hf. destruct (reachable_wf e Hr) as [Hwf Hc].
  split; [done|]. split; [done|]. split; [done|]. split; [|done].
  apply has_legal_cell_legal. by exists a.
Qed.

Lemma opening8x8_node : node_ok 9 opening8x8.
Proof.
  apply (node_ok_check 9 opening8x8 34).
  - apply (position_reachable 8 8 []); [lia | lia | reflexivity].
  - split; simpl; intros; (done || lia).
  - eapply legal_check; [by vm_compute | reflexivity | reflexivity].
  - vm_compute. lia.
Qed.

Lemma negamax_depth0_two_ply_witness :
  ∃ scores w',
    _negamax 2 9 (mkWorld depth0_cpu [] opening8x8) 0 = Ok (scores, w') ∧
    ∀ a, legal opening8x8 a →
         ∃ x, scores !! Z.to_nat a = Some x ∧ two_ply_entry 9 opening8x8 a x.
Proof.
  apply (negamax_depth0_two_ply 2 9 depth0_cpu opening8x8).
  - exact opening8x8_node.
  - by vm_compute.
  - reflexivity.
  - lia.
Defined.

(** C5 (as stated) fails.  On the 8x8 opening with [max_depth = 0] the
    legal action 34 does not end the game and the board after it evaluates
    to -3, yet its root entry is -1 (neither -3 nor 3): it comes from the
    replies.  On the 4x4 position [mid4x4] the legal action 11 does not end
    the game either, yet its root entry is the terminal value 500 of the
    move after it. *)
Lemma negamax_depth0_single_ply_counterexample :
  max_depth depth0_cpu = 0 ∧
  match _negamax 2 9 (mkWorld depth0_cpu [] opening8x8) 0,
        call_step 9 opening8x8 34 with
  | Ok (scores, _), Ok (e1, r1) =>
      get_valid_actions opening8x8 (player_index opening8x8) = Ok [20; 29; 34; 43] ∧
      done r1 = false ∧ board_eval e1 = Ok (-3) ∧
      scores !! 34%nat = Some (-1)
  | _, _ => False
  end ∧
  match _negamax 2 9 (mkWorld depth0_cpu [] mid4x4) 0,
        call_step 9 mid4x4 11 with
  | Ok (scores, _), Ok (e1, r1) =>
      get_valid_actions mid4x4 (player_index mid4x4) = Ok [7; 8; 11; 13] ∧
      done r1 = false ∧ board_eval e1 = Ok 0 ∧
      scores !! 11%nat = Some 500
  | _, _ => False
  end.
Proof. vm_compute. repeat split; reflexivity. Qed.

(** One round of the loop at a node beyond the depth limit, for an action
    that does not end the game. *)
Lemma negamax_action_cutoff (loop_fuel : nat)
    (recurse : world → Z → res (list Z * world))
    (node : env) (depth : Z) (scores : list Z) (w : world) (a : Z)
    (e2 : env) (r : step_result) :
  depth > max_depth (self w) →
  0 ≤ a < Z.of_nat (length scores) →
  call_step loop_fuel node a = Ok (e2, r) → done r = false →
  board_ok e2 → supported e2 →
  negamax_action loop_fuel recurse (backup node) (player_index node) depth (scores, w) a
    = Ok (<[Z.to_nat a := if bool_decide (player_index node = 0)
                          then table_score e2 else - table_score e2]> scores,
          with_env w e2).
Proof.
  intros Hdepth Ha Hcall Hd Hok Hsup. unfold negamax_action.
  rewrite call_step_after_restore, Hcall, bind_Ok, Hd.
  cbn [self with_env]. rewrite (bool_decide_eq_true_2 _ Hdepth).
  rewrite (board_eval_supported e2 Hok Hsup), bind_Ok.
  rewrite py_set_in_range by done. rewrite bind_Ok.
  destruct (decide (player_index node = 0)) as [Hp | Hp].
  - rewrite (bool_decide_eq_true_2 _ Hp).
    rewrite bool_decide_eq_false_2 by (intros Hc; by apply Hc). by rewrite bind_Ok.
  - rewrite (bool_decide_eq_false_2 _ Hp), bool_decide_eq_true_2 by done.
    rewrite (py_get_in_range _ a (table_score e2)); [|lia|apply list_lookup_insert_eq; lia].
    rewrite bind_Ok, py_set_in_range by (rewrite length_insert; lia).
    by rewrite bind_Ok, list_insert_insert_eq.
Qed.


Lemma after34_node : node_ok 9 after34.
Proof.
  apply (node_ok_check 9 after34 42).
  - apply (position_reachable 8 8 [34]); [lia | lia | reflexivity].
  - split; simpl; intros; (done || lia).
  - eapply legal_check; [by vm_compute | reflexivity | reflexivity].
  - vm_compute. lia.
Qed.

(** C6 (as amended): at a node of a supported board beyond the depth
    limit, which the cache does not hold yet, the search returns a vector
    in which every legal action that does not end the game scores the
    positional value of the board after it (the weights of the 8x8 or 6x6
    table times the cells, 0 for the other widths), negated exactly when
    the mover of that node, the player who makes the move, is not
    player 0. *)
Theorem negamax_cutoff_leaf_score (fuel loop_fuel : nat) (w : world) (depth : Z) :
  node_ok loop_fuel (env_of w) →
  depth > max_depth (self w) →
  cache_get (cache w) (np_str (field (env_of w))) = None →
  ∃ v w',
    _negamax (S fuel) loop_fuel w depth = Ok (v, w') ∧
    ∀ b, legal (env_of w) b →
      ∃ e2 r y,
        call_step loop_fuel (env_of w) b = Ok (e2, r) ∧
        v !! Z.to_nat b = Some y ∧
        (done r = false →
         y = if bool_decide (player_index (env_of w) = 0)
             then table_score e2 else - table_score e2).
Proof.
  intros Hnode Hdepth Hmiss.
  destruct (negamax_leaf_node fuel loop_fuel w depth Hnode Hdepth Hmiss)
    as (v & w' & Hrun & [_ Hent] & _).
  exists v, w'. split; [done|]. intros b Hb.
  destruct Hnode as (Hwf & _ & Hsup & _ & Hfuel).
  destruct (call_step_legal_summary loop_fuel (env_of w) b Hwf Hb Hfuel)
    as (e2 & r & Hcall & Hwf2 & HW2 & HH2 & _).
  pose proof Hb as [Hrange _].
  destruct (Hent b Hrange) as (y & Hy & [[_ Hleaf] | [Hn _]]); [|done].
  exists e2, r, y. split; [done|]. split; [done|]. intros Hd.
  unfold leaf_entry in Hleaf. rewrite Hcall, bind_Ok, Hd in Hleaf.
  rewrite (board_eval_supported e2), bind_Ok in Hleaf.
  - by injection Hleaf as <-.
  - by destruct Hwf2.
  - unfold supported in *. by rewrite HW2, HH2.
Qed.

Lemma negamax_cutoff_leaf_score_witness :
  ∃ v w',
    _negamax 1 9 (mkWorld depth0_cpu [] after34) 1 = Ok (v, w') ∧
    ∀ b, legal (env_of (mkWorld depth0_cpu [] after34)) b →
      ∃ e2 r y,
        call_step 9 (env_of (mkWorld depth0_cpu [] after34)) b = Ok (e2, r) ∧
        v !! Z.to_nat b = Some y ∧
        (done r = false →
         y = if bool_decide (player_index (env_of (mkWorld depth0_cpu [] after34)) = 0)
             then table_score e2 else - table_score e2).
Proof.
  apply (negamax_cutoff_leaf_score 0 9 (mkWorld depth0_cpu [] after34) 1).
  - exact after34_node.
  - simpl. lia.
  - reflexivity.
Defined.

(** C6 (as stated) fails.  In the search from the 8x8 opening, root mover
    player 0, with [max_depth = 0], the node after the move 34 has depth 1
    and mover player 1; its action 42 does not end the game and leaves a
    board of positional value -1; the vector the search computes for that
    node, found in the cache after the root search, scores the action 1:
    the sign is inverted although the root mover is player 0. *)
Lemma negamax_leaf_sign_counterexample :
  player_index opening8x8 = 0 ∧
  match call_step 9 opening8x8 34 with
  | Ok (e1, r1) =>
      done r1 = false ∧ player_index e1 = 1 ∧
      match _negamax 2 9 (mkWorld depth0_cpu [] opening8x8) 0,
            _negamax 1 9 (mkWorld depth0_cpu [] e1) 1,
            call_step 9 e1 42 with
      | Ok (_, w), Ok (v1, _), Ok (e2, r2) =>
          cache_get (cache w) (np_str (field e1)) = Some v1 ∧
          done r2 = false ∧
          table_score e2 = -1 ∧
          v1 !! 42%nat = Some 1 ∧
          root_signed_score (player_index opening8x8) e2 = -1
      | _, _, _ => False
      end
  | _ => False
  end.
Proof. vm_compute. repeat split; reflexivity. Qed.

(** C10 fails on the 8x4 board: player 0 has four legal actions in the
    opening position, and the default worker, starting from an empty
    cache, raises [ValueError] (the 64 weights of the 8x8 table against 32
    cells) instead of returning one of them, whatever the draw. *)
Theorem call_policy_raises_8x4 (pick : nat) :
  get_valid_actions opening8x4 (player_index opening8x4) = Ok [4; 13; 18; 27] ∧
  call_policy 4 9 default_cpu [] opening8x4 pick = Raise ValueError ∧
  call_policy 40 90 default_cpu [] opening8x4 pick = Raise ValueError.
Proof. vm_compute. repeat split; reflexivity. Qed.
(** * Further properties *)

(** ** Coordinates *)

(** X1: [pos] and [pos_decode] are inverse to each other on a board of
    positive width: decoding the index of the cell [(x, y)] with [x] inside
    the row gives [(x, y)] back, and every action index, negative ones
    included, decodes to a column inside the row and a row that [pos] maps
    back to the index. *)
Theorem pos_decode_round_trip (s : env) (x y a : Z) :
  0 < W s →
  (0 ≤ x < W s → pos_decode s (pos s x y) = Ok (x, y)) ∧
  (∃ x' y', pos_decode s a = Ok (x', y') ∧ 0 ≤ x' < W s ∧ pos s x' y' = a).
Proof.
  intros HW. unfold pos_decode, pos.
  rewrite bool_decide_eq_false_2 by lia. split.
  - intros Hx. f_equal. f_equal.
    + rewrite Z.add_comm, Z.mul_comm, Z.mod_add by lia. by apply Z.mod_small.
    + rewrite Z.add_comm, Z.mul_comm, Z.div_add by lia.
      rewrite Z.div_small by lia. lia.
  - exists (a `mod` W s), (a `div` W s). split; [done|].
    split; [apply Z.mod_pos_bound; lia|].
    pose proof (Z.div_mod a (W s) ltac:(lia)). lia.
Qed.

Lemma pos_decode_round_trip_witness :
  0 < W opening8x8 ∧
  pos_decode opening8x8 (pos opening8x8 2 4) = Ok (2, 4) ∧
  ∃ x' y', pos_decode opening8x8 (-3) = Ok (x', y') ∧ 0 ≤ x' < 8 ∧ pos opening8x8 x' y' = -3.
Proof.
  split; [vm_compute; reflexivity|].
  destruct (pos_decode_round_trip opening8x8 2 4 (-3)) as [H1 H2]; [vm_compute; reflexivity|].
  split; [apply H1; cbn; lia | exact H2].
Defined.

Lemma set_field_written (s : env) (x y n : Z) :
  board_ok s → on_board s x y → - 2 ^ 63 ≤ n < 2 ^ 63 →
  ∃ s', set_field s x y n = Ok s' ∧
        board_ok s' ∧ W s' = W s ∧ H s' = H s ∧
        _player_index s' = _player_index s ∧ movable_dirs s' = movable_dirs s ∧
        get_field s' x y = Ok n ∧
        ∀ u w, ¬ (u = x ∧ w = y) → get_field s' u w = get_field s u w.
Proof.
  intros Hok [Hx Hy] Hn.
  exists (with_field s (<[Z.to_nat (pos s x y) := n]> (field s))).
  split; [by apply set_field_on_board|].
  assert (Hok' : board_ok (with_field s (<[Z.to_nat (pos s x y) := n]> (field s))))
    by (apply board_ok_with_field; [done | by rewrite length_insert]).
  split; [done|]. do 4 (split; [done|]).
  split.
  - rewrite get_field_cell by done. rewrite cell_with_field_insert by done.
    by rewrite decide_True.
  - intros u w Hne. rewrite !get_field_cell by done.
    rewrite cell_with_field_insert by done. by rewrite decide_False.
Qed.

Lemma set_field_overflow (s : env) (x y n : Z) :
  board_ok s → on_board s x y → ¬ (- 2 ^ 63 ≤ n < 2 ^ 63) →
  set_field s x y n = Raise OverflowError.
Proof.
  intros (HW & HH & Hlen) [Hx Hy] Hn. unfold set_field, np_set.
  pose proof (pos_in_range (W s) (H s) x y Hx Hy).
  rewrite py_index_in_range by lia. rewrite bind_Ok.
  by rewrite bool_decide_eq_false_2.
Qed.

(** X2: on a board, [set_field] of a value that a 64 bit integer holds, at
    a position of the board, returns, and [get_field] then reads the
    written value at that position and the old value everywhere else, off
    the board included; the dimensions, the mover and the direction maps
    are not touched.  A value outside the 64 bit integers raises
    [OverflowError]. *)
Theorem set_field_get_field (s : env) (x y n : Z) :
  board_ok s → on_board s x y →
  (- 2 ^ 63 ≤ n < 2 ^ 63 →
   ∃ s', set_field s x y n = Ok s' ∧
         board_ok s' ∧ W s' = W s ∧ H s' = H s ∧
         _player_index s' = _player_index s ∧ movable_dirs s' = movable_dirs s ∧
         get_field s' x y = Ok n ∧
         ∀ u w, ¬ (u = x ∧ w = y) → get_field s' u w = get_field s u w) ∧
  (¬ (- 2 ^ 63 ≤ n < 2 ^ 63) → set_field s x y n = Raise OverflowError).
Proof.
  intros Hok Hxy. split.
  - intros Hn. by apply set_field_written.
  - intros Hn. by apply set_field_overflow.
Qed.

Lemma set_field_get_field_witness :
  (∃ s', set_field opening8x8 2 4 1 = Ok s' ∧ get_field s' 2 4 = Ok 1 ∧
         get_field s' 3 4 = get_field opening8x8 3 4) ∧
  set_field opening8x8 2 4 (2 ^ 63) = Raise OverflowError.
Proof.
  split.
  - destruct (set_field_get_field opening8x8 2 4 1) as [Hin _].
    + by vm_compute.
    + unfold on_board. cbn. lia.
    + destruct Hin as (s' & Hs & _ & _ & _ & _ & _ & Hg & Hf); [lia|].
      exists s'. split; [done|]. split; [done|]. apply Hf. intros [? _]. done.
  - destruct (set_field_get_field opening8x8 2 4 (2 ^ 63)) as [_ Hout].
    + by vm_compute.
    + unfold on_board. cbn. lia.
    + apply Hout. lia.
Defined.

(** X3: [set_field] does not look at the coordinates: one column to the
    left of the board, where [get_field] answers 9, it writes a value
    that a 64 bit integer holds to the last cell of the row above, and
    from row 0 to the last cell of the board. *)
Theorem set_field_wraps (s : env) (y n : Z) :
  board_ok s → 0 < W s → 0 ≤ y < H s → - 2 ^ 63 ≤ n < 2 ^ 63 →
  get_field s (-1) y = Ok 9 ∧
  ∃ s', set_field s (-1) y n = Ok s' ∧
        get_field s' (W s - 1) ((y - 1) `mod` H s) = Ok n.
Proof.
  intros Hok HW Hy Hn. split; [done|].
  pose proof Hok as (_ & HH & Hlen).
  assert (Hy' : 0 ≤ (y - 1) `mod` H s < H s) by (apply Z.mod_pos_bound; lia).
  assert (Hx' : 0 ≤ W s - 1 < W s) by lia.
  destruct (set_field_written s (W s - 1) ((y - 1) `mod` H s) n Hok (conj Hx' Hy') Hn)
    as (s' & Hs & _ & _ & _ & _ & _ & Hg & _).
  exists s'. split; [|done]. rewrite <- Hs.
  unfold set_field. rewrite !np_set_py_set by done.
  assert (HN : 0 < W s * H s) by (apply Z.mul_pos_pos; lia).
  destruct (decide (y = 0)) as [-> | Hy0].
  - replace ((0 - 1) `mod` H s) with (H s - 1).
    2:{ apply (Z.mod_unique _ _ (-1)); lia. }
    unfold py_set, py_index.
    rewrite bool_decide_eq_false_2 by lia.
    rewrite bool_decide_eq_true_2 by lia.
    rewrite bool_decide_eq_true_2 by (pose proof (pos_in_range (W s) (H s) (W s - 1) (H s - 1)); lia).
    simpl. do 3 f_equal. lia.
  - rewrite Z.mod_small by lia. do 2 f_equal. lia.
Qed.

Lemma set_field_wraps_witness :
  get_field opening8x8 (-1) 4 = Ok 9 ∧
  ∃ s', set_field opening8x8 (-1) 4 1 = Ok s' ∧ get_field s' 7 3 = Ok 1.
Proof.
  destruct (set_field_wraps opening8x8 4 1) as [Hg (s' & Hs & Hg')].
  - by vm_compute.
  - cbn. lia.
  - cbn. lia.
  - lia.
  - split; [done|]. exists s'. split; [done|]. exact Hg'.
Defined.

(** ** Resets *)




Lemma quot2_bounds (n : Z) : 2 ≤ n → 0 ≤ Z.quot n 2 - 1 ∧ Z.quot n 2 - 1 + 1 < n.
Proof.
  intros Hn. rewrite Z.quot_div_nonneg by lia.
  pose proof (Z.div_mod n 2 ltac:(lia)). pose proof (Z.mod_pos_bound n 2 ltac:(lia)). lia.
Qed.




(** [call_reset] reads the dimensions only. *)
Lemma call_reset_dims (fuel : nat) (s s' : env) :
  W s' = W s → H s' = H s → call_reset fuel s' = call_reset fuel s.
Proof.
  intros EW EH. unfold call_reset, set_field.
  cbn [W H with_field with_action with_player_index field]. rewrite ?EW, ?EH.
  destruct (np_zeros (W s * H s)) as [f0| |]; [|done..]. rewrite !bind_Ok.
  cbn [W H with_field with_action with_player_index field]. rewrite ?EW, ?EH.
  destruct (np_set f0 _ 1) as [f1| |]; [|done..]. rewrite !bind_Ok.
  cbn [W H with_field with_action with_player_index field]. rewrite ?EW, ?EH.
  destruct (np_set f1 _ 1) as [f2| |]; [|done..]. rewrite !bind_Ok.
  cbn [W H with_field with_action with_player_index field]. rewrite ?EW, ?EH.
  destruct (np_set f2 _ (-1)) as [f3| |]; [|done..]. rewrite !bind_Ok.
  cbn [W H with_field with_action with_player_index field]. rewrite ?EW, ?EH.
  destruct (np_set f3 _ (-1)) as [f4| |]; [|done..]. rewrite !bind_Ok.
  set (t' := with_field _ f4). set (t := with_field _ f4).
  assert (Hsb : same_board t t') by (repeat split; simpl; done).
  rewrite !(calc_movable_dirs_same_board fuel t t') by done.
  destruct (_calc_movable_dirs fuel t 0) as [d0| |]; [|done..]. rewrite !bind_Ok.
  destruct (_calc_movable_dirs fuel t 1) as [d1| |]; [|done..]. rewrite !bind_Ok.
  unfold with_movable_dirs, t, t'. simpl. by rewrite EW, EH.
Qed.

Lemma call_step_dims (fuel : nat) (s s' : env) (a : Z) (r : step_result) :
  call_step fuel s a = Ok (s', r) → W s' = W s ∧ H s' = H s.
Proof.
  unfold call_step. intros Hc.
  bind_inv Hc dirs_p Hdp. bind_inv Hc dirs Hd.
  case_bool_decide.
  { by case_bool_decide; injection Hc as <- <-. }
  bind_inv Hc s1 Hs1. bind_inv Hc inv_e Hie. bind_inv Hc inv_m Him.
  destruct (step_inv _ _ _ _ Hs1) as (f & d0 & d1 & -> & _).
  repeat case_bool_decide; simpl in Hc;
    repeat case_bool_decide; by injection Hc as <- <-.
Qed.

(** X5: a reset wipes out the game: after any sequence of steps that
    returned, [call_reset] gives exactly what it gives on the state the
    steps started from. *)
Theorem call_reset_after_play (fuel fuel' : nat) (s s' : env) (actions : list Z) :
  play fuel s actions = Ok s' →
  call_reset fuel' s' = call_reset fuel' s.
Proof.
  revert s. induction actions as [|a rest IH]; intros s Hp.
  - by injection Hp as <-.
  - simpl in Hp. bind_inv Hp sr Hsr. destruct sr as [s1 r].
    rewrite (IH s1 Hp).
    destruct (call_step_dims _ _ _ _ _ Hsr) as [EW EH]. by apply call_reset_dims.
Qed.

Lemma call_reset_after_play_witness :
  play 9 opening8x8 [34; 20] = Ok (or_fresh 8 8 (position 8 8 [34; 20])) ∧
  call_reset 9 (or_fresh 8 8 (position 8 8 [34; 20])) = call_reset 9 opening8x8.
Proof.
  split; [by vm_compute|].
  apply (call_reset_after_play 9 9 opening8x8 _ [34; 20]). by vm_compute.
Defined.

(** ** States of a game *)

Lemma opening8x8_reachable : reachable opening8x8.
Proof.
  apply (reach_reset 9 (fresh 8 8) opening8x8 (field opening8x8)); [simpl; lia | simpl; lia|].
  reflexivity.
Qed.

(** X6: every state of a game is well formed: one cell per position, each
    empty or holding a stone, a mover that is 0 or 1, and direction maps
    that are those the scanner computes from the cells, so the maps are
    never out of date. *)
Theorem reachable_state_invariant (fuel : nat) (s : env) :
  reachable s → (loop_bound s ≤ fuel)%nat →
  0 ≤ W s ∧ 0 ≤ H s ∧
  length (field s) = Z.to_nat (W s * H s) ∧
  cells_ok (field s) ∧
  (player_index s = 0 ∨ player_index s = 1) ∧
  ∃ d0 d1, _calc_movable_dirs fuel s 0 = Ok d0 ∧
           _calc_movable_dirs fuel s 1 = Ok d1 ∧
           movable_dirs s = [d0; d1].
Proof.
  intros Hreach Hfuel.
  destruct (reachable_wf s Hreach) as [(Hok & Hp & f0 & d0 & d1 & Hd0 & Hd1 & Hm) Hcells].
  pose proof Hok as (HW & HH & Hlen).
  do 5 (split; [done|]).
  exists d0, d1.
  destruct (calc_movable_dirs_total fuel s 0 Hok Hfuel) as (e0 & He0 & _).
  destruct (calc_movable_dirs_total fuel s 1 Hok Hfuel) as (e1 & He1 & _).
  pose proof (calc_movable_dirs_mono fuel (Nat.max fuel f0) s 0 e0 ltac:(lia) He0) as A0.
  pose proof (calc_movable_dirs_mono f0 (Nat.max fuel f0) s 0 d0 ltac:(lia) Hd0) as B0.
  pose proof (calc_movable_dirs_mono fuel (Nat.max fuel f0) s 1 e1 ltac:(lia) He1) as A1.
  pose proof (calc_movable_dirs_mono f0 (Nat.max fuel f0) s 1 d1 ltac:(lia) Hd1) as B1.
  rewrite A0 in B0. rewrite A1 in B1. injection B0 as ->. injection B1 as ->. done.
Qed.

Lemma reachable_state_invariant_witness :
  0 ≤ W after34 ∧ 0 ≤ H after34 ∧
  length (field after34) = Z.to_nat (W after34 * H after34) ∧
  cells_ok (field after34) ∧
  (player_index after34 = 0 ∨ player_index after34 = 1) ∧
  ∃ d0 d1, _calc_movable_dirs 9 after34 0 = Ok d0 ∧
           _calc_movable_dirs 9 after34 1 = Ok d1 ∧
           movable_dirs after34 = [d0; d1].
Proof.
  apply (reachable_state_invariant 9 after34).
  - apply (position_reachable 8 8 [34]); [lia | lia | reflexivity].
  - vm_compute. lia.
Defined.

(** X7: a game never gets stuck: whenever a step in a state of a game
    returns with the episode still running, the player it leaves to move
    has a cell to play. *)
Theorem call_step_mover_can_move (fuel : nat) (s s' : env) (a : Z) (r : step_result) :
  reachable s → (loop_bound s ≤ fuel)%nat → 0 ≤ a < W s * H s →
  call_step fuel s a = Ok (s', r) → done r = false →
  has_legal_cell s' (player_index s').
Proof.
  intros Hreach Hfuel Ha Hc Hdone.
  destruct (reachable_wf s Hreach) as [Hwf _].
  assert (Hlegal : legal s a).
  { split; [done|]. revert Hc. unfold call_step. intros Hc.
    bind_inv Hc dirs_p Hdp. bind_inv Hc dirs Hd.
    case_bool_decide as Hlen.
    - case_bool_decide; injection Hc as <- <-; done.
    - exists dirs_p, dirs. repeat split; [done..|].
      intros ->. by apply Hlen. }
  destruct (call_step_legal_summary fuel s a Hwf Hlegal Hfuel)
    as (e1 & r1 & Hc1 & _ & _ & _ & _ & _ & _ & _ & _ & Hmove).
  rewrite Hc in Hc1. injection Hc1 as <- <-. by apply Hmove.
Qed.

Lemma call_step_mover_can_move_witness :
  ∃ s' r, call_step 9 opening8x8 34 = Ok (s', r) ∧ done r = false ∧
          has_legal_cell s' (player_index s').
Proof.
  exists after34, (mkStep (field after34) 0 0 false []).
  split; [by vm_compute|]. split; [done|].
  apply (call_step_mover_can_move 9 opening8x8 after34 34 (mkStep (field after34) 0 0 false [])).
  - exact opening8x8_reachable.
  - vm_compute. lia.
  - cbn. lia.
  - by vm_compute.
  - done.
Defined.

(** ** Snapshots *)

Lemma call_step_action (fuel : nat) (s s' : env) (a : Z) (r : step_result) :
  call_step fuel s a = Ok (s', r) → action s' = a.
Proof.
  unfold call_step. intros Hc.
  bind_inv Hc dirs_p Hdp. bind_inv Hc dirs Hd.
  case_bool_decide.
  { by case_bool_decide; injection Hc as <- <-. }
  bind_inv Hc s1 Hs1. bind_inv Hc inv_e Hie. bind_inv Hc inv_m Him.
  destruct (step_inv _ _ _ _ Hs1) as (f & d0 & d1 & -> & _).
  repeat case_bool_decide; simpl in Hc;
    repeat case_bool_decide; by injection Hc as <- <-.
Qed.

(** X8: [restore] undoes a step: restoring the snapshot taken before a
    step gives back the state the step started from, except that the
    action of the step stays recorded as the last action; the snapshot read
    back is the one restored, and every step from the restored environment
    is the step from the original state. *)
Theorem restore_undoes_step (fuel : nat) (s s' : env) (a : Z) (r : step_result) :
  call_step fuel s a = Ok (s', r) →
  restore s' (backup s) = with_action s a ∧
  backup (restore s' (backup s)) = backup s ∧
  ∀ fuel' b, call_step fuel' (restore s' (backup s)) b = call_step fuel' s b.
Proof.
  intros Hc. apply call_step_action in Hc.
  split; [by rewrite restore_backup, Hc|]. split; done.
Qed.

Lemma restore_undoes_step_witness :
  restore after34 (backup opening8x8) = with_action opening8x8 34 ∧
  backup (restore after34 (backup opening8x8)) = backup opening8x8 ∧
  ∀ fuel' b, call_step fuel' (restore after34 (backup opening8x8)) b
             = call_step fuel' opening8x8 b.
Proof.
  apply (restore_undoes_step 9 opening8x8 after34 34 (mkStep (field after34) 0 0 false [])).
  by vm_compute.
Defined.

(** ** The length of a game *)

Lemma count_nonempty_le_length (l : list Z) : count_nonempty l ≤ Z.of_nat (length l).
Proof. unfold count_nonempty. pose proof (length_filter (λ f, f ≠ 0) l). lia. Qed.

(** What a legal move that returned did to the board. *)
Lemma call_step_legal_result (fuel : nat) (s s1 : env) (a : Z) (r : step_result) :
  wf s → legal s a → (loop_bound s ≤ fuel)%nat →
  call_step fuel s a = Ok (s1, r) →
  ∃ t, _step fuel (with_action s a) a = Ok t ∧ field s1 = field t ∧
       W s1 = W s ∧ H s1 = H s ∧
       count_nonempty (field s1) = count_nonempty (field s) + 1.
Proof.
  intros Hwf Hlegal Hfuel Hc.
  destruct (call_step_legal fuel s a Hwf Hlegal Hfuel)
    as (t & Hstep & Hwft & _ & HWt & HHt & _ & Hcnt & _ & _ & _ & Hover & Hpass & Hnext).
  exists t. split; [done|].
  assert (Hop : opponent (player_index s) = 0 ∨ opponent (player_index s) = 1)
    by (unfold opponent; case_bool_decide; auto).
  destruct Hwf as (_ & Hp & _).
  assert (Hs1 : s1 = t ∨ s1 = with_player_index t (opponent (player_index s))).
  { destruct (legal_cell_decide t _ Hwft Hop) as [He | He].
    - rewrite (Hnext He) in Hc. injection Hc as <- _. by right.
    - destruct (legal_cell_decide t _ Hwft Hp) as [Hm | Hm].
      + rewrite (Hpass He Hm) in Hc. injection Hc as <- _. by left.
      + rewrite (Hover He Hm) in Hc. injection Hc as <- _. by left. }
  destruct Hs1 as [-> | ->]; done.
Qed.

(** X9: from a state of a game, every legal move adds one stone, so a
    sequence of legal moves is no longer than the number of empty cells and
    the number of stones never exceeds [max_episode_steps]. *)
Theorem legal_run_length (fuel : nat) (s s' : env) (actions : list Z) :
  reachable s → (loop_bound s ≤ fuel)%nat →
  legal_run fuel s actions s' →
  count_nonempty (field s') = count_nonempty (field s) + Z.of_nat (length actions) ∧
  count_nonempty (field s) + Z.of_nat (length actions) ≤ max_episode_steps s.
Proof.
  intros Hreach Hfuel Hrun.
  assert (Hgen : reachable s' ∧ W s' = W s ∧ H s' = H s ∧
                 count_nonempty (field s') = count_nonempty (field s) + Z.of_nat (length actions)).
  { induction Hrun as [s | s s1 s' a r rest Hlegal Hc Hrun IH].
    - repeat split; [done|]. simpl. lia.
    - destruct (reachable_wf s Hreach) as [Hwf _].
      destruct (call_step_legal_result fuel s s1 a r Hwf Hlegal Hfuel Hc)
        as (t & _ & _ & HW1 & HH1 & Hcnt).
      destruct IH as (Hr' & HW' & HH' & Hcnt').
      + by apply (reach_step fuel s s1 a r).
      + unfold loop_bound in *. by rewrite HW1, HH1.
      + split; [done|]. split; [congruence|]. split; [congruence|].
        rewrite Hcnt', Hcnt. simpl length. lia. }
  destruct Hgen as (Hr' & HW' & HH' & Hcnt). split; [done|].
  rewrite <- Hcnt. destruct (reachable_wf s' Hr') as [((HW & HH & Hlen) & _) _].
  pose proof (count_nonempty_le_length (field s')). unfold max_episode_steps.
  rewrite <- HW', <- HH'. lia.
Qed.

Lemma legal_run_length_witness :
  count_nonempty (field after34) = count_nonempty (field opening8x8) + 1 ∧
  count_nonempty (field opening8x8) + 1 ≤ max_episode_steps opening8x8.
Proof.
  apply (legal_run_length 9 opening8x8 after34 [34]).
  - exact opening8x8_reachable.
  - vm_compute. lia.
  - apply (run_cons 9 opening8x8 after34 after34 34 (mkStep (field after34) 0 0 false []) []).
    + eapply legal_check; [by vm_compute | reflexivity | reflexivity].
    + by vm_compute.
    + apply run_nil.
Defined.

(** ** Flipped stones *)

Lemma painted_refl (my : Z) (l : list Z) : painted my l l.
Proof. apply Forall_Forall2_diag, Forall_forall. auto. Qed.

Lemma painted_trans (my : Z) (l1 l2 l3 : list Z) :
  painted my l1 l2 → painted my l2 l3 → painted my l1 l3.
Proof.
  unfold painted. intros H12. revert l3.
  induction H12 as [|v1 v2 l1 l2 Hv H12 IH]; intros l3 H23.
  - by apply Forall2_nil_inv_l in H23 as ->.
  - apply Forall2_cons_inv_l in H23 as (v3 & l3' & Hv' & H23 & ->).
    constructor; [|by apply IH].
    destruct Hv as [-> | ->], Hv' as [-> | ->]; auto.
Qed.

Lemma painted_py_set (my : Z) (l l' : list Z) (i : Z) :
  py_set l i my = Ok l' → painted my l l'.
Proof.
  unfold py_set. intros Hs. bind_inv Hs k Hk. injection Hs as <-.
  apply Forall2_same_length_lookup. split; [by rewrite length_insert|].
  intros j v v' Hv Hv'.
  destruct (decide (k = j)) as [-> | Hne].
  - rewrite list_lookup_insert_eq in Hv' by (by eapply lookup_lt_Some). right. congruence.
  - rewrite list_lookup_insert_ne in Hv' by done. left. congruence.
Qed.

Lemma painted_keeps (my : Z) (l l' : list Z) (k : nat) :
  painted my l l' → l !! k = Some my → l' !! k = Some my.
Proof.
  intros Hp Hk. apply Forall2_same_length_lookup in Hp as [Hlen Hp].
  destruct (lookup_lt_is_Some_2 l' k) as [v' Hv'].
  { rewrite <- Hlen. by eapply lookup_lt_Some. }
  destruct (Hp k my v' Hk Hv') as [-> | ->]; done.
Qed.

Lemma flip_walk_painted (fuel : nat) (my dx dy : Z) :
  ∀ t tx ty t',
    flip_walk fuel t my dx dy tx ty = Ok t' →
    ∃ f, t' = with_field t f ∧ painted my (field t) f.
Proof.
  induction fuel as [|fuel IH]; intros t tx ty t' Hw; [done|].
  simpl in Hw. bind_inv Hw v Hv. case_bool_decide.
  - bind_inv Hw f1 Hf1. apply np_set_Ok in Hf1. apply IH in Hw as (f & -> & Hg).
    exists f. split; [done|].
    apply (painted_trans _ _ f1); [by apply (painted_py_set _ _ _ _ Hf1) | done].
  - injection Hw as <-. exists (field t). split; [by rewrite with_field_id | apply painted_refl].
Qed.

Lemma flip_loop_painted (fuel : nat) (my x y : Z) (ds : list Z) :
  ∀ t t', for_each ds (flip_dir fuel my x y) t = Ok t' →
          ∃ f, t' = with_field t f ∧ painted my (field t) f.
Proof.
  induction ds as [|d ds IH]; intros t t' Hl.
  - injection Hl as <-. exists (field t). split; [by rewrite with_field_id | apply painted_refl].
  - rewrite for_each_cons in Hl. bind_inv Hl t1 Ht1.
    unfold flip_dir in Ht1. bind_inv Ht1 dd Hdd. destruct dd as [dx dy].
    apply (flip_walk_painted fuel my dx dy) in Ht1 as (f1 & -> & Hg1).
    apply IH in Hl as (f & -> & Hg).
    exists f. split; [done|]. by apply (painted_trans _ _ f1).
Qed.

(** The walk leaves a stone of the mover on the cell it starts from. *)
Lemma flip_walk_first (fuel : nat) (t t' : env) (my dx dy tx ty : Z) :
  board_ok t → on_board t tx ty →
  flip_walk fuel t my dx dy tx ty = Ok t' →
  field t' !! Z.to_nat (pos t tx ty) = Some my.
Proof.
  intros Hok [Hx Hy] Hw. destruct fuel as [|fuel]; [done|].
  pose proof Hok as (HW & HH & Hlen).
  pose proof (pos_in_range (W t) (H t) tx ty Hx Hy) as Hpos.
  simpl in Hw. bind_inv Hw v Hv. case_bool_decide as Hne.
  - bind_inv Hw f1 Hf1. apply np_set_Ok in Hf1.
    apply flip_walk_painted in Hw as (f & -> & Hp). simpl in *.
    apply (painted_keeps my f1); [done|].
    unfold pos in *. rewrite py_set_in_range in Hf1 by lia. injection Hf1 as <-.
    apply list_lookup_insert_eq. lia.
  - injection Hw as <-. subst v.
    unfold get_field in Hv. rewrite !bool_decide_eq_false_2 in Hv by lia.
    apply py_get_in_range_inv in Hv; [done | unfold pos in *; lia].
Qed.

Lemma count_eq_cons (v x : Z) (l : list Z) :
  count_eq v (x :: l) = (if decide (x = v) then 1 else 0) + count_eq v l.
Proof.
  unfold count_eq. rewrite filter_cons. destruct (decide (x = v)); simpl length; lia.
Qed.

Lemma painted_count (my en : Z) (l l' : list Z) :
  my ≠ en → painted my l l' →
  count_eq en l' ≤ count_eq en l ∧
  ∀ k, l !! k = Some en → l' !! k = Some my → count_eq en l' < count_eq en l.
Proof.
  intros Hme Hp. induction Hp as [|v v' l l' Hv Hp [IHle IHlt]].
  - split; [done|]. intros k Hk. by rewrite lookup_nil in Hk.
  - rewrite !count_eq_cons. split.
    + destruct Hv as [-> | ->]; repeat case_decide; lia.
    + intros [|k] Hk Hk'; simpl in Hk, Hk'.
      * injection Hk as ->. injection Hk' as ->.
        repeat case_decide; try done; lia.
      * specialize (IHlt k Hk Hk').
        destruct Hv as [-> | ->]; repeat case_decide; lia.
Qed.

Lemma count_by_color (l : list Z) :
  cells_ok l → count_nonempty l = count_eq 1 l + count_eq (-1) l.
Proof.
  unfold cells_ok. induction 1 as [|x l Hx Hl IH]; [done|].
  rewrite !count_eq_cons. unfold count_nonempty in *. rewrite filter_cons.
  destruct (decide (x ≠ 0)); simpl length; repeat case_decide; lia.
Qed.

(** X10: a legal move always captures: the step only ever writes the
    mover's color, the opponent loses at least one stone, and the mover
    gains the flipped stones and the one placed. *)
Theorem call_step_flips (fuel : nat) (s s' : env) (a : Z) (r : step_result) :
  reachable s → legal s a → (loop_bound s ≤ fuel)%nat →
  call_step fuel s a = Ok (s', r) →
  let my := color_of (player_index s) in
  let flipped := count_eq (- my) (field s) - count_eq (- my) (field s') in
  painted my (field s) (field s') ∧
  1 ≤ flipped ∧
  count_eq my (field s') = count_eq my (field s) + 1 + flipped.
Proof.
  intros Hreach Hlegal Hfuel Hc my flipped.
  destruct (reachable_wf s Hreach) as [Hwf Hcells].
  assert (Hcells' : cells_ok (field s'))
    by (apply reachable_wf, (reach_step fuel s s' a r); done).
  destruct (call_step_legal_result fuel s s' a r Hwf Hlegal Hfuel Hc)
    as (t & Hstep & Hft & _ & _ & Hcnt).
  (* the direction sets of the mover *)
  destruct (wf_current_dirs s Hwf) as (dirs_p & Hdp & Hlen & Hspec).
  destruct Hlegal as (Ha & dirs_p' & dirs & Hdp' & Hdirs & Hne).
  rewrite Hdp in Hdp'. injection Hdp' as <-.
  pose proof Hwf as (Hok & Hp & _). pose proof Hok as (HW & HH & Hflen).
  destruct (decode_pos s a HW HH Ha) as (HW0 & Hx & Hy & Hpos).
  set (x := a `mod` W s) in *. set (y := a `div` W s) in *.
  destruct (color_facts (player_index s)) as (Hme & He9 & He0 & Hm0).
  fold my in Hme, He9, He0, Hm0.
  destruct (Hspec x y Hx Hy) as (L & HL & Hocc & Hemp).
  rewrite Hpos in HL.
  assert (L = dirs) as ->.
  { apply py_get_in_range_inv in Hdirs; [congruence | lia]. }
  assert (Hcell : get_field s x y = Ok 0).
  { rewrite get_field_cell by done.
    destruct (decide (cell s x y = 0)) as [-> | Hc0]; [done|].
    exfalso. apply Hne, Hocc. rewrite get_field_cell by done. congruence. }
  specialize (Hemp Hcell).
  destruct dirs as [|d dirs]; [done|].
  destruct (proj1 (Hemp d) ltac:(left)) as (dx & dy & Hd & Hout).
  apply outflanks_cell in Hout as (n & Hn & Hrun & _); [|done].
  pose proof (Hrun 1 ltac:(lia)) as Hnb. rewrite !Z.mul_1_l in Hnb.
  fold my in Hnb.
  destruct (cell_on_board s _ _ _ Hnb He9) as [Hnx Hny].
  (* the step *)
  revert Hstep. unfold _step, pos_decode.
  cbn [W H with_field with_action with_player_index field movable_dirs player_index _player_index].
  rewrite bool_decide_eq_false_2 by done. rewrite bind_Ok. fold x y.
  intros Hstep. bind_inv Hstep f1 Hf1. apply np_set_Ok in Hf1.
  cbn [W H with_field with_action with_player_index field movable_dirs player_index _player_index]
    in Hstep.
  fold (player_index s) in Hstep. rewrite Hdp, bind_Ok in Hstep.
  rewrite Hdirs, bind_Ok in Hstep.
  bind_inv Hstep t1 Ht1. bind_inv Hstep d0 Hd0. bind_inv Hstep d1 Hd1.
  injection Hstep as <-. simpl in Hft.
  fold (player_index s) in Ht1, Hf1. fold my in Ht1, Hf1.
  rewrite for_each_cons in Ht1. bind_inv Ht1 t0 Ht0.
  unfold flip_dir in Ht0. rewrite (move_diff_scan_dirs dx dy d Hd), bind_Ok in Ht0.
  set (s1 := with_field (with_action s a) f1) in *.
  assert (Hlen1 : length f1 = length (field s)) by (by apply py_set_length in Hf1).
  assert (Hok1 : board_ok s1) by (repeat split; simpl; [done | done | congruence]).
  pose proof (flip_walk_first fuel s1 t0 my dx dy (x + dx) (y + dy) Hok1 (conj Hnx Hny) Ht0)
    as Hfirst.
  apply flip_walk_painted in Ht0 as (f0 & -> & Hp0).
  apply flip_loop_painted in Ht1 as (f & -> & Hp1).
  simpl in Hft, Hfirst, Hp0, Hp1.
  assert (Hpaint : painted my (field s) f).
  { apply (painted_trans _ _ f1); [by apply (painted_py_set _ _ _ _ Hf1)|].
    by apply (painted_trans _ _ f0). }
  rewrite Hft. split; [done|].
  change (pos s1 (x + dx) (y + dy)) with (pos s (x + dx) (y + dy)) in Hfirst.
  assert (Hwas : field s !! Z.to_nat (pos s (x + dx) (y + dy)) = Some (- my)).
  { unfold cell in Hnb. rewrite bool_decide_eq_true_2 in Hnb by done.
    fold (pos s (x + dx) (y + dy)) in Hnb.
    destruct (field s !! Z.to_nat (pos s (x + dx) (y + dy))) as [v|] eqn:E.
    - simpl in Hnb. congruence.
    - simpl in Hnb. lia. }
  pose proof (painted_keeps my f0 f _ Hp1 Hfirst) as Hnow.
  destruct (painted_count my (- my) (field s) f Hme Hpaint) as [_ Hlt].
  specialize (Hlt _ Hwas Hnow).
  rewrite Hft in Hcells', Hcnt.
  pose proof (count_by_color _ Hcells) as C. pose proof (count_by_color _ Hcells') as C'.
  unfold flipped. rewrite Hft.
  destruct (color_of_pm (player_index s)) as [E | E]; fold my in E; rewrite E in *;
    change (- (1)) with (-1) in *; change (- (-1)) with 1 in *; lia.
Qed.

Lemma call_step_flips_witness :
  painted 1 (field opening8x8) (field after34) ∧
  1 ≤ count_eq (-1) (field opening8x8) - count_eq (-1) (field after34) ∧
  count_eq 1 (field after34)
  = count_eq 1 (field opening8x8) + 1
    + (count_eq (-1) (field opening8x8) - count_eq (-1) (field after34)).
Proof.
  apply (call_step_flips 9 opening8x8 after34 34 (mkStep (field after34) 0 0 false [])).
  - exact opening8x8_reachable.
  - eapply legal_check; [by vm_compute | reflexivity | reflexivity].
  - vm_compute. lia.
  - by vm_compute.
Defined.

(** ** The turn *)

(** X11: after a legal move that leaves the opponent a cell to play, the
    turn goes to the opponent: the step returns the board of [_step] with
    the other player to move, rewards (0, 0) and the episode running. *)
Theorem call_step_turn_changes (fuel : nat) (s : env) (a : Z) :
  reachable s → legal s a → (loop_bound s ≤ fuel)%nat →
  ∃ s1, _step fuel (with_action s a) a = Ok s1 ∧
        (has_legal_cell s1 (opponent (player_index s)) →
         call_step fuel s a
         = Ok (with_player_index s1 (opponent (player_index s)),
               mkStep (field s1) 0 0 false []) ∧
         opponent (player_index s) ≠ player_index s).
Proof.
  intros Hreach Hlegal Hfuel. destruct (reachable_wf s Hreach) as [Hwf _].
  destruct (call_step_legal fuel s a Hwf Hlegal Hfuel)
    as (s1 & Hstep & _ & _ & _ & _ & _ & _ & _ & _ & _ & _ & _ & Hnext).
  exists s1. split; [done|]. intros He. split; [by apply Hnext|].
  destruct Hwf as (_ & Hp & _).
  destruct (opponent_cases _ Hp) as [[-> ->] | [-> ->]]; done.
Qed.

Lemma call_step_turn_changes_witness :
  ∃ s1, _step 9 (with_action opening8x8 34) 34 = Ok s1 ∧
        (has_legal_cell s1 (opponent (player_index opening8x8)) →
         call_step 9 opening8x8 34
         = Ok (with_player_index s1 (opponent (player_index opening8x8)),
               mkStep (field s1) 0 0 false []) ∧
         opponent (player_index opening8x8) ≠ player_index opening8x8).
Proof.
  apply (call_step_turn_changes 9 opening8x8 34).
  - exact opening8x8_reachable.
  - eapply legal_check; [by vm_compute | reflexivity | reflexivity].
  - vm_compute. lia.
Defined.

(** ** Actions off the board *)

Lemma py_get_out_of_range {A : Type} (l : list A) (i : Z) :
  i < - Z.of_nat (length l) ∨ Z.of_nat (length l) ≤ i → py_get l i = Raise IndexError.
Proof.
  intros Hi. unfold py_get, py_index.
  rewrite (bool_decide_eq_false_2 (0 ≤ i < _)) by lia.
  by rewrite (bool_decide_eq_false_2 (- _ ≤ i < 0)) by lia.
Qed.

Lemma py_get_negative {A : Type} (l : list A) (i : Z) (a : A) :
  - Z.of_nat (length l) ≤ i < 0 → l !! Z.to_nat (i + Z.of_nat (length l)) = Some a →
  py_get l i = Ok a.
Proof.
  intros Hi Ha. unfold py_get, py_index.
  rewrite (bool_decide_eq_false_2 (0 ≤ i < _)) by lia.
  rewrite (bool_decide_eq_true_2 (- _ ≤ i < 0)) by lia.
  simpl. by rewrite Ha.
Qed.

(** X12: [call_step] does not check the range of the action: in a state of
    a game an action that is not a subscript of the board raises
    [IndexError], and a negative one that is stands for the cell counted
    from the end, so that it ends the episode as an illegal selection when
    that cell is not legal. *)
Theorem call_step_action_range (fuel : nat) (s : env) (a : Z) :
  reachable s →
  (a < - (W s * H s) ∨ W s * H s ≤ a → call_step fuel s a = Raise IndexError) ∧
  (- (W s * H s) ≤ a < 0 → ¬ legal s (a + W s * H s) →
   call_step fuel s a
   = Ok (with_action s a,
         if bool_decide (player_index s = 0)
         then mkStep (field s) (-1) 0 true []
         else mkStep (field s) 0 (-1) true [])).
Proof.
  intros Hreach. destruct (reachable_wf s Hreach) as [Hwf _].
  destruct (wf_current_dirs s Hwf) as (dirs_p & Hdp & Hlen & _).
  pose proof Hwf as ((HW & HH & _) & _ & _).
  assert (HN : 0 ≤ W s * H s) by (by apply Z.mul_nonneg_nonneg).
  unfold call_step.
  change (py_get (movable_dirs (with_action s a)) (player_index (with_action s a)))
    with (py_get (movable_dirs s) (player_index s)).
  rewrite Hdp, bind_Ok. split.
  - intros Hout. by rewrite py_get_out_of_range by lia.
  - intros Hneg Hillegal.
    destruct (lookup_lt_is_Some_2 dirs_p (Z.to_nat (a + W s * H s))) as [L HL]; [lia|].
    assert (Hget : py_get dirs_p a = Ok L).
    { apply py_get_negative; [lia|].
      by replace (Z.to_nat (a + Z.of_nat (length dirs_p))) with (Z.to_nat (a + W s * H s)) by lia. }
    rewrite Hget, bind_Ok.
    assert (L = []) as ->.
    { destruct L as [|d L]; [done|]. exfalso. apply Hillegal.
      split; [unfold action_space_n; lia|]. exists dirs_p, (d :: L).
      split; [done|]. split; [|done]. apply py_get_in_range; [lia | done]. }
    rewrite bool_decide_eq_true_2 by done.
    change (player_index (with_action s a)) with (player_index s).
    by case_bool_decide.
Qed.

Lemma call_step_action_range_witness :
  (64 < - (8 * 8) ∨ 8 * 8 ≤ 64 → call_step 9 opening8x8 64 = Raise IndexError) ∧
  (- (8 * 8) ≤ 64 < 0 → ¬ legal opening8x8 (64 + 8 * 8) →
   call_step 9 opening8x8 64
   = Ok (with_action opening8x8 64, mkStep (field opening8x8) (-1) 0 true [])).
Proof.
  apply (call_step_action_range 9 opening8x8 64).
  apply (reach_reset 9 (fresh 8 8) opening8x8 (field opening8x8)); [simpl; lia | simpl; lia|].
  reflexivity.
Defined.

(** ** The shape of the direction lists *)

Lemma scan_dir_shape (fuel : nat) (s : env) (my en x y : Z) (dl dl' : list (list Z))
    (dx dy d : Z) (L0 : list Z) :
  0 ≤ pos s x y → dl !! Z.to_nat (pos s x y) = Some L0 →
  scan_dir fuel s my en x y dl (dx, dy, d) = Ok dl' →
  ∃ L1, sublist L1 [d] ∧ dl' = <[Z.to_nat (pos s x y) := L0 ++ L1]> dl.
Proof.
  intros Hpos Hl. unfold scan_dir. intros Hs.
  assert (Hsame : ∃ L1, sublist L1 [d] ∧ dl = <[Z.to_nat (pos s x y) := L0 ++ L1]> dl).
  { exists []. split; [apply sublist_nil_l|]. by rewrite app_nil_r, list_insert_id. }
  bind_inv Hs v Hv. case_bool_decide; [by injection Hs as <-|].
  bind_inv Hs xy Hxy. destruct xy as [ex ey]. bind_inv Hs v' Hv'.
  case_bool_decide; [|by injection Hs as <-].
  rewrite (append_at_in_range dl _ d L0) in Hs by done. injection Hs as <-.
  exists [d]. split; [done|]. done.
Qed.

Lemma scan_dirs_shape (fuel : nat) (s : env) (my en x y : Z) (ds : list (Z * Z * Z)) :
  0 ≤ pos s x y →
  ∀ dl dl' L0, dl !! Z.to_nat (pos s x y) = Some L0 →
    for_each ds (scan_dir fuel s my en x y) dl = Ok dl' →
    ∃ L1, sublist L1 ((λ t : Z * Z * Z, t.2) <$> ds) ∧
          dl' = <[Z.to_nat (pos s x y) := L0 ++ L1]> dl.
Proof.
  intros Hpos. induction ds as [|[[dx dy] d] ds IH]; intros dl dl' L0 Hl Hf.
  - injection Hf as <-. exists []. split; [done|]. by rewrite app_nil_r, list_insert_id.
  - rewrite for_each_cons in Hf. bind_inv Hf dl1 Hdl1.
    destruct (scan_dir_shape _ _ _ _ _ _ _ _ _ _ _ L0 Hpos Hl Hdl1) as (L1 & Hsub1 & ->).
    destruct (IH _ _ (L0 ++ L1) ltac:(apply list_lookup_insert_eq; by eapply lookup_lt_Some) Hf)
      as (L2 & Hsub2 & ->).
    exists (L1 ++ L2). split.
    + rewrite fmap_cons. exact (sublist_app L1 [d] L2 _ Hsub1 Hsub2).
    + by rewrite list_insert_insert_eq, app_assoc.
Qed.

Lemma scan_cell_shape (fuel : nat) (s : env) (my en x y : Z) (dl dl' : list (list Z)) :
  0 ≤ pos s x y → dl !! Z.to_nat (pos s x y) = Some [] →
  scan_cell fuel s my en y dl x = Ok dl' →
  ∃ L, sublist L dir_names ∧ dl' = <[Z.to_nat (pos s x y) := L]> dl.
Proof.
  intros Hpos Hl. unfold scan_cell. intros Hs. bind_inv Hs v Hv.
  case_bool_decide.
  - injection Hs as <-. exists []. split; [apply sublist_nil_l | by rewrite list_insert_id].
  - by apply (scan_dirs_shape _ _ _ _ _ _ _ Hpos _ _ [] Hl) in Hs.
Qed.

Lemma dir_names_known (L : list Z) (d : Z) :
  sublist L dir_names → d ∈ L → ∃ dx dy, move_diff d = Ok (dx, dy).
Proof.
  intros Hsub Hd. apply (elem_of_sublist _ _ _ Hd) in Hsub. rename Hsub into Hd'. clear Hd.
  rename Hd' into Hd.
  unfold dir_names, scan_dirs in Hd. simpl in Hd.
  rewrite !elem_of_cons, elem_of_nil in Hd.
  destruct Hd as [-> | [-> | [-> | [-> | [-> | [-> | [-> | [-> | []]]]]]]]]; by eexists _, _.
Qed.

(** X13: the direction lists are tidy: on every board the scanner gives
    each cell a list of direction names in scan order, each name at most
    once, and every name in it is a key of the table [move_diff] that
    [_step] looks it up in. *)
Theorem calc_movable_dirs_tidy (fuel : nat) (s : env) (p : Z) :
  board_ok s → (loop_bound s ≤ fuel)%nat →
  ∃ dirs_list, _calc_movable_dirs fuel s p = Ok dirs_list ∧
    Forall (λ L, sublist L [1; 2; 3; 6; 9; 8; 7; 4] ∧ NoDup L ∧
                 ∀ d, d ∈ L → ∃ dx dy, move_diff d = Ok (dx, dy)) dirs_list.
Proof.
  intros Hok Hfuel. pose proof Hok as (HW & HH & Hlen).
  assert (Hgoal : ∃ dl, _calc_movable_dirs fuel s p = Ok dl ∧
                        Forall (λ L, sublist L dir_names) dl).
  { unfold _calc_movable_dirs.
    set (my := color_of p). set (en := - my).
    set (processed := λ (y x y' x' : Z), y' < y ∨ (y' = y ∧ x' < x)).
    set (Inv := λ (y x : Z) (dl : list (list Z)),
           length dl = Z.to_nat (W s * H s) ∧
           ∀ x' y', 0 ≤ x' < W s → 0 ≤ y' < H s →
             ∃ L, dl !! Z.to_nat (pos s x' y') = Some L ∧
                  sublist L dir_names ∧
                  (¬ processed y x y' x' → L = [])).
    destruct (for_each_range_inv
                (λ dirs_list y,
                   for_each (range (W s)) (scan_cell fuel s my en y) dirs_list)
                (λ y dl, Inv y 0 dl) (H s) HH)
      with (st := replicate (Z.to_nat (W s * H s)) ([] : list Z))
      as (dl & Hdl & HInv).
    - intros y dl Hy HI.
      destruct (for_each_range_inv (scan_cell fuel s my en y) (λ x dl, Inv y x dl) (W s) HW)
        with (st := dl) as (dl' & Hdl' & HInv'); [ | done | ].
      + intros x dl0 Hx [Hlen0 HI0].
        destruct (HI0 x y Hx Hy) as (L0 & HL0 & _ & Hnot).
        rewrite Hnot in HL0 by (unfold processed; lia).
        pose proof (pos_in_range (W s) (H s) x y Hx Hy) as Hpos. fold (pos s x y) in Hpos.
        destruct (scan_cell_spec fuel s p x y dl0 Hok Hfuel ltac:(done) HL0) as (L' & HL' & _).
        destruct (scan_cell_shape fuel s my en x y dl0 _ ltac:(lia) HL0 HL')
          as (L & Hsub & HL).
        eexists. split; [exact HL'|]. rewrite HL. split; [by rewrite length_insert|].
        intros x' y' Hx' Hy'.
        destruct (decide (x' = x ∧ y' = y)) as [[-> ->] | Hne].
        * exists L. split; [apply list_lookup_insert_eq; by apply lookup_lt_Some in HL0|].
          split; [done|]. intros Hn. exfalso. apply Hn. unfold processed. lia.
        * destruct (HI0 x' y' Hx' Hy') as (L1 & HL1 & Hs1 & Hnp).
          exists L1. split.
          -- rewrite list_lookup_insert_ne; [done|].
             intros Heq. apply Hne.
             pose proof (pos_in_range (W s) (H s) x' y' Hx' Hy').
             unfold pos in *.
             apply (pos_inj (W s) x' y' x y); [done | done | lia].
          -- split; [done|]. unfold processed in *. intros Hq. apply Hnp. lia.
      + exists dl'. split; [done|]. destruct HInv' as [Hlen' HI'].
        split; [done|]. intros x' y' Hx' Hy'.
        destruct (HI' x' y' Hx' Hy') as (L' & HL' & Hs' & Hnp).
        exists L'. split; [done|]. split; [done|]. unfold processed in *.
        intros Hq. apply Hnp. lia.
    - split; [by rewrite length_replicate|].
      intros x' y' Hx' Hy'. exists []. split.
      + apply lookup_replicate_2. pose proof (pos_in_range (W s) (H s) x' y' Hx' Hy').
        unfold pos. lia.
      + split; [apply sublist_nil_l | done].
    - exists dl. split; [done|]. destruct HInv as [Hlen' HI'].
      apply Forall_lookup. intros k L Hk.
      assert (Hk' : 0 ≤ Z.of_nat k < W s * H s) by (apply lookup_lt_Some in Hk; lia).
      destruct (decode_pos s (Z.of_nat k) HW HH Hk') as (_ & Hx & Hy & Hpos).
      destruct (HI' _ _ Hx Hy) as (L' & HL' & Hsub & _).
      rewrite Hpos, Nat2Z.id in HL'. congruence. }
  destruct Hgoal as (dl & Hdl & Hall). exists dl. split; [done|].
  eapply Forall_impl; [exact Hall|]. intros L Hsub. split; [exact Hsub|]. split.
  - eapply sublist_NoDup; [|exact Hsub]. unfold dir_names, scan_dirs. simpl.
    repeat (apply NoDup_cons_2; [rewrite ?elem_of_cons, elem_of_nil; lia|]).
    apply NoDup_nil_2.
  - intros d Hd. by apply (dir_names_known L).
Qed.

Lemma calc_movable_dirs_tidy_witness :
  ∃ dirs_list, _calc_movable_dirs 9 after34 1 = Ok dirs_list ∧
    Forall (λ L, sublist L [1; 2; 3; 6; 9; 8; 7; 4] ∧ NoDup L ∧
                 ∀ d, d ∈ L → ∃ dx dy, move_diff d = Ok (dx, dy)) dirs_list.
Proof.
  apply (calc_movable_dirs_tidy 9 after34 1).
  - apply reachable_wf, (position_reachable 8 8 [34]); [lia | lia | reflexivity].
  - vm_compute. lia.
Defined.

(** ** The opening moves *)

Lemma reset_cells (fuel : nat) (s0 s : env) (o : list Z) :
  2 ≤ W s0 → 2 ≤ H s0 → call_reset fuel s0 = Ok (s, o) →
  W s = W s0 ∧ H s = H s0 ∧ player_index s = 0 ∧
  ∀ u v, cell s u v = opening_cell (W s0) (H s0) u v.
Proof.
  intros HW2 HH2. unfold call_reset, np_zeros.
  assert (Hn : 0 ≤ W s0 * H s0) by (apply Z.mul_nonneg_nonneg; lia).
  rewrite bool_decide_eq_false_2 by (simpl; lia). rewrite bind_Ok.
  cbn [W H with_field with_action with_player_index].
  pose proof (quot2_bounds (W s0) HW2) as Hcx. pose proof (quot2_bounds (H s0) HH2) as Hcy.
  fold (int_half (W s0)) in Hcx. fold (int_half (H s0)) in Hcy.
  set (cx := int_half (W s0) - 1) in *. set (cy := int_half (H s0) - 1) in *.
  set (N := Z.to_nat (W s0 * H s0)).
  set (e0 := with_field (with_player_index (with_action s0 0) 0) (replicate N 0)).
  assert (Hok0 : board_ok e0).
  { repeat split; simpl; [lia | lia | apply length_replicate]. }
  assert (Hx1 : 0 ≤ cx < W s0) by lia. assert (Hx2 : 0 ≤ cx + 1 < W s0) by lia.
  assert (Hy1 : 0 ≤ cy < H s0) by lia. assert (Hy2 : 0 ≤ cy + 1 < H s0) by lia.
  rewrite (set_field_on_board e0) by done. rewrite bind_Ok.
  set (e1 := with_field e0 _).
  assert (Hok1 : board_ok e1) by (apply board_ok_with_field; [done | apply length_insert]).
  rewrite (set_field_on_board e1) by done. rewrite bind_Ok.
  set (e2 := with_field e1 _).
  assert (Hok2 : board_ok e2) by (apply board_ok_with_field; [done | apply length_insert]).
  rewrite (set_field_on_board e2) by done. rewrite bind_Ok.
  set (e3 := with_field e2 _).
  assert (Hok3 : board_ok e3) by (apply board_ok_with_field; [done | apply length_insert]).
  rewrite (set_field_on_board e3) by done. rewrite bind_Ok.
  set (e4 := with_field e3 _).
  intros Hr. bind_inv Hr d0 Hd0. bind_inv Hr d1 Hd1. injection Hr as <- _.
  do 3 (split; [done|]). intros u v.
  change (cell (with_movable_dirs e4 [d0; d1]) u v) with (cell e4 u v).
  unfold e4. rewrite (cell_with_field_insert e3) by done.
  unfold e3. rewrite (cell_with_field_insert e2) by done.
  unfold e2. rewrite (cell_with_field_insert e1) by done.
  unfold e1. rewrite (cell_with_field_insert e0) by done.
  unfold opening_cell. fold cx cy.
  assert (H0 : cell e0 u v = if bool_decide (0 ≤ u < W s0 ∧ 0 ≤ v < H s0) then 0 else 9).
  { unfold cell. simpl. case_bool_decide as Hon; [|done].
    rewrite lookup_replicate_2; [done|].
    pose proof (pos_in_range (W s0) (H s0) u v ltac:(lia) ltac:(lia)). lia. }
  rewrite H0. reflexivity.
Qed.

Lemma opening_cell_stone (w h u v : Z) :
  let cx := int_half w - 1 in
  let cy := int_half h - 1 in
  (opening_cell w h u v = 1 →
   (u = cx ∧ v = cy) ∨ (u = cx + 1 ∧ v = cy + 1)) ∧
  (opening_cell w h u v = -1 →
   (u = cx + 1 ∧ v = cy) ∨ (u = cx ∧ v = cy + 1)).
Proof.
  intros cx cy. unfold opening_cell. fold cx cy. clearbody cx cy.
  repeat case_decide; try case_bool_decide; split; intros; try done; lia.
Qed.

(** No direction outflanks on the opening board except the four that
    give the opening moves. *)
Lemma opening_outflanks (cx cy x y dx dy : Z) (c : Z → Z → Z) :
  (∀ u v, c u v = 1 → (u = cx ∧ v = cy) ∨ (u = cx + 1 ∧ v = cy + 1)) →
  (∀ u v, c u v = -1 → (u = cx + 1 ∧ v = cy) ∨ (u = cx ∧ v = cy + 1)) →
  -1 ≤ dx ≤ 1 → -1 ≤ dy ≤ 1 → dx ≠ 0 ∨ dy ≠ 0 →
  (∃ n : Z, 1 ≤ n ∧
     (∀ i, 1 ≤ i ≤ n → c (x + i * dx) (y + i * dy) = -1) ∧
     c (x + (n + 1) * dx) (y + (n + 1) * dy) = 1) →
  (x = cx + 1 ∧ y = cy - 1) ∨ (x = cx + 2 ∧ y = cy) ∨
  (x = cx - 1 ∧ y = cy + 1) ∨ (x = cx ∧ y = cy + 2).
Proof.
  intros Hmine Htheirs Hdx Hdy Hd0 (n & Hn & Hrun & Hend).
  pose proof (Htheirs _ _ (Hrun 1 ltac:(lia))) as H1.
  destruct (decide (n = 1)) as [-> | Hn1].
  - pose proof (Hmine _ _ Hend) as H2. lia.
  - pose proof (Htheirs _ _ (Hrun 2 ltac:(lia))) as H2.
    destruct (decide (n = 2)) as [-> | Hn2].
    + pose proof (Hmine _ _ Hend) as H3. lia.
    + pose proof (Htheirs _ _ (Hrun 3 ltac:(lia))) as H3. lia.
Qed.

Lemma scan_dirs_unit (dx dy d : Z) :
  (dx, dy, d) ∈ scan_dirs → -1 ≤ dx ≤ 1 ∧ -1 ≤ dy ≤ 1 ∧ (dx ≠ 0 ∨ dy ≠ 0).
Proof. intros Hd. dir_cases Hd; lia. Qed.

(** X14: the opening of the game: on every board of at least 4 by 4 cells
    the reset leaves player 0 exactly four legal actions, the empty cells
    next to a stone of player 1 and in line with a stone of player 0. *)
Theorem call_reset_opening_moves (fuel : nat) (s0 s : env) (o : list Z) :
  4 ≤ W s0 → 4 ≤ H s0 → call_reset fuel s0 = Ok (s, o) →
  ∀ a, legal s a ↔ a ∈ opening_moves s.
Proof.
  intros HW4 HH4 Hr.
  destruct (reset_cells fuel s0 s o ltac:(lia) ltac:(lia) Hr) as (EW & EH & Hp & Hcell).
  destruct (call_reset_wf fuel s0 s o ltac:(lia) ltac:(lia) Hr) as [Hwf _].
  pose proof Hwf as (Hok & _ & _). pose proof Hok as (HW & HH & Hlen).
  destruct (wf_current_dirs s Hwf) as (dirs_p & Hdp & Hdlen & Hspec).
  pose proof (quot2_bounds (W s0) ltac:(lia)) as Hcx.
  pose proof (quot2_bounds (H s0) ltac:(lia)) as Hcy.
  assert (Hcx4 : 1 ≤ int_half (W s0) - 1 ∧ int_half (W s0) - 1 + 2 < W s0).
  { unfold int_half. rewrite Z.quot_div_nonneg by lia.
    pose proof (Z.div_mod (W s0) 2 ltac:(lia)).
    pose proof (Z.mod_pos_bound (W s0) 2 ltac:(lia)). lia. }
  assert (Hcy4 : 1 ≤ int_half (H s0) - 1 ∧ int_half (H s0) - 1 + 2 < H s0).
  { unfold int_half. rewrite Z.quot_div_nonneg by lia.
    pose proof (Z.div_mod (H s0) 2 ltac:(lia)).
    pose proof (Z.mod_pos_bound (H s0) 2 ltac:(lia)). lia. }
  unfold opening_moves. rewrite EW, EH.
  set (cx := int_half (W s0) - 1) in *. set (cy := int_half (H s0) - 1) in *.
  assert (Hval : ∀ u v, cell s u v = opening_cell (W s0) (H s0) u v) by done.
  assert (Hopen : ∀ u v, opening_cell (W s0) (H s0) u v
            = if decide (u = cx ∧ v = cy + 1) then -1
              else if decide (u = cx + 1 ∧ v = cy) then -1
              else if decide (u = cx + 1 ∧ v = cy + 1) then 1
              else if decide (u = cx ∧ v = cy) then 1
              else if bool_decide (0 ≤ u < W s0 ∧ 0 ≤ v < H s0) then 0
              else 9) by done.
  assert (Hmine : ∀ u v, cell s u v = 1 → (u = cx ∧ v = cy) ∨ (u = cx + 1 ∧ v = cy + 1)).
  { intros u v. rewrite Hcell. apply opening_cell_stone. }
  assert (Htheirs : ∀ u v, cell s u v = -1 → (u = cx + 1 ∧ v = cy) ∨ (u = cx ∧ v = cy + 1)).
  { intros u v. rewrite Hcell. apply opening_cell_stone. }
  assert (Hcolor : color_of (player_index s) = 1) by (rewrite Hp; done).
  clear Hcx Hcy. clearbody cx cy.
  (* a cell with a direction is one of the four *)
  assert (Honly : ∀ x y d, 0 ≤ x < W s → 0 ≤ y < H s → movable s (player_index s) x y d →
            (x = cx + 1 ∧ y = cy - 1) ∨ (x = cx + 2 ∧ y = cy) ∨
            (x = cx - 1 ∧ y = cy + 1) ∨ (x = cx ∧ y = cy + 2)).
  { intros x y d Hx Hy (dx & dy & Hd & Hout).
    apply outflanks_cell in Hout; [|done]. rewrite Hcolor in Hout.
    destruct (scan_dirs_unit dx dy d Hd) as (Hdx & Hdy & Hd0).
    by apply (opening_outflanks cx cy x y dx dy (cell s)). }
  (* each of the four has one *)
  assert (Hhas : ∀ x y dx dy d, (dx, dy, d) ∈ scan_dirs →
            cell s (x + dx) (y + dy) = -1 → cell s (x + 2 * dx) (y + 2 * dy) = 1 →
            movable s (player_index s) x y d).
  { intros x y dx dy d Hd He Hm. exists dx, dy. split; [done|].
    apply outflanks_cell; [done|]. rewrite Hcolor. exists 1. split; [lia|]. split.
    - intros i Hi. replace i with 1 by lia. rewrite !Z.mul_1_l. done.
    - done. }
  intros a. split.
  - intros (Ha & dirs_p' & dirs & Hdp' & Hdirs & Hne).
    rewrite Hdp in Hdp'. injection Hdp' as <-.
    destruct (decode_pos s a HW HH Ha) as (HW0 & Hx & Hy & Hpos).
    destruct (Hspec _ _ Hx Hy) as (L & HL & Hocc & Hemp). rewrite Hpos in HL.
    assert (L = dirs) as ->.
    { apply py_get_in_range_inv in Hdirs; [congruence | lia]. }
    destruct dirs as [|d dirs]; [done|].
    assert (Hempty : get_field s (a `mod` W s) (a `div` W s) = Ok 0).
    { rewrite get_field_cell by done.
      destruct (decide (cell s (a `mod` W s) (a `div` W s) = 0)) as [-> | Hc0]; [done|].
      exfalso. assert (d :: dirs = []); [|done].
      apply Hocc. rewrite get_field_cell by done. congruence. }
    pose proof (proj1 (Hemp Hempty d) ltac:(left)) as Hmov.
    pose proof (Honly _ _ d Hx Hy Hmov) as Hfour.
    rewrite <- Hpos. rewrite !elem_of_cons.
    destruct Hfour as [[-> ->] | [[-> ->] | [[-> ->] | [-> ->]]]]; auto.
  - intros Hin. rewrite !elem_of_cons, elem_of_nil in Hin.
    assert (Hfour : ∃ x y dx dy d, a = pos s x y ∧ 0 ≤ x < W s ∧ 0 ≤ y < H s ∧
              (dx, dy, d) ∈ scan_dirs ∧ cell s x y = 0 ∧
              cell s (x + dx) (y + dy) = -1 ∧ cell s (x + 2 * dx) (y + 2 * dy) = 1).
    { unfold pos in *.
      destruct Hin as [-> | [-> | [-> | [-> | []]]]].
      - exists (cx + 1), (cy - 1), 0, 1, 2.
        split; [done|]. split; [lia|]. split; [lia|].
        split; [unfold scan_dirs; repeat first [apply list_elem_of_here | apply list_elem_of_further]|]. rewrite !Hval, !Hopen.
        repeat split; repeat case_decide; try case_bool_decide; try done; lia.
      - exists (cx + 2), cy, (-1), 0, 4.
        split; [done|]. split; [lia|]. split; [lia|].
        split; [unfold scan_dirs; repeat first [apply list_elem_of_here | apply list_elem_of_further]|]. rewrite !Hval, !Hopen.
        repeat split; repeat case_decide; try case_bool_decide; try done; lia.
      - exists (cx - 1), (cy + 1), 1, 0, 6.
        split; [done|]. split; [lia|]. split; [lia|].
        split; [unfold scan_dirs; repeat first [apply list_elem_of_here | apply list_elem_of_further]|]. rewrite !Hval, !Hopen.
        repeat split; repeat case_decide; try case_bool_decide; try done; lia.
      - exists cx, (cy + 2), 0, (-1), 8.
        split; [done|]. split; [lia|]. split; [lia|].
        split; [unfold scan_dirs; repeat first [apply list_elem_of_here | apply list_elem_of_further]|]. rewrite !Hval, !Hopen.
        repeat split; repeat case_decide; try case_bool_decide; try done; lia. }
    destruct Hfour as (x & y & dx & dy & d & -> & Hx & Hy & Hd & Hc0 & He & Hm).
    pose proof (pos_in_range (W s) (H s) x y Hx Hy) as Hpos. fold (pos s x y) in Hpos.
    destruct (Hspec x y Hx Hy) as (L & HL & _ & Hemp).
    split; [done|]. exists dirs_p, L. split; [done|].
    split; [apply py_get_in_range; [lia | done]|].
    assert (Hempty : get_field s x y = Ok 0) by (rewrite get_field_cell by done; congruence).
    pose proof (proj2 (Hemp Hempty d) (Hhas x y dx dy d Hd He Hm)) as Hin'.
    intros ->. by apply elem_of_nil in Hin'.
Qed.

Lemma call_reset_opening_moves_witness :
  (legal opening8x8 34 ↔ 34 ∈ [20; 29; 34; 43]) ∧
  (legal opening8x8 35 ↔ 35 ∈ [20; 29; 34; 43]).
Proof.
  split; apply (call_reset_opening_moves 9 (fresh 8 8) opening8x8 (field opening8x8));
    [simpl; lia | simpl; lia | reflexivity | simpl; lia | simpl; lia | reflexivity].
Defined.

(** ** The cache of the search *)

Lemma extends_refl (w : world) : extends w w.
Proof. unfold extends. split; [done|]. split; [lia | auto]. Qed.

Lemma extends_trans (w1 w2 w3 : world) : extends w1 w2 → extends w2 w3 → extends w1 w3.
Proof.
  intros (A1 & B1 & C1) (A2 & B2 & C2). split; [congruence|]. split; [lia | auto].
Qed.

Lemma extends_with_env (w : world) (e : env) : extends w (with_env w e).
Proof. unfold extends. simpl. split; [done|]. split; [lia | auto]. Qed.

Lemma negamax_action_extends (loop_fuel : nat)
    (recurse : world → Z → res (list Z * world))
    (env_dat : snapshot) (p depth : Z) (scores scores' : list Z) (w w' : world) (a : Z) :
  (∀ w0 d r w1, recurse w0 d = Ok (r, w1) → extends w0 w1) →
  negamax_action loop_fuel recurse env_dat p depth (scores, w) a = Ok (scores', w') →
  extends w w'.
Proof.
  intros Hrec. unfold negamax_action. intros Ha.
  bind_inv Ha er Her. destruct er as [e r].
  destruct (done r).
  - bind_inv Ha sc Hsc. injection Ha as _ <-. apply extends_with_env.
  - case_bool_decide.
    + bind_inv Ha v Hv. bind_inv Ha sc Hsc. bind_inv Ha sc' Hsc'.
      injection Ha as _ <-. apply extends_with_env.
    + bind_inv Ha nw Hnw. destruct nw as [n_scores w1].
      bind_inv Ha m Hm. bind_inv Ha sc Hsc. injection Ha as _ <-.
      apply Hrec in Hnw. apply (extends_trans _ (with_env w e)); [apply extends_with_env | done].
Qed.

Lemma negamax_loop_extends (loop_fuel : nat)
    (recurse : world → Z → res (list Z * world))
    (env_dat : snapshot) (p depth : Z) (actions : list Z) :
  (∀ w0 d r w1, recurse w0 d = Ok (r, w1) → extends w0 w1) →
  ∀ scores w scores' w',
    for_each actions (negamax_action loop_fuel recurse env_dat p depth) (scores, w)
    = Ok (scores', w') →
    extends w w'.
Proof.
  intros Hrec. induction actions as [|a rest IH]; intros scores w scores' w' Hl.
  - injection Hl as _ <-. apply extends_refl.
  - rewrite for_each_cons in Hl. bind_inv Hl st Hst. destruct st as [sc1 w1].
    apply (extends_trans w w1).
    + by eapply negamax_action_extends.
    + by eapply IH.
Qed.

(** X15: the search only ever adds to the cache: it keeps the depth limit,
    never lowers the node counter, and every entry the cache held before
    the call is still there, with the same vector, after it. *)
Theorem negamax_keeps_cache (fuel loop_fuel : nat) (w w' : world) (depth : Z)
    (scores : list Z) :
  _negamax fuel loop_fuel w depth = Ok (scores, w') →
  max_depth (self w') = max_depth (self w) ∧
  _count (self w) ≤ _count (self w') ∧
  ∀ k v, cache_get (cache w) k = Some v → cache_get (cache w') k = Some v.
Proof.
  change (_negamax fuel loop_fuel w depth = Ok (scores, w') → extends w w').
  revert w w' depth scores.
  induction fuel as [|fuel IH]; intros w w' depth scores Hn; [done|].
  rewrite negamax_unfold in Hn.
  destruct (cache_get (cache w) (np_str (field (env_of w)))) as [cached|] eqn:Hmiss.
  { injection Hn as _ <-. apply extends_refl. }
  cbn zeta in Hn. bind_inv Hn valid Hvalid. bind_inv Hn st Hst. destruct st as [sc w1].
  injection Hn as _ <-.
  apply negamax_loop_extends in Hst as (A & B & C); [|intros; by eapply IH].
  simpl in A, B, C. split; [done|]. split; [simpl; lia|].
  intros k v Hk. simpl. case_decide as Hkey.
  - subst k. congruence.
  - by apply C.
Qed.

Lemma negamax_caches_root (fuel loop_fuel : nat) (w w' : world) (depth : Z)
    (scores : list Z) :
  _negamax fuel loop_fuel w depth = Ok (scores, w') →
  cache_get (cache w') (np_str (field (env_of w))) = Some scores.
Proof.
  intros Hn. destruct fuel as [|fuel]; [done|].
  rewrite negamax_unfold in Hn.
  destruct (cache_get (cache w) (np_str (field (env_of w)))) as [cached|] eqn:Hmiss.
  - by injection Hn as <- <-.
  - cbn zeta in Hn. bind_inv Hn valid Hvalid. bind_inv Hn st Hst. destruct st as [sc w1].
    injection Hn as <- <-. simpl. by rewrite decide_True.
Qed.

(** X16: the search memoizes by the text of the board alone: the vector it
    returns is cached under the text of the board it was called on, and
    any later call on an environment whose board has the same text (the
    same cells or, beyond 1000 cells, the same three leading and three
    trailing cells) returns that vector at once, without counting a
    node, whoever is to move, whatever the depth and whichever worker
    asks. *)
Theorem negamax_memoizes (fuel loop_fuel : nat) (w w' : world) (depth : Z)
    (scores : list Z) :
  _negamax fuel loop_fuel w depth = Ok (scores, w') →
  cache_get (cache w') (np_str (field (env_of w))) = Some scores ∧
  ∀ fuel' loop_fuel' me e depth',
    np_str (field e) = np_str (field (env_of w)) →
    _negamax (S fuel') loop_fuel' (mkWorld me (cache w') e) depth'
    = Ok (scores, mkWorld me (cache w') e).
Proof.
  intros Hn. pose proof (negamax_caches_root _ _ _ _ _ _ Hn) as Hget.
  split; [done|].
  intros fuel' loop_fuel' me e depth' He.
  rewrite negamax_unfold. simpl. by rewrite He, Hget.
Qed.

Lemma negamax_memoizes_witness :
  match _negamax 4 9 (mkWorld default_cpu [] mid4x4) 2 with
  | Ok (scores, w') =>
      cache_get (cache w') (np_str (field mid4x4)) = Some scores ∧
      _negamax 1 9 (mkWorld depth0_cpu (cache w') (with_player_index mid4x4 1)) 0
      = Ok (scores, mkWorld depth0_cpu (cache w') (with_player_index mid4x4 1))
  | _ => False
  end.
Proof.
  destruct (_negamax 4 9 (mkWorld default_cpu [] mid4x4) 2) as [[scores w']| |] eqn:E;
    [|by vm_compute in E..].
  destruct (negamax_memoizes 4 9 _ w' 2 scores E) as [Hget Hagain].
  split; [exact Hget|]. by apply Hagain.
Defined.

Lemma negamax_keeps_cache_witness :
  match _negamax 4 9 (mkWorld default_cpu [] mid4x4) 2 with
  | Ok (scores, w') =>
      max_depth (self w') = 2 ∧ 0 ≤ _count (self w') ∧
      ∀ k v, cache_get [] k = Some v → cache_get (cache w') k = Some v
  | _ => False
  end.
Proof.
  destruct (_negamax 4 9 (mkWorld default_cpu [] mid4x4) 2) as [[scores w']| |] eqn:E;
    [|by vm_compute in E..].
  exact (negamax_keeps_cache 4 9 _ w' 2 scores E).
Defined.

(** ** The choice of the policy *)

(** X17: whatever the state of the cache, the action the policy returns is
    an index of the score vector that the cache then holds for the board,
    and it carries the maximum of that vector. *)
Theorem call_policy_argmax (fuel loop_fuel : nat) (me me' : cpu) (c c' : cache_t)
    (e : env) (pick : nat) (a : Z) :
  call_policy fuel loop_fuel me c e pick = Ok (a, me', c') →
  ∃ scores m,
    cache_get c' (np_str (field e)) = Some scores ∧
    0 ≤ a < Z.of_nat (length scores) ∧
    scores !! Z.to_nat a = Some m ∧
    Forall (λ x, x ≤ m) scores.
Proof.
  unfold call_policy. intros Hp.
  bind_inv Hp sw Hsw. destruct sw as [scores w].
  bind_inv Hp m Hm.
  destruct (_ !! _) as [a'|] eqn:Hbest; [|done]. injection Hp as <- <- <-.
  apply list_elem_of_lookup_2 in Hbest.
  apply list_elem_of_filter in Hbest as [Ha Hr]. apply elem_of_range in Hr.
  exists scores, m.
  split; [by apply (negamax_caches_root _ _ _ _ _ _ Hsw)|].
  split; [done|]. split; [done|]. by apply np_max_spec.
Qed.

Lemma call_policy_argmax_witness :
  match call_policy 4 9 default_cpu [] mid4x4 0 with
  | Ok (a, me', c') =>
      ∃ scores m,
        cache_get c' (np_str (field mid4x4)) = Some scores ∧
        0 ≤ a < Z.of_nat (length scores) ∧
        scores !! Z.to_nat a = Some m ∧
        Forall (λ x, x ≤ m) scores
  | _ => False
  end.
Proof.
  destruct (call_policy 4 9 default_cpu [] mid4x4 0) as [[[a me'] c']| |] eqn:E;
    [|by vm_compute in E..].
  exact (call_policy_argmax 4 9 default_cpu me' [] c' mid4x4 0 a E).
Defined.

(** ** The policy on the boards the tables fit *)

(** X18: on a board that the evaluation tables fit (8x8, 6x6, or a width
    that is neither 8 nor 6), starting from an empty cache and with a
    recursion budget of the depth limit plus two, the policy returns, and
    the action it returns is legal, whatever the draw among the best. *)
Theorem call_policy_returns_legal (fuel loop_fuel : nat) (me : cpu) (e : env)
    (pick : nat) :
  wf e → cells_ok (field e) → supported e →
  has_legal_cell e (player_index e) →
  (loop_bound e ≤ loop_fuel)%nat →
  max_depth me + 2 ≤ Z.of_nat fuel → (1 ≤ fuel)%nat →
  ∃ a me' c', call_policy fuel loop_fuel me [] e pick = Ok (a, me', c') ∧ legal e a.
Proof.
  intros Hwf Hcells Hsup Hmove Hloop Hfuel Hone.
  by apply call_policy_legal_supported.
Qed.

Lemma call_policy_returns_legal_witness :
  ∃ a me' c', call_policy 4 9 default_cpu [] opening8x8 0 = Ok (a, me', c') ∧
              legal opening8x8 a.
Proof.
  destruct opening8x8_node as (Hwf & Hcells & Hsup & Hmove & Hloop).
  apply (call_policy_returns_legal 4 9 default_cpu opening8x8 0); try done.
  simpl. lia.
Defined.

(** ** The observation layers *)

Lemma for_each_range_raise {St : Type} (body : St → Z → res St) (I : Z → St → Prop)
    (n k : Z) (ex : exn) :
  0 ≤ k < n →
  (∀ i st, 0 ≤ i < k → I i st → ∃ st', body st i = Ok st' ∧ I (i + 1) st') →
  (∀ st, I k st → body st k = Raise ex) →
  ∀ st, I 0 st → for_each (range n) body st = Raise ex.
Proof.
  intros Hk Hstep Hfail. unfold range.
  assert (Hgen : ∀ len start st,
             Z.of_nat start ≤ k < Z.of_nat start + Z.of_nat len → I (Z.of_nat start) st →
             for_each (Z.of_nat <$> seq start len) body st = Raise ex).
  { induction len as [|len IH]; intros start st Hsum Hst; [lia|].
    simpl. destruct (decide (Z.of_nat start = k)) as [E | E].
    - rewrite E in *. by rewrite (Hfail st Hst).
    - destruct (Hstep (Z.of_nat start) st ltac:(lia) Hst) as (st1 & -> & Hst1).
      rewrite bind_Ok. apply IH; [lia|].
      by replace (Z.of_nat (S start)) with (Z.of_nat start + 1) by lia. }
  intros st Hst. apply (Hgen (Z.to_nat n) 0%nat st); [lia | done].
Qed.

Lemma shape3_zeros (h w : Z) :
  0 ≤ h → 0 ≤ w →
  np_zeros3 2 h w = Ok (replicate 2 (replicate (Z.to_nat h) (replicate (Z.to_nat w) 0))) ∧
  shape3 2 (Z.to_nat h) (Z.to_nat w)
         (replicate 2 (replicate (Z.to_nat h) (replicate (Z.to_nat w) 0))).
Proof.
  intros Hh Hw. split.
  - unfold np_zeros3. by rewrite !bool_decide_eq_false_2 by lia.
  - split; [done|]. intros l layer Hl.
    apply lookup_replicate in Hl as [-> _]. split; [by rewrite length_replicate|].
    intros y row Hy. apply lookup_replicate in Hy as [-> _]. by rewrite length_replicate.
Qed.

Lemma at3_zeros (h w l y x : nat) :
  (l < 2)%nat → (y < h)%nat → (x < w)%nat →
  at3 (replicate 2 (replicate h (replicate w 0))) l y x = Some 0.
Proof.
  intros Hl Hy Hx. unfold at3.
  rewrite lookup_replicate_2 by done. simpl.
  rewrite lookup_replicate_2 by done. simpl.
  by rewrite lookup_replicate_2.
Qed.

(** The effect of an assignment to one entry. *)
Lemma set3_spec (n h w : nat) (F : list (list (list Z))) (l y x v : Z) :
  shape3 n h w F →
  0 ≤ l < Z.of_nat n → 0 ≤ y < Z.of_nat h → 0 ≤ x < Z.of_nat w →
  ∃ F', set3 F l y x v = Ok F' ∧ shape3 n h w F' ∧
        ∀ l' y' x', at3 F' l' y' x'
                    = if decide (l' = Z.to_nat l ∧ y' = Z.to_nat y ∧ x' = Z.to_nat x)
                      then Some v else at3 F l' y' x'.
Proof.
  intros [Hn Hsh] Hl Hy Hx.
  destruct (lookup_lt_is_Some_2 F (Z.to_nat l)) as [layer Hlayer]; [lia|].
  destruct (Hsh _ _ Hlayer) as [Hh Hrows].
  destruct (lookup_lt_is_Some_2 layer (Z.to_nat y)) as [row Hrow]; [lia|].
  pose proof (Hrows _ _ Hrow) as Hw.
  unfold set3.
  rewrite (py_get_in_range F l layer) by (done || lia). rewrite bind_Ok.
  rewrite (py_get_in_range layer y row) by (done || lia). rewrite bind_Ok.
  rewrite py_set_in_range by lia. rewrite bind_Ok.
  rewrite py_set_in_range by lia. rewrite bind_Ok.
  rewrite py_set_in_range by lia.
  eexists. split; [done|]. split.
  - split; [by rewrite length_insert|].
    intros l' layer' Hl'.
    destruct (decide (l' = Z.to_nat l)) as [-> | Hne].
    + rewrite list_lookup_insert_eq in Hl' by lia. injection Hl' as <-.
      split; [by rewrite length_insert|].
      intros y' row' Hy'.
      destruct (decide (y' = Z.to_nat y)) as [-> | Hne'].
      * rewrite list_lookup_insert_eq in Hy' by lia. injection Hy' as <-.
        by rewrite length_insert.
      * rewrite list_lookup_insert_ne in Hy' by done. by eapply Hrows.
    + rewrite list_lookup_insert_ne in Hl' by done. by apply (Hsh l').
  - intros l' y' x'. unfold at3.
    destruct (decide (l' = Z.to_nat l)) as [-> | Hne].
    + rewrite list_lookup_insert_eq by lia. rewrite Hlayer. simpl.
      destruct (decide (y' = Z.to_nat y)) as [-> | Hne'].
      * rewrite list_lookup_insert_eq by lia. rewrite Hrow. simpl.
        destruct (decide (x' = Z.to_nat x)) as [-> | Hne''].
        -- rewrite list_lookup_insert_eq by lia. by rewrite decide_True.
        -- rewrite list_lookup_insert_ne by done. rewrite decide_False; [done|].
           intros (_ & _ & ?). done.
      * rewrite list_lookup_insert_ne by done. rewrite decide_False; [done|].
        intros (_ & ? & _). done.
    + rewrite list_lookup_insert_ne by done. rewrite decide_False; [done|].
      intros (? & _). done.
Qed.

(** Two arrays of the same shape with the same entries are equal. *)
Lemma shape3_ext (n h w : nat) (F G : list (list (list Z))) :
  shape3 n h w F → shape3 n h w G →
  (∀ l y x, (l < n)%nat → (y < h)%nat → (x < w)%nat → at3 F l y x = at3 G l y x) →
  F = G.
Proof.
  intros [HnF HF] [HnG HG] Hext.
  apply list_eq_same_length with n; [done | done|].
  intros l LF LG Hl HlF HlG.
  destruct (HF _ _ HlF) as [HhF HrF]. destruct (HG _ _ HlG) as [HhG HrG].
  apply list_eq_same_length with h; [done | done|].
  intros y RF RG Hy HyF HyG.
  pose proof (HrF _ _ HyF) as HwF. pose proof (HrG _ _ HyG) as HwG.
  apply list_eq_same_length with w; [done | done|].
  intros x a b Hx Ha Hb.
  specialize (Hext l y x Hl Hy Hx). unfold at3 in Hext.
  rewrite HlF, HlG in Hext. simpl in Hext. rewrite HyF, HyG in Hext. simpl in Hext.
  congruence.
Qed.

Lemma lookup_range (n : Z) (i : nat) :
  (i < Z.to_nat n)%nat → range n !! i = Some (Z.of_nat i).
Proof.
  intros Hi. unfold range. rewrite list_lookup_fmap, lookup_seq_lt by done. done.
Qed.

Lemma shape3_planes (e : env) (observation : list Z) (c c' : Z) :
  shape3 2 (Z.to_nat (H e)) (Z.to_nat (W e))
         [plane e observation c; plane e observation c'].
Proof.
  split; [done|]. intros l layer Hl.
  assert (Hlayer : ∃ k, layer = plane e observation k).
  { destruct l as [|[|l]]; simpl in Hl; [injection Hl as <-; eauto..|done]. }
  destruct Hlayer as [k ->]. unfold plane.
  split; [by rewrite length_fmap, length_range|].
  intros y row Hy. rewrite list_lookup_fmap in Hy.
  destruct (range (H e) !! y); [|done]. injection Hy as <-.
  by rewrite length_fmap, length_range.
Qed.

Lemma at3_planes (e : env) (observation : list Z) (c0 c1 : Z) (l y x : nat) :
  (l < 2)%nat → (y < Z.to_nat (H e))%nat → (x < Z.to_nat (W e))%nat →
  at3 [plane e observation c0; plane e observation c1] l y x
  = Some (shows observation (if decide (l = 0%nat) then c0 else c1)
                (Z.of_nat x + Z.of_nat y * W e)).
Proof.
  intros Hl Hy Hx. unfold at3.
  assert (Hlayer : [plane e observation c0; plane e observation c1] !! l
                   = Some (plane e observation (if decide (l = 0%nat) then c0 else c1))).
  { destruct l as [|[|l]]; [done | done | lia]. }
  rewrite Hlayer. simpl. unfold plane.
  rewrite list_lookup_fmap, lookup_range by done. simpl.
  rewrite list_lookup_fmap, lookup_range by done. done.
Qed.

Lemma process_cell_ok (e : env) (observation : list Z) (my en y x : Z)
    (F : list (list (list Z))) :
  my ≠ en →
  0 ≤ y < H e → 0 ≤ x < W e → x + y * W e < Z.of_nat (length observation) →
  layers_upto e observation my en y x F →
  ∃ F', process_cell e observation my en y F x = Ok F' ∧
        layers_upto e observation my en y (x + 1) F'.
Proof.
  intros Hme Hy Hx Hidx [Hsh Hat].
  assert (Hidx0 : 0 ≤ x + y * W e).
  { assert (0 ≤ y * W e) by (apply Z.mul_nonneg_nonneg; lia). lia. }
  destruct (lookup_lt_is_Some_2 observation (Z.to_nat (x + y * W e))) as [v Hv]; [lia|].
  unfold process_cell. cbn zeta.
  rewrite (py_get_in_range observation _ v) by done. rewrite !bind_Ok.
  assert (Hcase : ∀ l c, (l = 0 ∧ c = my) ∨ (l = 1 ∧ c = en) → v = c →
            ∃ F', set3 F l y x 1 = Ok F' ∧ layers_upto e observation my en y (x + 1) F').
  { intros l c Hlc ->.
    destruct (set3_spec 2 _ _ F l y x 1 Hsh) as (F' & HF' & Hsh' & Hat'); [lia..|].
    exists F'. split; [done|]. split; [done|].
    intros l' y' x' Hl' Hy' Hx'. rewrite Hat'. case_decide as Hhit.
    - destruct Hhit as (-> & -> & ->).
      rewrite bool_decide_eq_true_2 by lia. rewrite !Z2Nat.id by lia.
      unfold shows. rewrite bool_decide_eq_true_2; [done|].
      rewrite Hv. f_equal. destruct Hlc as [[-> ->] | [-> ->]]; done.
    - rewrite Hat by done. f_equal.
      destruct (decide (Z.of_nat y' = y ∧ Z.of_nat x' = x)) as [[Ey Ex] | Hother].
      + (* the same cell, the other layer *)
        rewrite bool_decide_eq_false_2 by lia. rewrite bool_decide_eq_true_2 by lia.
        unfold shows. rewrite Ex, Ey, Hv.
        rewrite bool_decide_eq_false_2; [done|].
        intros [= Heq]. apply Hhit. split; [|lia].
        destruct Hlc as [[-> ->] | [-> ->]];
          destruct (decide (l' = 0%nat)) as [-> | Hl0]; simpl; try done; try lia; congruence.
      + repeat case_bool_decide; try done; lia. }
  case_bool_decide as Hmy.
  - apply (Hcase 0 my); [by left | done].
  - case_bool_decide as Hen.
    + apply (Hcase 1 en); [by right | done].
    + exists F. split; [done|]. split; [done|].
      intros l' y' x' Hl' Hy' Hx'. rewrite Hat by done. f_equal.
      destruct (decide (Z.of_nat y' = y ∧ Z.of_nat x' = x)) as [[Ey Ex] | Hother].
      * rewrite bool_decide_eq_false_2 by lia. rewrite bool_decide_eq_true_2 by lia.
        unfold shows. rewrite Ex, Ey, Hv.
        rewrite bool_decide_eq_false_2; [done|].
        intros [= Heq]. destruct (decide (l' = 0%nat)); congruence.
      * repeat case_bool_decide; try done; lia.
Qed.

Lemma process_row_ok (e : env) (observation : list Z) (my en y : Z)
    (F : list (list (list Z))) :
  my ≠ en → 0 ≤ W e →
  0 ≤ y < H e → W e * (y + 1) ≤ Z.of_nat (length observation) →
  layers_upto e observation my en y 0 F →
  ∃ F', for_each (range (W e)) (process_cell e observation my en y) F = Ok F' ∧
        layers_upto e observation my en (y + 1) 0 F'.
Proof.
  intros Hme HW Hy Hlen Hinv.
  destruct (for_each_range_inv (process_cell e observation my en y)
              (λ x F, layers_upto e observation my en y x F) (W e) HW) with (st := F)
    as (F' & HF' & Hsh' & Hat'); [|done|].
  - intros x F0 Hx HF0. apply process_cell_ok; try done. nia.
  - exists F'. split; [done|]. split; [done|].
    intros l' y' x' Hl' Hy' Hx'. rewrite Hat' by done. f_equal.
    repeat case_bool_decide; try done; lia.
Qed.

Lemma process_observation_ok (observation : list Z) (e : env) :
  0 ≤ W e → 0 ≤ H e → W e * H e ≤ Z.of_nat (length observation) →
  let my := color_of (player_index e) in
  process_observation observation e
  = Ok [plane e observation my; plane e observation (- my)].
Proof.
  intros HW HH Hlen my.
  assert (Hcol : (if bool_decide (player_index e = 0) then (1, -1) else (-1, 1))
                 = (my, - my)).
  { unfold my, color_of. by case_bool_decide. }
  unfold process_observation. rewrite Hcol.
  destruct (shape3_zeros (H e) (W e) HH HW) as [-> Hsh0]. rewrite bind_Ok.
  assert (Hme : my ≠ - my) by (unfold my; apply color_facts).
  destruct (for_each_range_inv
              (λ F y, for_each (range (W e)) (process_cell e observation my (- my) y) F)
              (λ y F, layers_upto e observation my (- my) y 0 F) (H e) HH)
    with (st := replicate 2 (replicate (Z.to_nat (H e)) (replicate (Z.to_nat (W e)) 0)))
    as (F' & -> & Hsh' & Hat').
  - intros y F0 Hy HF0. apply process_row_ok; try done.
    assert (W e * (y + 1) ≤ W e * H e) by (apply Z.mul_le_mono_nonneg_l; lia). lia.
  - split; [done|]. intros l y x Hl Hy Hx.
    rewrite at3_zeros by done. by rewrite bool_decide_eq_false_2 by lia.
  - f_equal. apply (shape3_ext 2 (Z.to_nat (H e)) (Z.to_nat (W e))); [done | |].
    + apply shape3_planes.
    + intros l y x Hl Hy Hx. rewrite Hat', at3_planes by done.
      by rewrite bool_decide_eq_true_2 by lia.
Qed.

(** X19: the layers of an observation: on a board of non-negative
    dimensions and an observation that covers it, the processor returns two
    planes of one row per board row, the first with 1 exactly on the cells
    of the player to move and the second with 1 exactly on the
    opponent's. *)
Theorem process_observation_planes (observation : list Z) (e : env) :
  0 ≤ W e → 0 ≤ H e → W e * H e ≤ Z.of_nat (length observation) →
  let my := color_of (player_index e) in
  process_observation observation e
  = Ok [plane e observation my; plane e observation (- my)].
Proof. apply process_observation_ok. Qed.

Lemma process_observation_planes_witness :
  process_observation (field after34) after34
  = Ok [plane after34 (field after34) (-1); plane after34 (field after34) 1].
Proof.
  apply (process_observation_planes (field after34) after34); cbn; lia.
Defined.

Lemma range_succ (n : Z) : 0 ≤ n → range (n + 1) = range n ++ [n].
Proof.
  intros Hn. unfold range. rewrite Z2Nat.inj_add by lia.
  rewrite seq_app, fmap_app. simpl. do 3 f_equal. lia.
Qed.

Lemma range_add (a b : Z) :
  0 ≤ a → 0 ≤ b → range (a + b) = range a ++ ((λ i, i + a) <$> range b).
Proof.
  intros Ha Hb. unfold range. rewrite Z2Nat.inj_add by lia.
  rewrite seq_app, fmap_app. f_equal.
  rewrite (Nat.add_comm 0 (Z.to_nat a)), <- fmap_add_seq, <- !list_fmap_compose.
  apply list_fmap_ext. intros _ i _. simpl. lia.
Qed.

(** Rows laid end to end are the flat sequence. *)
Lemma concat_rows (g : Z → Z) (w h : Z) :
  0 ≤ w → 0 ≤ h →
  concat ((λ y, (λ x, g (x + y * w)) <$> range w) <$> range h) = g <$> range (w * h).
Proof.
  intros Hw Hh. pattern h. apply natlike_ind; [| |done].
  - rewrite Z.mul_0_r. done.
  - intros k Hk IH. unfold Z.succ.
    rewrite range_succ by done. rewrite fmap_app, concat_app, IH. simpl.
    rewrite app_nil_r.
    replace (w * (k + 1)) with (w * k + w) by lia.
    rewrite range_add by (try apply Z.mul_nonneg_nonneg; lia).
    rewrite fmap_app. f_equal. rewrite <- list_fmap_compose.
    apply list_fmap_ext. intros _ x _. simpl. f_equal. lia.
Qed.

Lemma zip_with_fmap_same {A B C D : Type} (f : B → C → D) (g1 : A → B) (g2 : A → C)
    (l : list A) :
  zip_with f (g1 <$> l) (g2 <$> l) = (λ a, f (g1 a) (g2 a)) <$> l.
Proof. induction l as [|a l IH]; [done|]. rewrite !fmap_cons. simpl. by f_equal. Qed.

(** X20: the layers lose nothing: from the two planes of an observation of
    a board whose cells are empty or hold a stone, the cells can be read
    back. *)
Theorem process_observation_round_trip (observation : list Z) (e : env) :
  0 ≤ W e → 0 ≤ H e → Z.of_nat (length observation) = W e * H e →
  cells_ok observation →
  ∃ F, process_observation observation e = Ok F ∧
       unlayer (color_of (player_index e)) F = observation.
Proof.
  intros HW HH Hlen Hcells.
  eexists. split; [apply process_observation_ok; [done | done | lia]|].
  set (my := color_of (player_index e)).
  unfold unlayer, plane. rewrite zip_with_fmap_same.
  erewrite list_fmap_ext; [|intros i y Hy; apply zip_with_fmap_same].
  cbv beta.
  rewrite (concat_rows (λ i, my * (shows observation my i - shows observation (- my) i)))
    by done.
  apply list_eq_same_length with (length observation);
    [done | rewrite length_fmap, length_range; lia|].
  intros i a v Hi Ha Hv.
  rewrite list_lookup_fmap, lookup_range in Ha by lia. injection Ha as <-.
  unfold shows. rewrite Nat2Z.id, Hv.
  unfold cells_ok in Hcells. rewrite Forall_lookup in Hcells.
  specialize (Hcells i v Hv).
  destruct Hcells as [-> | [-> | ->]];
    destruct (color_of_pm (player_index e)) as [E | E]; fold my in E; rewrite E;
    reflexivity.
Qed.

Lemma process_observation_round_trip_witness :
  ∃ F, process_observation (field after34) after34 = Ok F ∧
       unlayer (color_of (player_index after34)) F = field after34.
Proof.
  apply (process_observation_round_trip (field after34) after34).
  - cbn. lia.
  - cbn. lia.
  - reflexivity.
  - apply reachable_wf, (position_reachable 8 8 [34]); [lia | lia | reflexivity].
Defined.

(** X21: an observation shorter than the board makes the processor raise
    [IndexError]. *)
Theorem process_observation_short (observation : list Z) (e : env) :
  0 ≤ W e → 0 ≤ H e → Z.of_nat (length observation) < W e * H e →
  process_observation observation e = Raise IndexError.
Proof.
  intros HW HH Hlen.
  set (N := Z.of_nat (length observation)) in *.
  assert (HW0 : 0 < W e) by (destruct (decide (W e = 0)) as [E|]; [rewrite E in Hlen|]; lia).
  set (y0 := N `div` W e). set (x0 := N `mod` W e).
  assert (Hx0 : 0 ≤ x0 < W e) by (apply Z.mod_pos_bound; lia).
  assert (HN : N = W e * y0 + x0) by (apply Z.div_mod; lia).
  assert (Hy0 : 0 ≤ y0 < H e).
  { split; [apply Z.div_pos; lia|]. apply Z.div_lt_upper_bound; lia. }
  set (my := color_of (player_index e)).
  assert (Hcol : (if bool_decide (player_index e = 0) then (1, -1) else (-1, 1))
                 = (my, - my)).
  { unfold my, color_of. by case_bool_decide. }
  unfold process_observation. rewrite Hcol.
  destruct (shape3_zeros (H e) (W e) HH (Z.lt_le_incl _ _ HW0)) as [-> Hsh0]. rewrite bind_Ok.
  assert (Hme : my ≠ - my) by (unfold my; apply color_facts).
  apply (for_each_range_raise _ (λ y F, layers_upto e observation my (- my) y 0 F) (H e) y0);
    [done | | |].
  - intros y F0 Hy HF0. apply process_row_ok; try done; [lia|].
    assert (W e * (y + 1) ≤ W e * y0) by (apply Z.mul_le_mono_nonneg_l; lia). lia.
  - intros F0 HF0.
    apply (for_each_range_raise _ (λ x F, layers_upto e observation my (- my) y0 x F) (W e) x0);
      [done | | | done].
    + intros x F1 Hx HF1. apply process_cell_ok; try done; lia.
    + intros F1 _. unfold process_cell. cbn zeta.
      replace (x0 + y0 * W e) with N by lia.
      unfold py_get, py_index.
      rewrite !bool_decide_eq_false_2 by lia. done.
  - split; [done|]. intros l y x Hl Hy Hx.
    rewrite at3_zeros by done. by rewrite bool_decide_eq_false_2 by lia.
Qed.

Lemma process_observation_short_witness :
  process_observation [0; 1; -1] after34 = Raise IndexError.
Proof.
  apply (process_observation_short [0; 1; -1] after34); cbn; lia.
Defined.

(** ** The terminal rendering *)

Lemma append_cons (c : ascii) (s1 s2 : string) :
  String c s1 +:+ s2 = String c (s1 +:+ s2).
Proof. reflexivity. Qed.

Lemma append_nil_l (s : string) : "" +:+ s = s.
Proof. reflexivity. Qed.

Lemma length_append (s1 s2 : string) :
  String.length (s1 +:+ s2) = (String.length s1 + String.length s2)%nat.
Proof.
  induction s1 as [|c s1 IH]; [done|]. rewrite append_cons. simpl. by rewrite IH.
Qed.

Lemma append_assoc (s1 s2 s3 : string) : (s1 +:+ s2) +:+ s3 = s1 +:+ (s2 +:+ s3).
Proof.
  induction s1 as [|c s1 IH]; [done|]. rewrite !append_cons. by rewrite IH.
Qed.

Lemma append_nil_r (s : string) : s +:+ "" = s.
Proof. induction s as [|c s IH]; [done|]. rewrite append_cons. by rewrite IH. Qed.

Lemma length_str_repeat_char (c : ascii) (n : Z) :
  String.length (str_repeat (String c "") n) = Z.to_nat n.
Proof.
  unfold str_repeat. induction (Z.to_nat n) as [|k IH]; [done|].
  simpl. by rewrite append_nil_l, IH.
Qed.

Lemma concat_cons (u : string) (l : list string) :
  String.concat "" (u :: l) = u +:+ String.concat "" l.
Proof. destruct l; simpl; [by rewrite append_nil_r | done]. Qed.

Lemma concat_snoc (l : list string) (t : string) :
  String.concat "" (l ++ [t]) = String.concat "" l +:+ t.
Proof.
  induction l as [|u l IH].
  - simpl. by rewrite append_nil_l.
  - rewrite <- app_comm_cons, !concat_cons, IH. by rewrite append_assoc.
Qed.

Lemma format_2d_small (a : Z) : 0 ≤ a < 100 → two_chars (format_2d a) = true.
Proof.
  intros Ha.
  assert (Hall : forallb (λ a, two_chars (format_2d a)) (range 100) = true)
    by (vm_compute; reflexivity).
  rewrite forallb_forall in Hall. apply Hall.
  apply list_elem_of_In, elem_of_range. done.
Qed.

(** The cell of a small board takes three characters, and the middle
    one is [o] or [x] exactly for a stone. *)
Lemma cell_text_shape (s : env) (inv : list Z) (a v : Z) :
  0 ≤ a < 100 → field s !! Z.to_nat a = Some v →
  ∃ c0 c1 c2, cell_text s inv a = String c0 (String c1 (String c2 "")) ∧
    (match c1 with "o"%char => 1 | "x"%char => -1 | _ => 0 end)
    = (if bool_decide (v = 1) then 1 else if bool_decide (v = -1) then -1 else 0).
Proof.
  intros Ha Hv. unfold cell_text. rewrite Hv.
  repeat case_bool_decide; try (by eexists _, _, _).
  pose proof (format_2d_small a Ha) as Hf.
  destruct (format_2d a) as [|c0 [|c1 [|c2 t]]]; try done.
  simpl in Hf. exists c0, c1, "|"%char. split; [done|].
  apply andb_true_iff in Hf as [Ho Hx].
  apply negb_true_iff, Ascii.eqb_neq in Ho, Hx.
  destruct c1 as [[] [] [] [] [] [] [] []]; try done.
Qed.

Lemma render_cell_ok (s : env) (inv : list Z) (x y : Z) (line : string) :
  board_ok s → 0 ≤ x < W s → 0 ≤ y < H s →
  render_cell s inv y line x = Ok (line +:+ cell_text s inv (pos s x y)).
Proof.
  intros (HW & HH & Hlen) Hx Hy.
  pose proof (pos_in_range (W s) (H s) x y Hx Hy) as Hpos. fold (pos s x y) in Hpos.
  destruct (lookup_lt_is_Some_2 (field s) (Z.to_nat (pos s x y))) as [v Hv]; [lia|].
  unfold render_cell, cell_text. cbn zeta.
  rewrite (py_get_in_range (field s) _ v) by (done || lia). rewrite !bind_Ok, Hv.
  by repeat case_bool_decide.
Qed.

Lemma render_row_ok (s : env) (inv : list Z) (y : Z) :
  board_ok s → 0 ≤ y < H s →
  for_each (range (W s)) (render_cell s inv y) "|"%string = Ok (row_text s inv y).
Proof.
  intros Hok Hy. pose proof Hok as (HW & _).
  destruct (for_each_range_inv (render_cell s inv y)
              (λ k line, line = "|" +:+ String.concat ""
                                 ((λ x, cell_text s inv (pos s x y)) <$> range k))
              (W s) HW) with (st := "|"%string) as (line & -> & ->); [|done|done].
  intros x line Hx ->. eexists. split; [by apply render_cell_ok|].
  rewrite range_succ by lia.
  by rewrite fmap_app, fmap_cons, fmap_nil, concat_snoc, append_assoc.
Qed.

Lemma render_rows_ok (s : env) (inv : list Z) (out : list string) :
  board_ok s →
  for_each (range (H s))
    (λ out y, line ← for_each (range (W s)) (render_cell s inv y) "|"%string;
              Ok (out ++ [line])) out
  = Ok (out ++ (row_text s inv <$> range (H s))).
Proof.
  intros Hok. pose proof Hok as (_ & HH & _).
  destruct (for_each_range_inv
              (λ out y, line ← for_each (range (W s)) (render_cell s inv y) "|"%string;
                        Ok (out ++ [line]))
              (λ k o, o = out ++ (row_text s inv <$> range k))
              (H s) HH) with (st := out) as (o & -> & ->); [| |done].
  - intros y o Hy ->. rewrite render_row_ok by done. rewrite bind_Ok.
    eexists. split; [done|]. rewrite range_succ by lia.
    by rewrite fmap_app, fmap_cons, fmap_nil, app_assoc.
  - simpl. by rewrite app_nil_r.
Qed.

Lemma reachable_invalid_actions (s : env) :
  reachable s → ∃ inv, get_invalid_actions s (player_index s) = Ok inv.
Proof.
  intros Hreach. destruct (reachable_wf s Hreach) as [Hwf _].
  pose proof Hwf as ((HW & HH & _) & Hp & _).
  destruct (wf_dirs_of s _ Hwf Hp) as (dl & Hdl & Hlen & _).
  destruct (invalid_count s _ dl HW HH Hdl Hlen) as (inv & Hinv & _). eauto.
Qed.

Lemma render_terminal_ok (s : env) :
  reachable s →
  ∃ inv, get_invalid_actions s (player_index s) = Ok inv ∧
    render_terminal s
    = Ok ([str_repeat "-" (1 + W s * 3)]
          ++ (row_text s inv <$> range (H s))
          ++ [str_repeat "-" (1 + W s * 3);
              "O: " +:+ pretty (count_eq 1 (field s)) +:+ ", X: "
                +:+ pretty (count_eq (-1) (field s));
              if bool_decide (player_index s = 0) then "next player: O"
              else "next player: X"]).
Proof.
  intros Hreach. destruct (reachable_invalid_actions s Hreach) as [inv Hinv].
  destruct (reachable_wf s Hreach) as [(Hok & _) _].
  exists inv. split; [done|]. unfold render_terminal.
  rewrite Hinv, bind_Ok. cbn zeta. rewrite render_rows_ok by done. rewrite bind_Ok.
  case_bool_decide; by rewrite <- !app_assoc.
Qed.

Lemma length_row_text (s : env) (inv : list Z) (y : Z) :
  board_ok s → W s * H s ≤ 100 → 0 ≤ y < H s →
  String.length (row_text s inv y) = Z.to_nat (1 + W s * 3).
Proof.
  intros (HW & HH & Hlen) Hsmall Hy. unfold row_text. rewrite length_append. simpl.
  assert (Hgen : ∀ k, 0 ≤ k ≤ W s →
            String.length (String.concat ""
              ((λ x, cell_text s inv (pos s x y)) <$> range k)) = Z.to_nat (k * 3)).
  { intros k Hk. assert (Hk0 : 0 ≤ k) by lia. revert Hk.
    pattern k. apply natlike_ind; [done | | done]. clear Hk0.
    clear k. intros k Hk0 IH Hk. unfold Z.succ in *.
    rewrite range_succ by done. rewrite fmap_app, fmap_cons, fmap_nil, concat_snoc, length_append, IH by lia.
    pose proof (pos_in_range (W s) (H s) k y ltac:(lia) Hy) as Hpos.
    fold (pos s k y) in Hpos.
    destruct (lookup_lt_is_Some_2 (field s) (Z.to_nat (pos s k y))) as [v Hv]; [lia|].
    destruct (cell_text_shape s inv (pos s k y) v ltac:(lia) Hv) as (c0 & c1 & c2 & -> & _).
    simpl. lia. }
  rewrite Hgen by lia. lia.
Qed.

(** X22: the layout of the rendering of a state of a game: a ruler, one
    line per board row, the ruler again, the stone counts and the player to
    move; on a board of at most 100 cells every row is as long as the
    ruler, three characters per cell after the opening bar. *)
Theorem render_terminal_layout (s : env) :
  reachable s →
  ∃ rows,
    render_terminal s
    = Ok ([str_repeat "-" (1 + W s * 3)] ++ rows
          ++ [str_repeat "-" (1 + W s * 3);
              "O: " +:+ pretty (count_eq 1 (field s)) +:+ ", X: "
                +:+ pretty (count_eq (-1) (field s));
              if bool_decide (player_index s = 0) then "next player: O"
              else "next player: X"]) ∧
    length rows = Z.to_nat (H s) ∧
    String.length (str_repeat "-" (1 + W s * 3)) = Z.to_nat (1 + W s * 3) ∧
    (W s * H s ≤ 100 →
     Forall (λ row, String.length row = Z.to_nat (1 + W s * 3)) rows).
Proof.
  intros Hreach. destruct (render_terminal_ok s Hreach) as (inv & _ & Hr).
  destruct (reachable_wf s Hreach) as [(Hok & _) _].
  exists (row_text s inv <$> range (H s)). split; [done|].
  split; [by rewrite length_fmap, length_range|].
  split; [apply length_str_repeat_char|].
  intros Hsmall. apply Forall_fmap, Forall_forall. intros y Hy.
  apply elem_of_range in Hy. by apply length_row_text.
Qed.

Lemma render_terminal_layout_witness :
  ∃ rows,
    render_terminal after34
    = Ok (["-------------------------"%string] ++ rows
          ++ ["-------------------------"; "O: 4, X: 1"; "next player: X"]%string) ∧
    length rows = 8%nat ∧
    String.length "-------------------------" = 25%nat ∧
    (8 * 8 ≤ 100 → Forall (λ row, String.length row = 25%nat) rows).
Proof.
  apply (render_terminal_layout after34).
  apply (position_reachable 8 8 [34]); [lia | lia | reflexivity].
Defined.

Lemma get_concat_cells (cells : list string) (k : nat) (t : string) (j : nat) :
  Forall (λ c, String.length c = 3%nat) cells →
  cells !! k = Some t → (j < 3)%nat →
  String.get (3 * k + j) (String.concat "" cells) = String.get j t.
Proof.
  intros Hall. revert k. induction Hall as [|c cells Hc Hall IH]; intros k Hk Hj; [done|].
  rewrite concat_cons. destruct k as [|k]; simpl in Hk.
  - injection Hk as ->. rewrite Nat.mul_0_r. simpl. symmetry.
    rewrite <- String.append_correct1; [done | lia].
  - replace (3 * S k + j)%nat with ((3 * k + j) + String.length c)%nat by lia.
    rewrite <- String.append_correct2. by apply IH.
Qed.

(** X23: the rendering shows the whole board: on a board of at most 100
    cells, the cells of a state of a game can be read back from the printed
    rows, an [o] for a stone of player 0 and an [x] for a stone of
    player 1. *)
Theorem render_terminal_round_trip (s : env) :
  reachable s → W s * H s ≤ 100 →
  ∃ lines, render_terminal s = Ok lines ∧
           read_board (W s) (H s) lines = field s.
Proof.
  intros Hreach Hsmall. destruct (render_terminal_ok s Hreach) as (inv & _ & Hr).
  destruct (reachable_wf s Hreach) as [(Hok & _) Hcells].
  pose proof Hok as (HW & HH & Hlen).
  eexists. split; [exact Hr|].
  set (lines := _ ++ _ ++ _).
  assert (Hline : ∀ y, 0 ≤ y < H s →
            default ""%string (lines !! Z.to_nat (1 + y)) = row_text s inv y).
  { intros y Hy. unfold lines.
    replace (Z.to_nat (1 + y)) with (S (Z.to_nat y)) by lia. simpl.
    rewrite lookup_app_l by (rewrite length_fmap, length_range; lia).
    rewrite list_lookup_fmap, lookup_range by lia. simpl. by rewrite Z2Nat.id by lia. }
  assert (Hread : ∀ x y, 0 ≤ x < W s → 0 ≤ y < H s →
            read_cell (row_text s inv y) x = default 0 (field s !! Z.to_nat (pos s x y))).
  { intros x y Hx Hy.
    pose proof (pos_in_range (W s) (H s) x y Hx Hy) as Hpos. fold (pos s x y) in Hpos.
    destruct (lookup_lt_is_Some_2 (field s) (Z.to_nat (pos s x y))) as [v Hv]; [lia|].
    rewrite Hv. simpl.
    destruct (cell_text_shape s inv (pos s x y) v ltac:(lia) Hv)
      as (c0 & c1 & c2 & Htext & Hmid).
    unfold read_cell, row_text.
    replace (Z.to_nat (3 * x + 2)) with (S (3 * Z.to_nat x + 1)) by lia.
    change (String.get (S ?n) ("|" +:+ ?t)) with (String.get n t).
    rewrite (get_concat_cells _ (Z.to_nat x) (cell_text s inv (pos s x y)) 1).
    - rewrite Htext. simpl. rewrite Hmid.
      unfold cells_ok in Hcells. rewrite Forall_lookup in Hcells.
      destruct (Hcells _ _ Hv) as [-> | [-> | ->]]; reflexivity.
    - apply Forall_fmap, Forall_forall. intros x' Hx'. apply elem_of_range in Hx'.
      pose proof (pos_in_range (W s) (H s) x' y Hx' Hy) as Hpos'. fold (pos s x' y) in Hpos'.
      destruct (lookup_lt_is_Some_2 (field s) (Z.to_nat (pos s x' y))) as [v' Hv']; [lia|].
      simpl.
      by destruct (cell_text_shape s inv (pos s x' y) v' ltac:(lia) Hv')
        as (? & ? & ? & -> & _).
    - rewrite list_lookup_fmap, lookup_range by lia. simpl. by rewrite Z2Nat.id by lia.
    - lia. }
  unfold read_board.
  transitivity (concat ((λ y, (λ x, default 0 (field s !! Z.to_nat (x + y * W s)))
                               <$> range (W s)) <$> range (H s))).
  - f_equal. apply list_fmap_ext. intros _ y Hy%list_elem_of_lookup_2%elem_of_range.
    apply list_fmap_ext. intros _ x Hx%list_elem_of_lookup_2%elem_of_range.
    rewrite Hline, Hread by done. unfold pos. do 3 f_equal. lia.
  - rewrite (concat_rows (λ i, default 0 (field s !! Z.to_nat i))) by done.
    apply list_eq_same_length with (length (field s));
      [done | rewrite length_fmap, length_range; lia|].
    intros i a v Hi Ha Hv.
    rewrite list_lookup_fmap, lookup_range in Ha by lia. injection Ha as <-.
    by rewrite Nat2Z.id, Hv.
Qed.

Lemma render_terminal_round_trip_witness :
  ∃ lines, render_terminal after34 = Ok lines ∧
           read_board (W after34) (H after34) lines = field after34.
Proof.
  apply (render_terminal_round_trip after34).
  - apply (position_reachable 8 8 [34]); [lia | lia | reflexivity].
  - cbn. lia.
Defined.

(** ** The two colors *)

Lemma py_get_fmap {A B : Type} (f : A → B) (l : list A) (i : Z) :
  py_get (f <$> l) i = match py_get l i with
                       | Ok a => Ok (f a)
                       | Raise e => Raise e
                       | OutOfFuel => OutOfFuel
                       end.
Proof.
  unfold py_get. rewrite length_fmap.
  destruct (py_index (length l) i) as [k| |]; [|done..].
  rewrite !bind_Ok, list_lookup_fmap. by destruct (l !! k).
Qed.

Lemma get_field_swap (s : env) (x y : Z) :
  match get_field s x y, get_field (swap_colors s) x y with
  | Ok v, Ok v' => mirrored v v'
  | Raise e, Raise e' => e = e'
  | OutOfFuel, OutOfFuel => True
  | _, _ => False
  end.
Proof.
  unfold get_field, swap_colors. simpl.
  repeat (case_bool_decide; [by right|]).
  rewrite py_get_fmap. destruct (py_get (field s) _); [by left | done | done].
Qed.

Lemma mirrored_color (v v' c : Z) :
  c = 1 ∨ c = -1 → mirrored v v' → (v = c ↔ v' = - c) ∧ (v = 0 ↔ v' = 0).
Proof. intros Hc [-> | [-> ->]]; lia. Qed.

Lemma skip_enemy_swap (fuel : nat) (s : env) (en dx dy : Z) :
  en = 1 ∨ en = -1 →
  ∀ tx ty, skip_enemy fuel (swap_colors s) (- en) dx dy tx ty
           = skip_enemy fuel s en dx dy tx ty.
Proof.
  intros Hen. induction fuel as [|fuel IH]; intros tx ty; [done|].
  simpl. pose proof (get_field_swap s tx ty) as Hg.
  destruct (get_field s tx ty) as [v| |], (get_field (swap_colors s) tx ty) as [v'| |];
    try done; [|by subst].
  rewrite !bind_Ok. destruct (mirrored_color v v' en Hen Hg) as [Hc _].
  repeat case_bool_decide; try done; first [tauto | apply IH].
Qed.

Lemma scan_dir_swap (fuel : nat) (s : env) (my x y : Z) (dl : list (list Z))
    (d : Z * Z * Z) :
  my = 1 ∨ my = -1 →
  scan_dir fuel (swap_colors s) (- my) (- - my) x y dl d
  = scan_dir fuel s my (- my) x y dl d.
Proof.
  intros Hmy. destruct d as [[dx dy] d]. unfold scan_dir.
  assert (Hen : - my = 1 ∨ - my = -1) by lia.
  pose proof (get_field_swap s (x + dx) (y + dy)) as Hg.
  destruct (get_field s (x + dx) (y + dy)) as [v| |],
           (get_field (swap_colors s) (x + dx) (y + dy)) as [v'| |];
    try done; [|by subst].
  rewrite !bind_Ok. destruct (mirrored_color v v' (- my) Hen Hg) as [Hc _].
  repeat case_bool_decide; try done; try tauto.
  rewrite (skip_enemy_swap fuel s (- my)) by done.
  destruct (skip_enemy fuel s (- my) dx dy _ _) as [[ex ey]| |]; [|done..].
  rewrite !bind_Ok.
  pose proof (get_field_swap s ex ey) as Hg'.
  destruct (get_field s ex ey) as [w| |], (get_field (swap_colors s) ex ey) as [w'| |];
    try done; [|by subst].
  rewrite !bind_Ok. destruct (mirrored_color w w' my Hmy Hg') as [Hc' _].
  repeat case_bool_decide; try done; tauto.
Qed.

Lemma scan_cell_swap (fuel : nat) (s : env) (my y : Z) (dl : list (list Z)) (x : Z) :
  my = 1 ∨ my = -1 →
  scan_cell fuel (swap_colors s) (- my) (- - my) y dl x
  = scan_cell fuel s my (- my) y dl x.
Proof.
  intros Hmy. unfold scan_cell.
  pose proof (get_field_swap s x y) as Hg.
  destruct (get_field s x y) as [v| |], (get_field (swap_colors s) x y) as [v'| |];
    try done; [|by subst].
  rewrite !bind_Ok. destruct (mirrored_color v v' my Hmy Hg) as [_ H0].
  repeat case_bool_decide; try done; try tauto.
  apply for_each_ext. intros dl' d. by apply scan_dir_swap.
Qed.

(** X24: the rules treat the two colors alike: on the board with the
    colors of all stones exchanged, the scanner finds for one player the
    direction lists it finds for the other player on the original board,
    whatever the board holds. *)
Theorem calc_movable_dirs_swap (fuel : nat) (s : env) (p q : Z) :
  color_of q = - color_of p →
  _calc_movable_dirs fuel (swap_colors s) q = _calc_movable_dirs fuel s p.
Proof.
  intros Hq. unfold _calc_movable_dirs. rewrite Hq.
  change (W (swap_colors s)) with (W s). change (H (swap_colors s)) with (H s).
  apply for_each_ext. intros dl y.
  apply for_each_ext. intros dl' x. apply scan_cell_swap, color_of_pm.
Qed.

Lemma calc_movable_dirs_swap_witness :
  _calc_movable_dirs 9 (swap_colors after34) 1 = _calc_movable_dirs 9 after34 0.
Proof. apply (calc_movable_dirs_swap 9 after34 0 1). reflexivity. Defined.

(** ** The score vector *)

(** X25: the scores of a node: on a board that the evaluation tables fit,
    from an empty cache and with a recursion budget of the depth limit
    plus two levels, the search returns one score per action, the
    sentinel -999 for every action that is not legal and a score between
    -500 and 500 for every legal one. *)
Theorem negamax_scores (fuel loop_fuel : nat) (me : cpu) (e : env) (depth : Z) :
  wf e → cells_ok (field e) → supported e →
  has_legal_cell e (player_index e) →
  (loop_bound e ≤ loop_fuel)%nat →
  max_depth me - depth + 2 ≤ Z.of_nat fuel → (1 ≤ fuel)%nat →
  ∃ scores w',
    _negamax fuel loop_fuel (mkWorld me [] e) depth = Ok (scores, w') ∧
    length scores = Z.to_nat (W e * H e) ∧
    ∀ a, 0 ≤ a < W e * H e →
      ∃ x, scores !! Z.to_nat a = Some x ∧
           ((legal e a ∧ -500 ≤ x ≤ 500) ∨ (¬ legal e a ∧ x = -999)).
Proof.
  intros Hwf Hcells Hsup Hmove Hloop Hfuel Hone.
  destruct (negamax_ok loop_fuel (max_depth me) fuel (mkWorld me [] e) depth)
    as (scores & w' & Hn & _ & _ & _ & Hok); [done | done | done | done | done |].
  exists scores, w'. split; [done|]. by apply Hok.
Qed.

Lemma negamax_scores_witness :
  ∃ scores w',
    _negamax 4 9 (mkWorld default_cpu [] opening8x8) 0 = Ok (scores, w') ∧
    length scores = 64%nat ∧
    ∀ a, 0 ≤ a < 64 →
      ∃ x, scores !! Z.to_nat a = Some x ∧
           ((legal opening8x8 a ∧ -500 ≤ x ≤ 500) ∨ (¬ legal opening8x8 a ∧ x = -999)).
Proof.
  destruct opening8x8_node as (Hwf & Hcells & Hsup & Hmove & Hloop).
  apply (negamax_scores 4 9 default_cpu opening8x8 0); try done.
  simpl. lia.
Defined.
